(** * Data pipeline of the TTS engine: sampler, example loader, batch collator

    A shallow embedding of [utils/data_utils.py]:
    - [CustomSampler]  : length-bucketed index sampler ([__init__], [reshuffle]);
    - [TextMelLoader]  : per-example assembly ([get_data], [get_audio], [get_mel],
                         [get_alignment]);
    - [TextMelCollate] : padding of a list of examples into one batch ([__call__]).

    Python exceptions are modelled by the [res] error type, standard output by
    a list of diagnostics, the torch random generator and torch.sort by the
    interface [Torch], and the services that live outside the file (wav
    reader, array store, STFT, text handler) by the interface [Services]. *)

From Stdlib Require Import ZArith Lia.
From stdpp Require Import base tactics option list sorting strings gmap.

Local Open Scope Z_scope.
Local Open Scope nat_scope.

(** ** Exceptions *)

Inductive exn : Type :=
  | IndexError
  | KeyError
  | ValueError
  | TypeError
  | ZeroDivisionError
  | AttributeError
  | AssertionError
  | RuntimeError
  | OSError.

Inductive res (A : Type) : Type :=
  | OK (a : A)
  | Raise (e : exn).
Arguments OK {A} a.
Arguments Raise {A} e.

#[export] Instance res_ret : MRet res := λ A a, OK a.
#[export] Instance res_bind : MBind res := λ A B f m,
  match m with
  | OK a => f a
  | Raise e => Raise e
  end.
#[export] Instance res_fmap : FMap res := λ A B f m,
  match m with
  | OK a => OK (f a)
  | Raise e => Raise e
  end.

(** [l[i]] on a Python sequence, for a non-negative index. *)
Definition getitem {A} (l : list A) (i : nat) : res A :=
  match l !! i with
  | Some x => OK x
  | None => Raise IndexError
  end.

(** [[f(x) for x in l]] where [f] may raise. *)
Fixpoint comprehension {A B} (f : A → res B) (l : list A) : res (list B) :=
  match l with
  | [] => OK []
  | x :: l' => y ← f x; ys ← comprehension f l'; OK (y :: ys)
  end.

(** [l[a:b]] with Python's clamping of the two bounds. *)
Definition slice_bound (n : nat) (a : Z) : nat :=
  if (a <? 0)%Z then Z.to_nat (Z.max 0 (Z.of_nat n + a)) else Z.to_nat (Z.min a (Z.of_nat n)).

Definition py_slice {A} (l : list A) (a b : Z) : list A :=
  let lo := slice_bound (length l) a in
  let hi := slice_bound (length l) b in
  take (hi - lo) (drop lo l).

(** ** The torch collaborator

    [torch.randperm] draws from the global generator, threaded here as an
    explicit [Generator] state; its only contract is that the result is a
    permutation of [0 .. n-1].  [torch.sort(.., descending=True)] returns the
    sorted values and the source positions; the order among equal values is
    left open by torch, so only the contract is assumed. *)

Class Torch : Type := {
  Generator : Type;
  randperm : nat → Generator → list nat * Generator;
  randperm_perm : ∀ n g, (randperm n g).1 ≡ₚ seq 0 n;
  sort_descending : list nat → list nat * list nat;
  sort_indices_perm : ∀ l, (sort_descending l).2 ≡ₚ seq 0 (length l);
  sort_values_at : ∀ l, Forall2 (λ v i, l !! i = Some v) (sort_descending l).1 (sort_descending l).2;
  sort_values_desc : ∀ l i j x y, i ≤ j →
      (sort_descending l).1 !! i = Some x → (sort_descending l).1 !! j = Some y → y ≤ x
}.

(** ** CustomSampler *)

Module CustomSampler.

Record t : Type := {
  optimize : bool;
  shuffle : bool;
  batchsize : Z;
  optimized_idxs : list (list nat);
  idxs : list nat
}.

(** [sorted(pairs, key=lambda elem: elem[0])]: Python's sort is stable, so the
    result is the one of a stable insertion sort on the first component. *)
Fixpoint insert_by_key (p : Z * nat) (l : list (Z * nat)) : list (Z * nat) :=
  match l with
  | [] => [p]
  | q :: l' => if (p.1 <=? q.1)%Z then p :: q :: l' else q :: insert_by_key p l'
  end.

Definition sorted_by_key (l : list (Z * nat)) : list (Z * nat) :=
  foldr insert_by_key [] l.

(** The local variables of the bucketing loop of [__init__]. *)
Record locals : Type := {
  l_optimized_idxs : list (list nat);
  l_len_idxs : list nat;
  l_min_len : Z;
  l_max_len : Z
}.

(** One iteration of [for j, (length, idx) in enumerate(lengths_idxs_pairs)];
    [n] is [len(lengths_idxs_pairs)]. *)
Definition bucket_body (n : nat) (len_diff : Z) (st : locals) (j : nat) (p : Z * nat) : locals :=
  let '(length_, idx) := p in
  if (l_min_len st <=? length_)%Z && (length_ <? l_max_len st)%Z then
    let len_idxs := l_len_idxs st ++ [idx] in
    if (j + 1 =? n) && negb (bool_decide (len_idxs = [])) then
      {| l_optimized_idxs := l_optimized_idxs st ++ [len_idxs];
         l_len_idxs := len_idxs;
         l_min_len := l_min_len st;
         l_max_len := l_max_len st |}
    else
      {| l_optimized_idxs := l_optimized_idxs st;
         l_len_idxs := len_idxs;
         l_min_len := l_min_len st;
         l_max_len := l_max_len st |}
  else
    {| l_optimized_idxs := l_optimized_idxs st ++ [l_len_idxs st];
       l_len_idxs := [idx];
       l_min_len := length_;
       l_max_len := (length_ + len_diff)%Z |}.

Fixpoint bucket_loop (n : nat) (len_diff : Z) (j : nat) (ps : list (Z * nat)) (st : locals) : locals :=
  match ps with
  | [] => st
  | p :: ps' => bucket_loop n len_diff (S j) ps' (bucket_body n len_diff st j p)
  end.

(** [tuple(len(elem[1]) for elem in data_source.data)]: a record of the file
    list is (audio name, text), and a text is a string with one character of
    the model per character of the transcript. *)
Definition text_lengths (data : list (string * string)) : list Z :=
  map (λ elem, Z.of_nat (String.length elem.2)) data.

(** The [if self.optimize:] block of [__init__]: the buckets it stores. *)
Definition build_buckets (data : list (string * string)) (len_diff : Z) : res (list (list nat)) :=
  let idxs := seq 0 (length data) in
  let lengths_idxs_pairs := sorted_by_key (zip (text_lengths data) idxs) in
  first ← getitem lengths_idxs_pairs 0;
  let min_length := first.1 in
  let st := bucket_loop (length lengths_idxs_pairs) len_diff 0 lengths_idxs_pairs
              {| l_optimized_idxs := []; l_len_idxs := [];
                 l_min_len := min_length; l_max_len := (min_length + len_diff)%Z |} in
  OK (l_optimized_idxs st).

Section with_torch.
Context {torch : Torch}.

(** [_torch_shuffle(iterable)] *)
Definition _torch_shuffle {A} (iterable : list A) (g : Generator) : res (list A * Generator) :=
  let '(perm, g') := randperm (length iterable) g in
  l ← comprehension (getitem iterable) perm;
  OK (l, g').

(** [tuple(_torch_shuffle(elem) for elem in self.optimized_idxs)] *)
Fixpoint shuffle_each (buckets : list (list nat)) (g : Generator) : res (list (list nat) * Generator) :=
  match buckets with
  | [] => OK ([], g)
  | elem :: rest =>
      '(e', g1) ← _torch_shuffle elem g;
      '(rest', g2) ← shuffle_each rest g1;
      OK (e' :: rest', g2)
  end.

(** [len(idxs) // self.batchsize] *)
Definition floordiv (a b : Z) : res Z :=
  if (b =? 0)%Z then Raise ZeroDivisionError else OK (a / b)%Z.

(** [range(batches)] *)
Definition range (n : Z) : list nat := seq 0 (Z.to_nat n).

Definition reshuffle (self : t) (g : Generator) : res (t * Generator) :=
  '(idxs, g) ←
    (if optimize self then
       '(inner, g1) ← shuffle_each (optimized_idxs self) g;
       '(outer, g2) ← _torch_shuffle inner g1;
       let idxs := concat outer in
       batches ← floordiv (Z.of_nat (length idxs)) (batchsize self);
       let chunks := map (λ i : nat, py_slice idxs (Z.of_nat i * batchsize self)
                                                   ((Z.of_nat i + 1) * batchsize self))
                         (range batches) in
       '(chunks', g3) ← _torch_shuffle chunks g2;
       OK (concat chunks', g3)
     else
       _torch_shuffle (idxs self) g);
  OK ({| optimize := optimize self; shuffle := shuffle self; batchsize := batchsize self;
         optimized_idxs := optimized_idxs self; idxs := idxs |}, g).

Definition __init__ (data : list (string * string)) (batchsize : Z)
    (shuffle optimize : bool) (len_diff : Z) (g : Generator) : res (t * Generator) :=
  let idxs := seq 0 (length data) in
  optimized_idxs ← (if optimize then build_buckets data len_diff else OK []);
  let idxs := if optimize then concat optimized_idxs else idxs in
  let self := {| optimize := optimize; shuffle := shuffle; batchsize := batchsize;
                 optimized_idxs := optimized_idxs; idxs := idxs |} in
  if shuffle then reshuffle self g else OK (self, g).

(** [__iter__], consumed to its end: the indices it yields, then the state
    left for the next pass (a failing [reshuffle] raises after the last
    index was yielded). *)
Definition __iter__ (self : t) (g : Generator) : list nat * res (t * Generator) :=
  (idxs self, if shuffle self then reshuffle self g else OK (self, g)).

Definition __len__ (self : t) : nat := length (idxs self).

End with_torch.
End CustomSampler.

(** ** Arrays and the services outside this file *)

(** A numpy array or torch tensor: its shape and its cells. *)
Record ndarray (F : Type) : Type := {
  shape : list nat;
  item : list nat → F
}.
Arguments shape {F} _.
Arguments item {F} _ _.

(** The float operations the file applies to samples and cells. *)
Class Floats (F : Type) : Type := {
  fzero : F;
  fone : F;
  true_divide : F → F → F;
  float32 : F → F;
  nonzero : F → bool
}.

(** A stress / phonemes setting: a boolean or a probability. *)
Inductive flag (F : Type) : Type :=
  | FlagBool (b : bool)
  | FlagProb (p : F).
Arguments FlagBool {F} b.
Arguments FlagProb {F} p.

Definition truthy {F} {floats : Floats F} (x : flag F) : bool :=
  match x with
  | FlagBool b => b
  | FlagProb p => nonzero p
  end.

(** Collaborators: [os.path], [scipy.io.wavfile.read], [np.load],
    [librosa.effects.split], [TacotronSTFT.mel_spectrogram],
    [Handler.text_to_sequence] and [tps.utils.prob2bool] (which consumes a
    random [Draw]). *)
Class Services (F : Type) : Type := {
  path_join : string → string → string;
  path_splitext : string → string * string;
  wavfile_read : string → res (Z * list F);
  np_load : string → res (ndarray F);
  effects_split : list F → F → nat → nat → res (list (nat * nat));
  mel_spectrogram : ndarray F → res (ndarray F);
  text_to_sequence : string → list string → flag F → flag F → bool → bool → res (list Z);
  Draw : Type;
  prob2bool : flag F → Draw → bool
}.

Section arrays.
Context {F : Type} {floats : Floats F}.

(** [t.size(d)] / [t.shape[d]] *)
Definition size (t : ndarray F) (d : nat) : res nat := getitem (shape t) d.

(** [np.zeros(shape=(a, b))] *)
Definition zeros (a b : nat) : ndarray F :=
  {| shape := [a; b]; item := λ _, fzero |}.

(** A one-dimensional array holding [l]. *)
Definition of_list (l : list F) : ndarray F :=
  {| shape := [length l];
     item := λ idx, match idx with [i] => default fzero (l !! i) | _ => fzero end |}.

(** [t.unsqueeze(0)] *)
Definition unsqueeze0 (t : ndarray F) : ndarray F :=
  {| shape := 1 :: shape t; item := λ idx, item t (tail idx) |}.

(** [torch.squeeze(t, 0)] *)
Definition squeeze0 (t : ndarray F) : ndarray F :=
  match shape t with
  | 1 :: s => {| shape := s; item := λ idx, item t (0 :: idx) |}
  | _ => t
  end.

(** [torch.FloatTensor(a)]: the cells of [a], cast to float32. *)
Definition float_tensor (a : ndarray F) : ndarray F :=
  {| shape := shape a; item := λ idx, float32 (item a idx) |}.

(** [np.concatenate(parts)] on one-dimensional parts. *)
Definition np_concatenate (parts : list (list F)) : res (list F) :=
  match parts with
  | [] => Raise ValueError
  | _ => OK (concat parts)
  end.

End arrays.

(** One assembled example, the tuple [(sequence, mel, alignment, ctc_sequence)];
    [None] is an absent optional field. *)
Record example (F : Type) : Type := {
  sequence : list Z;
  mel : ndarray F;
  alignment : option (ndarray F);
  ctc_sequence : option (list Z)
}.
Arguments sequence {F} _.
Arguments mel {F} _.
Arguments alignment {F} _.
Arguments ctc_sequence {F} _.

(** What [print] writes in [get_data]: the audio name, the expected shape and
    the shape that was loaded. *)
Inductive diagnostic : Type :=
  | SomeProblemsWith (audio_name : string) (expected : nat * nat) (got : list nat).

(** ** TextMelLoader *)

Module TextMelLoader.

(** The attributes [__init__] sets from the hyper-parameters and the file
    list; [n_mel_channels] is [self.stft.n_mel_channels], [get_alignments]
    is [guided_attention_type == AttentionTypes.prealigned], [id_to_symbol]
    is [self.text_handler._id_to_symbol]. *)
Record t (F : Type) : Type := {
  data : list (string * string);
  audio_path : string;
  alignment_path : gmap string string;
  add_silence : bool;
  hop_length : nat;
  ft_window : nat;
  trim_silence : bool;
  trim_top_db : F;
  text_cleaners : list string;
  max_wav_value : F;
  sampling_rate : Z;
  load_mel_from_disk : bool;
  n_mel_channels : nat;
  get_alignments : bool;
  word_level_prob : bool;
  stress : flag F;
  phonemes : flag F;
  dict_prime : bool;
  id_to_symbol : gmap Z string;
  use_mmi : bool;
  ctc_symbol_to_id : option (gmap string Z)
}.
Arguments data {F} _.
Arguments audio_path {F} _.
Arguments alignment_path {F} _.
Arguments add_silence {F} _.
Arguments hop_length {F} _.
Arguments ft_window {F} _.
Arguments trim_silence {F} _.
Arguments trim_top_db {F} _.
Arguments text_cleaners {F} _.
Arguments max_wav_value {F} _.
Arguments sampling_rate {F} _.
Arguments load_mel_from_disk {F} _.
Arguments n_mel_channels {F} _.
Arguments get_alignments {F} _.
Arguments word_level_prob {F} _.
Arguments stress {F} _.
Arguments phonemes {F} _.
Arguments dict_prime {F} _.
Arguments id_to_symbol {F} _.
Arguments use_mmi {F} _.
Arguments ctc_symbol_to_id {F} _.

Section methods.
Context {F : Type} {floats : Floats F} {services : Services F}.

(** Both settings are booleans or numbers, so the [isinstance] test holds
    and [prob2bool] is applied whenever word-level mode is off; phonemes is
    resolved first. *)
Definition _get_sress_phonemes (self : t F) (w : Draw * Draw) : flag F * flag F :=
  if negb (word_level_prob self) then
    let phonemes := FlagBool (prob2bool (phonemes self) w.1) in
    let stress := FlagBool (prob2bool (stress self) w.2) in
    (stress, phonemes)
  else
    (stress self, phonemes self).

Definition get_text (self : t F) (text : string) (stress phonemes : flag F) : res (list Z) :=
  let stress_always := negb (get_alignments self) in
  text_to_sequence text (text_cleaners self) stress phonemes (dict_prime self) stress_always.

Definition get_audio (self : t F) (filename : string) (trim_silence add_silence : bool)
    : res (ndarray F) :=
  let filepath := path_join (audio_path self) filename in
  '(sample_rate, audio) ← wavfile_read filepath;
  let audio := map (λ x, float32 (true_divide x (max_wav_value self))) audio in
  if negb (sample_rate =? sampling_rate self)%Z then Raise ValueError
  else
    let audio_ := audio in
    audio_ ← (if trim_silence then
                idxs ← effects_split audio_ (trim_top_db self) (ft_window self) (hop_length self);
                np_concatenate (map (λ se : nat * nat, py_slice audio_ (Z.of_nat se.1) (Z.of_nat se.2)) idxs)
              else OK audio_);
    let audio_ := if add_silence then audio_ ++ replicate (5 * hop_length self) fzero else audio_ in
    let audio_ := map float32 audio_ in
    OK (unsqueeze0 (of_list audio_)).

Definition get_mel_from_audio (audio : ndarray F) : res (ndarray F) :=
  melspec ← mel_spectrogram audio;
  OK (squeeze0 melspec).

Definition get_mel (self : t F) (filename : string) : res (ndarray F) :=
  if negb (load_mel_from_disk self) then
    audio ← get_audio self filename (trim_silence self) (add_silence self);
    melspec ← mel_spectrogram audio;
    OK (squeeze0 melspec)
  else
    let filepath := path_join (audio_path self) filename in
    melspec ← np_load filepath;
    n ← size melspec 0;
    if negb (n =? n_mel_channels self) then Raise AssertionError
    else OK melspec.

Definition get_alignment (self : t F) (audio_name : string) (stress phonemes : flag F)
    : res (option (ndarray F)) :=
  let audio_name := (path_splitext audio_name).1 in
  let alignment_name := (audio_name +:+ ".npy")%string in
  if truthy phonemes then OK None
  else
    let sub_dir := if negb (truthy stress) then "original"%string else "stressed"%string in
    match alignment_path self !! sub_dir with
    | None => Raise KeyError
    | Some dir =>
        let filepath := path_join dir alignment_name in
        a ← np_load filepath; OK (Some a)
    end.

Definition get_ctc_text (self : t F) (sequence : list Z) : res (list Z) :=
  text ← comprehension (λ s, match id_to_symbol self !! s with
                               | Some c => OK c
                               | None => Raise KeyError
                               end) sequence;
  match ctc_symbol_to_id self, text with
  | Some tbl, _ => OK (omap (λ s, tbl !! s) text)
  | None, [] => OK []
  | None, _ :: _ => Raise TypeError
  end.

(** The [if self.get_alignments:] block of [get_data]: what it prints and the
    alignment it leaves, which [torch.FloatTensor(alignment)] casts to
    float32.  With an absent alignment the test short-circuits to true and
    the arguments of the message are evaluated: [mel.size(1)], then
    [alignment.shape] on [None]. *)
Definition alignment_block (self : t F) (audio_name : string) (stress phonemes : flag F)
    (sequence : list Z) (mel : ndarray F) : list diagnostic * res (option (ndarray F)) :=
  if get_alignments self then
    if negb (negb (word_level_prob self) && negb (add_silence self)) then ([], Raise AssertionError)
    else
      match get_alignment self audio_name stress phonemes with
      | Raise e => ([], Raise e)
      | OK None =>
          ([], _ ← size mel 1; Raise AttributeError)
      | OK (Some alignment) =>
          match size mel 1 with
          | Raise e => ([], Raise e)
          | OK mel_time =>
              if bool_decide ([mel_time; length sequence] ≠ shape alignment) then
                ([SomeProblemsWith audio_name (mel_time, length sequence) (shape alignment)],
                 OK (Some (float_tensor (zeros mel_time (length sequence)))))
              else ([], OK (Some (float_tensor alignment)))
          end
      end
  else ([], OK None).

Definition get_data (self : t F) (w : Draw * Draw) (sample : string * string)
    : list diagnostic * res (example F) :=
  let '(stress, phonemes) := _get_sress_phonemes self w in
  let '(audio_name, text) := sample in
  match get_text self text stress phonemes with
  | Raise e => ([], Raise e)
  | OK sequence =>
      match get_mel self audio_name with
      | Raise e => ([], Raise e)
      | OK mel =>
          let '(out, alignment) := alignment_block self audio_name stress phonemes sequence mel in
          (out,
           alignment ← alignment;
           ctc_sequence ← (if use_mmi self then Some <$> get_ctc_text self sequence else OK None);
           OK {| sequence := sequence; mel := mel; alignment := alignment;
                 ctc_sequence := ctc_sequence |})
      end
  end.

Definition __getitem__ (self : t F) (w : Draw * Draw) (index : nat)
    : list diagnostic * res (example F) :=
  match data self !! index with
  | Some sample => get_data self w sample
  | None => ([], Raise IndexError)
  end.

End methods.
End TextMelLoader.

(** ** TextMelCollate *)

Module TextMelCollate.

(** [Inputs] and [InputsCTC] of [utils.utils]: the named fields the batch is
    returned in ([InputsCTC(text=.., length=..)] has its fields prefixed
    here).  Padded tensors are nested lists, outermost index first. *)
Record Inputs (F : Type) : Type := {
  text : list (list Z);
  mels : list (list (list F));
  gate : list (list F);
  text_len : list nat;
  mel_len : list nat
}.
Arguments text {F} _.
Arguments mels {F} _.
Arguments gate {F} _.
Arguments text_len {F} _.
Arguments mel_len {F} _.

Record InputsCTC : Type := {
  ctc_text : option (list (list Z));
  ctc_length : option (list nat)
}.

(** The tensors [__call__] allocates and fills. *)
Record buffers (F : Type) : Type := {
  text_padded : list (list Z);
  mel_padded : list (list (list F));
  gate_padded : list (list F);
  alignments_padded : option (list (list (list F)));
  ctc_text_padded : option (list (list Z));
  ctc_text_lengths : option (list nat);
  output_lengths : list nat
}.
Arguments text_padded {F} _.
Arguments mel_padded {F} _.
Arguments gate_padded {F} _.
Arguments alignments_padded {F} _.
Arguments ctc_text_padded {F} _.
Arguments ctc_text_lengths {F} _.
Arguments output_lengths {F} _.

(** [max(l)] *)
Definition py_max (l : list nat) : res nat :=
  match l with
  | [] => Raise ValueError
  | x :: l' => OK (foldl Nat.max x l')
  end.

(** [l[i] = x] *)
Definition setitem {A} (l : list A) (i : nat) (x : A) : res (list A) :=
  if i <? length l then OK (<[i:=x]> l) else Raise IndexError.

(** [row[:k] = v] for a one-dimensional [v]: the slot is clamped to the row,
    and [v] must have the slot's length or be a single cell that is repeated. *)
Definition set_prefix {A} (row : list A) (k : nat) (v : list A) : res (list A) :=
  let slot := k `min` length row in
  if length v =? slot then OK (v ++ drop slot row)
  else match v with
       | [x] => OK (replicate slot x ++ drop slot row)
       | _ => Raise RuntimeError
       end.

Fixpoint strip_ones (s : list nat) : list nat :=
  match s with
  | 1 :: s' => strip_ones s'
  | _ => s
  end.

Section call.
Context {F : Type} {floats : Floats F} {torch : Torch}.

(** The value side of a slice assignment [dst[...] = v]: torch drops the
    leading dimensions of size one of [v] and expands the rest to the shape
    of the slot, aligned on the right; the result reads [v] at a slot index. *)
Definition expand_setitem (v : ndarray F) (dshape : list nat) : res (list nat → F) :=
  let vs := strip_ones (shape v) in
  let k := length (shape v) - length vs in
  let off := length dshape - length vs in
  if (length vs <=? length dshape)
     && forallb (λ ab : nat * nat, (ab.1 =? ab.2) || (ab.1 =? 1)) (zip vs (drop off dshape))
  then OK (λ idx, item v (replicate k 0 ++
                          zip_with (λ a i : nat, if a =? 1 then 0 else i) vs (drop off idx)))
  else Raise RuntimeError.

(** [block[:rows, :cols] = v] on a two-dimensional [block] whose rows have
    [width] cells; [block] is a slice of a [torch.FloatTensor], so the cells
    of [v] are cast to float32 as they are written. *)
Definition set_block (block : list (list F)) (width rows cols : nat) (v : ndarray F)
    : res (list (list F)) :=
  let slot_r := rows `min` length block in
  let slot_c := cols `min` width in
  f ← expand_setitem v [slot_r; slot_c];
  OK (imap (λ r row, if r <? slot_r
                     then map (λ c, float32 (f [r; c])) (seq 0 slot_c) ++ drop slot_c row
                     else row) block).

(** [row[start:] = 1] *)
Definition set_from (row : list F) (start : Z) : list F :=
  let s := slice_bound (length row) start in
  take s row ++ replicate (length row - s) fone.

(** The body of [for i, idx in enumerate(ids_sorted_decreasing)]. *)
Definition collate_body (batch : list (example F)) (get_alignment get_ctc_text : bool)
    (max_input_len max_target_len : nat) (b : buffers F) (i idx : nat) : res (buffers F) :=
  elem ← getitem batch idx;
  let in_len := length (sequence elem) in
  target_len ← size (mel elem) 1;
  output_lengths' ← setitem (output_lengths b) i target_len;
  (* text_padded[i, :in_len] = text *)
  trow ← getitem (text_padded b) i;
  trow' ← set_prefix trow in_len (sequence elem);
  (* mel_padded[i, :, :target_len] = mel *)
  mblock ← getitem (mel_padded b) i;
  mblock' ← set_block mblock max_target_len (length mblock) target_len (mel elem);
  (* gate_padded[i, target_len - 1:] = 1 *)
  grow ← getitem (gate_padded b) i;
  let grow' := set_from grow (Z.of_nat target_len - 1) in
  (* alignments_padded[i, :target_len, :in_len] = alignment *)
  alignments_padded' ←
    (if get_alignment then
       match alignments_padded b, alignment elem with
       | Some ap, Some a =>
           ablock ← getitem ap i;
           ablock' ← set_block ablock max_input_len target_len in_len a;
           OK (Some (<[i:=ablock']> ap))
       | _, _ => Raise TypeError
       end
     else OK (alignments_padded b));
  ctc' ←
    (if get_ctc_text then
       match ctc_sequence elem, ctc_text_lengths b, ctc_text_padded b with
       | None, _, _ => Raise AttributeError
       | Some ctc_text, Some cl, Some cp =>
           let ctc_txt_len := length ctc_text in
           cl' ← setitem cl i ctc_txt_len;
           crow ← getitem cp i;
           crow' ← set_prefix crow ctc_txt_len ctc_text;
           OK (Some (<[i:=crow']> cp), Some cl')
       | Some _, _, _ => Raise TypeError
       end
     else OK (ctc_text_padded b, ctc_text_lengths b));
  OK {| text_padded := <[i:=trow']> (text_padded b);
        mel_padded := <[i:=mblock']> (mel_padded b);
        gate_padded := <[i:=grow']> (gate_padded b);
        alignments_padded := alignments_padded';
        ctc_text_padded := ctc'.1;
        ctc_text_lengths := ctc'.2;
        output_lengths := output_lengths' |}.

Fixpoint collate_loop (batch : list (example F)) (get_alignment get_ctc_text : bool)
    (max_input_len max_target_len : nat) (i : nat) (ids : list nat) (b : buffers F)
    : res (buffers F) :=
  match ids with
  | [] => OK b
  | idx :: ids' =>
      b' ← collate_body batch get_alignment get_ctc_text max_input_len max_target_len b i idx;
      collate_loop batch get_alignment get_ctc_text max_input_len max_target_len (S i) ids' b'
  end.

(** [len(x[3])] for an auxiliary sequence that is present. *)
Definition len_ctc (x : example F) : res nat :=
  match ctc_sequence x with
  | Some c => OK (length c)
  | None => Raise TypeError
  end.

(** The storage of [torch.LongTensor(batchsize)] is uninitialised; it is
    modelled as zeros, and the loop overwrites every cell. *)
Definition __call__ (batch : list (example F))
    : res (Inputs F * option (list (list (list F))) * option InputsCTC) :=
  let get_alignment := negb (existsb (λ elem, bool_decide (alignment elem = None)) batch) in
  let get_ctc_text := negb (existsb (λ elem, bool_decide (ctc_sequence elem = None)) batch) in
  let batchsize := length batch in
  let '(input_lengths, ids_sorted_decreasing) :=
    sort_descending ((λ x, length (sequence x)) <$> batch) in
  max_input_len ← getitem input_lengths 0;
  target_lens ← comprehension (λ x, size (mel x) 1) batch;
  max_target_len ← py_max target_lens;
  first ← getitem batch 0;
  num_mels ← size (mel first) 0;
  let text_padded0 := replicate batchsize (replicate max_input_len 0%Z) in
  let mel_padded0 := replicate batchsize (replicate num_mels (replicate max_target_len fzero)) in
  let gate_padded0 := replicate batchsize (replicate max_target_len fzero) in
  let alignments_padded0 :=
    if get_alignment
    then Some (replicate batchsize (replicate max_target_len (replicate max_input_len fzero)))
    else None in
  ctc0 ← (if get_ctc_text then
            ctc_lens ← comprehension len_ctc batch;
            max_ctc_text_len ← py_max ctc_lens;
            OK (Some (replicate batchsize (replicate max_ctc_text_len 0%Z)),
                Some (replicate batchsize 0))
          else OK (None, None));
  let output_lengths0 := replicate batchsize 0 in
  b ← collate_loop batch get_alignment get_ctc_text max_input_len max_target_len
        0 ids_sorted_decreasing
        {| text_padded := text_padded0; mel_padded := mel_padded0;
           gate_padded := gate_padded0; alignments_padded := alignments_padded0;
           ctc_text_padded := ctc0.1; ctc_text_lengths := ctc0.2;
           output_lengths := output_lengths0 |};
  let inputs := {| text := text_padded b; mels := mel_padded b; gate := gate_padded b;
                   text_len := input_lengths; mel_len := output_lengths b |} in
  let inputs_ctc :=
    if get_ctc_text
    then Some {| ctc_text := ctc_text_padded b; ctc_length := ctc_text_lengths b |}
    else None in
  OK (inputs, alignments_padded b, inputs_ctc).

End call.
End TextMelCollate.

(** ** Reference collaborators

    One concrete [Torch] and one concrete [Floats], used to run the model on
    concrete inputs: a generator whose permutations reverse the order, a
    stable descending sort, and integer cells. *)

Fixpoint insert_desc (p : nat * nat) (l : list (nat * nat)) : list (nat * nat) :=
  match l with
  | [] => [p]
  | q :: l' => if q.1 <=? p.1 then p :: q :: l' else q :: insert_desc p l'
  end.

Definition stable_sort_desc (l : list nat) : list nat * list nat :=
  let s := foldr insert_desc [] (zip l (seq 0 (length l))) in
  (s.*1, s.*2).

Definition desc (a b : nat * nat) : Prop := b.1 ≤ a.1.

Lemma insert_desc_perm p l : insert_desc p l ≡ₚ p :: l.
Proof.
  induction l as [|q l IH]; simpl; [done|].
  destruct (q.1 <=? p.1); [done|].
  rewrite IH. apply Permutation_swap.
Qed.

Lemma sort_desc_perm l : foldr insert_desc [] l ≡ₚ l.
Proof.
  induction l as [|p l IH]; simpl; [done|].
  by rewrite insert_desc_perm, IH.
Qed.

Lemma insert_desc_sorted p l :
  StronglySorted desc l → StronglySorted desc (insert_desc p l).
Proof.
  induction 1 as [|q l Hs IH Hq]; simpl.
  - repeat constructor.
  - destruct (Nat.leb_spec q.1 p.1) as [Hle|Hlt].
    + constructor; [by constructor|].
      constructor; [exact Hle|].
      eapply Forall_impl; [exact Hq|]. unfold desc. intros; lia.
    + constructor; [exact IH|].
      rewrite insert_desc_perm. constructor; [unfold desc; lia | exact Hq].
Qed.

Lemma sort_desc_sorted l : StronglySorted desc (foldr insert_desc [] l).
Proof.
  induction l as [|p l IH]; simpl; [constructor|].
  by apply insert_desc_sorted.
Qed.

Lemma StronglySorted_desc_lookup (l : list (nat * nat)) i j p q :
  StronglySorted desc l → i ≤ j → l !! i = Some p → l !! j = Some q → q.1 ≤ p.1.
Proof.
  intros Hs. revert i j.
  induction Hs as [|a l Hs IH Ha]; intros i j Hij Hi Hj; [done|].
  destruct i as [|i], j as [|j]; simpl in *; simplify_eq; try lia.
  - rewrite Forall_forall in Ha. apply (Ha q). by eapply list_elem_of_lookup_2.
  - eapply IH; [|done..]. lia.
Qed.

Lemma zip_seq_lookup {A} (l : list A) v i :
  (v, i) ∈ zip l (seq 0 (length l)) → l !! i = Some v.
Proof.
  intros [k Hk]%list_elem_of_lookup_1.
  apply lookup_zip_with_Some in Hk as (x & y & ? & Hx & Hy); simplify_eq.
  apply lookup_seq in Hy as [-> _]. done.
Qed.

Definition reference_torch : Torch.
Proof.
  refine {| Generator := nat;
            randperm := λ n g, (reverse (seq 0 n), S g);
            sort_descending := stable_sort_desc |}.
  - intros n g. simpl. apply reverse_Permutation.
  - intros l. unfold stable_sort_desc. simpl.
    rewrite sort_desc_perm. by rewrite snd_zip by (rewrite length_seq; lia).
  - intros l. unfold stable_sort_desc. simpl.
    apply Forall2_fmap, Forall2_same_length_lookup_2; [done|].
    intros i [v k] [v' k'] Hi Hi'. simplify_eq. simpl.
    apply zip_seq_lookup. rewrite <-sort_desc_perm. by eapply list_elem_of_lookup_2.
  - intros l i j x y Hij. unfold stable_sort_desc. simpl.
    rewrite !list_lookup_fmap.
    intros Hx Hy.
    destruct (foldr insert_desc [] (zip l (seq 0 (length l))) !! i) as [p|] eqn:Hp; [|done].
    destruct (foldr insert_desc [] (zip l (seq 0 (length l))) !! j) as [q|] eqn:Hq; [|done].
    simpl in *. simplify_eq.
    eapply StronglySorted_desc_lookup; [apply sort_desc_sorted|exact Hij|done..].
Defined.

Definition integer_cells : Floats Z :=
  {| fzero := 0%Z; fone := 1%Z; true_divide := Z.div; float32 := λ x, x;
     nonzero := λ x, negb (x =? 0)%Z |}.

(** * Properties *)

(** ** Generic facts on [res], [getitem], [comprehension] and slices *)

Lemma getitem_Some {A} (l : list A) i x : l !! i = Some x → getitem l i = OK x.
Proof. unfold getitem. by intros ->. Qed.

Lemma getitem_OK {A} (l : list A) i x : getitem l i = OK x → l !! i = Some x.
Proof. unfold getitem. by destruct (l !! i); intros; simplify_eq. Qed.

Lemma comprehension_fmap {A B C} (f : B → res C) (h : A → B) l :
  comprehension f (h <$> l) = comprehension (f ∘ h) l.
Proof.
  induction l as [|x l IH]; [done|].
  rewrite fmap_cons. cbn [comprehension]. by rewrite IH.
Qed.

Lemma comprehension_ext {A B} (f h : A → res B) l :
  (∀ x, x ∈ l → f x = h x) → comprehension f l = comprehension h l.
Proof.
  induction l as [|x l IH]; intros Hfg; simpl; [done|].
  rewrite Hfg by left. rewrite IH; [done|]. intros y Hy. apply Hfg. by right.
Qed.

Lemma comprehension_OK_pure {A B} (f : A → B) l :
  comprehension (λ x, OK (f x)) l = OK (f <$> l).
Proof.
  induction l as [|x l IH]; [done|].
  rewrite fmap_cons. cbn [comprehension]. by rewrite IH.
Qed.

Lemma comprehension_getitem_seq {A} (l : list A) :
  comprehension (getitem l) (seq 0 (length l)) = OK l.
Proof.
  induction l as [|x l IH]; simpl; [done|].
  rewrite <-fmap_S_seq, comprehension_fmap.
  rewrite (comprehension_ext _ (getitem l)) by done.
  by rewrite IH.
Qed.

Lemma comprehension_perm {A B} (f : A → res B) l1 l2 r1 :
  l1 ≡ₚ l2 → comprehension f l1 = OK r1 →
  ∃ r2, comprehension f l2 = OK r2 ∧ r1 ≡ₚ r2.
Proof.
  intros Hp. revert r1.
  induction Hp as [|x l1 l2 Hp IH|x y l|l1 l2 l3 Hp1 IH1 Hp2 IH2]; intros r1 Hr; simpl in *.
  - simplify_eq. by exists [].
  - destruct (f x) as [b|]; simpl in *; [|done].
    destruct (comprehension f l1) as [r|] eqn:Hc; simpl in *; [|done].
    simplify_eq. destruct (IH _ eq_refl) as (r2 & -> & Hr2). simpl.
    exists (b :: r2). split; [done|]. by constructor.
  - destruct (f y) as [b|]; simpl in *; [|done].
    destruct (f x) as [a|]; simpl in *; [|done].
    destruct (comprehension f l) as [r|]; simpl in *; [|done].
    simplify_eq. exists (a :: b :: r). split; [done|]. apply Permutation_swap.
  - destruct (IH1 _ Hr) as (r2 & Hr2 & ?).
    destruct (IH2 _ Hr2) as (r3 & Hr3 & ?).
    exists r3. split; [done|]. by etrans.
Qed.

Lemma concat_Forall2_perm {A} (ls ks : list (list A)) :
  Forall2 (≡ₚ) ls ks → concat ls ≡ₚ concat ks.
Proof. induction 1 as [|l k ls ks Hlk _ IH]; simpl; [done|]. by rewrite Hlk, IH. Qed.

Lemma concat_perm {A} (ls ks : list (list A)) : ls ≡ₚ ks → concat ls ≡ₚ concat ks.
Proof.
  induction 1 as [|x l1 l2 _ IH|x y l|l1 l2 l3 _ IH1 _ IH2]; simpl.
  - done.
  - by rewrite IH.
  - rewrite !(assoc (++)). by rewrite (comm (++) y x).
  - by etrans.
Qed.

Lemma elem_of_concat {A} (x : A) (ls : list (list A)) :
  x ∈ concat ls ↔ ∃ l, l ∈ ls ∧ x ∈ l.
Proof.
  induction ls as [|k ls IH]; simpl.
  - split; [by intros ?%elem_of_nil|]. by intros (l & ?%elem_of_nil & _).
  - rewrite elem_of_app, IH. split.
    + intros [Hx | (l & Hl & Hx)]; [exists k | exists l]; split; (done || by constructor).
    + intros (l & [-> | Hl]%elem_of_cons & Hx); [by left|right; eauto].
Qed.

(** ** CustomSampler: the buckets *)

Section buckets.
Import CustomSampler.

Lemma insert_by_key_perm p l : insert_by_key p l ≡ₚ p :: l.
Proof.
  induction l as [|q l IH]; simpl; [done|].
  destruct (p.1 <=? q.1)%Z; [done|].
  rewrite IH. apply Permutation_swap.
Qed.

Lemma sorted_by_key_perm l : sorted_by_key l ≡ₚ l.
Proof.
  induction l as [|p l IH]; simpl; [done|].
  by rewrite insert_by_key_perm, IH.
Qed.

Variable lens : nat → Z.
Variable len_diff : Z.

(** All members of [b] have their length in the window that starts at [m]. *)
Definition in_window (m : Z) (b : list nat) : Prop :=
  ∀ i, i ∈ b → (m ≤ lens i < m + len_diff)%Z.

Definition bucket_ok (b : list nat) : Prop :=
  length b ≤ 1 ∨ ∃ m, in_window m b.

(** The invariant of the bucketing loop. *)
Definition locals_ok (st : locals) : Prop :=
  Forall bucket_ok (l_optimized_idxs st)
  ∧ l_max_len st = (l_min_len st + len_diff)%Z
  ∧ (l_len_idxs st = []
     ∨ (∃ i, l_len_idxs st = [i] ∧ lens i = l_min_len st)
     ∨ in_window (l_min_len st) (l_len_idxs st)).

Lemma bucket_body_ok n st j length_ idx :
  locals_ok st → lens idx = length_ →
  locals_ok (bucket_body n len_diff st j (length_, idx)).
Proof.
  intros (Hopt & Hmax & Hcur) Hidx. unfold bucket_body.
  destruct ((l_min_len st <=? length_)%Z && (length_ <? l_max_len st)%Z) eqn:Hw.
  - apply andb_true_iff in Hw as [Hlo%Z.leb_le Hhi%Z.ltb_lt].
    assert (in_window (l_min_len st) (l_len_idxs st ++ [idx])) as Hin.
    { intros i [Hi | ->%list_elem_of_singleton]%elem_of_app; [|lia].
      destruct Hcur as [Hnil | [(i0 & Hone & Hi0) | Hold]].
      - rewrite Hnil in Hi. by apply elem_of_nil in Hi.
      - rewrite Hone in Hi. apply list_elem_of_singleton in Hi as ->. lia.
      - by apply Hold. }
    destruct ((j + 1 =? n) && _); (split; [|split]); simpl; try done; try by auto.
    apply Forall_app. split; [done|]. constructor; [|done]. right. eauto.
  - split; [|split]; simpl; [|done|right; left; eauto].
    apply Forall_app. split; [done|]. constructor; [|done].
    destruct Hcur as [-> | [(i0 & -> & _) | Hold]]; [left; simpl; lia..|right; eauto].
Qed.

Lemma bucket_loop_ok n ps j st :
  locals_ok st → (∀ p, p ∈ ps → lens p.2 = p.1) →
  locals_ok (bucket_loop n len_diff j ps st).
Proof.
  revert j st. induction ps as [|[length_ idx] ps IH]; intros j st Hst Hps; simpl; [done|].
  apply IH.
  - apply bucket_body_ok; [done|]. apply (Hps (length_, idx)). by left.
  - intros p Hp. apply Hps. by right.
Qed.

Lemma bucket_ok_span b :
  bucket_ok b → length b = 1 ∨ ∀ i j, i ∈ b → j ∈ b → (lens i - lens j < len_diff)%Z.
Proof.
  intros [Hle | [m Hm]].
  - destruct b as [|x [|y b]]; simpl in *; [|by left|lia].
    right. intros i j Hi. by apply elem_of_nil in Hi.
  - right. intros i j Hi Hj. apply Hm in Hi, Hj. lia.
Qed.

End buckets.

(** ** CustomSampler: construction and reshuffle *)

(** The length of the transcript of record [i] (0 past the end of the file list). *)
Definition text_length (data : list (string * string)) (i : nat) : Z :=
  default 0%Z (CustomSampler.text_lengths data !! i).

(** [self] after the assignment [self.idxs = idxs]. *)
Definition set_idxs (self : CustomSampler.t) (idxs : list nat) : CustomSampler.t :=
  {| CustomSampler.optimize := CustomSampler.optimize self;
     CustomSampler.shuffle := CustomSampler.shuffle self;
     CustomSampler.batchsize := CustomSampler.batchsize self;
     CustomSampler.optimized_idxs := CustomSampler.optimized_idxs self;
     CustomSampler.idxs := idxs |}.

Section sampler.
Import CustomSampler.
Context {torch : Torch}.

Lemma bucket_loop_members n len_diff ps j st i :
  i ∈ concat (l_optimized_idxs (bucket_loop n len_diff j ps st)) →
  i ∈ concat (l_optimized_idxs st) ∨ i ∈ l_len_idxs st ∨ i ∈ ps.*2.
Proof.
  revert j st. induction ps as [|[length_ idx] ps IH]; intros j st Hi; simpl in *; [by left|].
  apply IH in Hi. rewrite !elem_of_cons. unfold bucket_body in Hi.
  destruct (_ && _) in Hi; [destruct (_ && _) in Hi|]; simpl in Hi;
    rewrite ?concat_app, ?elem_of_app in Hi; simpl in Hi;
    rewrite ?app_nil_r, ?elem_of_app, ?list_elem_of_singleton in Hi; intuition auto.
Qed.

Lemma build_buckets_ok data len_diff :
  data ≠ [] →
  ∃ buckets, build_buckets data len_diff = OK buckets ∧
    ∀ b, b ∈ buckets →
      (∀ i, i ∈ b → i < length data) ∧
      (length b = 1 ∨
       ∀ i j, i ∈ b → j ∈ b → (text_length data i - text_length data j < len_diff)%Z).
Proof.
  intros Hdata. unfold build_buckets.
  set (pairs := sorted_by_key (zip (text_lengths data) (seq 0 (length data)))).
  assert (Hlen : length pairs = length data).
  { unfold pairs. rewrite sorted_by_key_perm, length_zip, length_seq.
    unfold text_lengths. rewrite length_map. lia. }
  destruct pairs as [|first pairs'] eqn:Hpairs.
  { destruct data; [done|]. discriminate Hlen. }
  eexists. split; [reflexivity|]. cbn beta. rewrite <-Hpairs.
  assert (Hin : ∀ p, p ∈ pairs → text_lengths data !! p.2 = Some p.1).
  { intros [l i] Hp. unfold pairs in Hp. rewrite sorted_by_key_perm in Hp.
    unfold text_lengths in *. rewrite <-(length_map (λ elem, Z.of_nat (String.length elem.2))) in Hp.
    by apply zip_seq_lookup in Hp. }
  intros b Hb. split.
  - intros i Hi.
    assert (i ∈ concat (l_optimized_idxs
              (bucket_loop (length pairs) len_diff 0 pairs
                 {| l_optimized_idxs := []; l_len_idxs := []; l_min_len := first.1;
                    l_max_len := (first.1 + len_diff)%Z |}))) as Hc.
    { apply elem_of_concat. eauto. }
    apply bucket_loop_members in Hc as [Hc | [Hc | Hc]]; simpl in Hc;
      [by apply elem_of_nil in Hc..|].
    apply list_elem_of_fmap in Hc as ([l i'] & -> & Hp). apply Hin in Hp. simpl in *.
    apply lookup_lt_Some in Hp. unfold text_lengths in Hp. by rewrite length_map in Hp.
  - apply bucket_ok_span.
    assert (locals_ok (text_length data) len_diff
              (bucket_loop (length pairs) len_diff 0 pairs
                 {| l_optimized_idxs := []; l_len_idxs := []; l_min_len := first.1;
                    l_max_len := (first.1 + len_diff)%Z |})) as (Hok & _).
    { apply bucket_loop_ok.
      - split; [|split]; simpl; [constructor|done|by left].
      - intros p Hp. unfold text_length. by rewrite (Hin p Hp). }
    rewrite Forall_forall in Hok. by apply Hok.
Qed.

(** What the buckets do cover: flattened, they are the indices in sorted
    order, except that the last sorted index is missing when it opened a new
    window on the last iteration. *)
Lemma bucket_loop_cover n len_diff ps : ∀ j st covered,
  j + length ps = n → ps ≠ [] →
  concat (l_optimized_idxs st) ++ l_len_idxs st = covered →
  let st' := bucket_loop n len_diff j ps st in
  concat (l_optimized_idxs st') = covered ++ ps.*2
  ∨ ∃ last, concat (l_optimized_idxs st') ++ [last] = covered ++ ps.*2.
Proof.
  induction ps as [|[length_ idx] ps IH]; intros j st covered Hj Hne Hcov; [done|].
  destruct ps as [|p ps].
  - simpl in Hj. cbn [bucket_loop]. unfold bucket_body.
    assert (negb (bool_decide (l_len_idxs st ++ [idx] = [])) = true) as Hnn.
    { rewrite bool_decide_false; [done|]. by destruct (l_len_idxs st). }
    replace (j + 1 =? n) with true by (symmetry; apply Nat.eqb_eq; lia).
    rewrite Hnn. cbn [andb].
    destruct (_ && _); cbn [l_optimized_idxs fmap list_fmap snd].
    + left. rewrite concat_app. simpl. by rewrite app_nil_r, (assoc (++)), Hcov.
    + right. exists idx. rewrite concat_app. simpl. by rewrite app_nil_r, Hcov.
  - change (((length_, idx) :: p :: ps).*2) with (idx :: (p :: ps).*2).
    replace (covered ++ idx :: (p :: ps).*2) with ((covered ++ [idx]) ++ (p :: ps).*2)
      by (by rewrite <-(assoc (++))).
    cbn [bucket_loop].
    apply (IH (S j) _ (covered ++ [idx])); [simpl in *; lia|done|].
    unfold bucket_body.
    replace (j + 1 =? n) with false by (symmetry; apply Nat.eqb_neq; simpl in Hj; lia).
    destruct (_ && _); simpl.
    + by rewrite (assoc (++)), Hcov.
    + rewrite concat_app. simpl. by rewrite app_nil_r, Hcov.
Qed.

Lemma build_buckets_cover data len_diff :
  data ≠ [] →
  ∃ buckets order,
    build_buckets data len_diff = OK buckets
    ∧ order ≡ₚ seq 0 (length data)
    ∧ (concat buckets = order ∨ ∃ last, concat buckets ++ [last] = order).
Proof.
  intros Hdata. unfold build_buckets.
  set (pairs := sorted_by_key (zip (text_lengths data) (seq 0 (length data)))).
  assert (Hperm : pairs.*2 ≡ₚ seq 0 (length data)).
  { unfold pairs. rewrite sorted_by_key_perm.
    rewrite snd_zip; [done|]. unfold text_lengths. rewrite length_map, length_seq. lia. }
  destruct pairs as [|first pairs'] eqn:Hpairs.
  { apply Permutation_length in Hperm. rewrite length_seq in Hperm.
    destruct data; [done|discriminate Hperm]. }
  eexists _, (pairs.*2). split; [reflexivity|]. split; [by rewrite Hpairs|].
  cbn beta. rewrite <-Hpairs.
  apply (bucket_loop_cover (length pairs) len_diff pairs 0 _ []); [done|by rewrite Hpairs|done].
Qed.

Lemma torch_shuffle_ok {A} (l : list A) g :
  ∃ l' g', _torch_shuffle l g = OK (l', g') ∧ l' ≡ₚ l.
Proof.
  unfold _torch_shuffle.
  pose proof (randperm_perm (length l) g) as Hp.
  destruct (randperm (length l) g) as [perm g']. simpl in Hp.
  destruct (comprehension_perm (getitem l) _ _ l (symmetry Hp) (comprehension_getitem_seq l))
    as (l' & -> & Hl').
  simpl. by exists l', g'.
Qed.

Lemma shuffle_each_ok buckets g :
  ∃ buckets' g', shuffle_each buckets g = OK (buckets', g') ∧ Forall2 (≡ₚ) buckets' buckets.
Proof.
  revert g. induction buckets as [|b bs IH]; intros g; simpl.
  - exists [], g. by split.
  - destruct (torch_shuffle_ok b g) as (b' & g1 & -> & Hb). simpl.
    destruct (IH g1) as (bs' & g2 & -> & Hbs). simpl.
    exists (b' :: bs'), g2. split; [done|]. by constructor.
Qed.

Lemma py_slice_chunk {A} (l : list A) (i b : nat) :
  0 < b → (i + 1) * b ≤ length l →
  py_slice l (Z.of_nat i * Z.of_nat b) ((Z.of_nat i + 1) * Z.of_nat b) = take b (drop (i * b) l).
Proof.
  intros Hb Hle. unfold py_slice, slice_bound.
  destruct (Z.ltb_spec (Z.of_nat i * Z.of_nat b) 0); [lia|].
  destruct (Z.ltb_spec ((Z.of_nat i + 1) * Z.of_nat b) 0); [lia|].
  f_equal; [|f_equal]; lia.
Qed.

Lemma chunks_concat {A} (l : list A) (b k : nat) :
  concat (map (λ i, take b (drop (i * b) l)) (seq 0 k)) = take (k * b) l.
Proof.
  induction k as [|k IH]; [done|].
  rewrite seq_S, map_app, concat_app, IH. simpl. rewrite app_nil_r.
  rewrite take_take_drop. f_equal. lia.
Qed.

End sampler.

Section sampler_claims.
Import CustomSampler.
Context {torch : Torch}.

Lemma reshuffle_plain self g :
  optimize self = false →
  ∃ idxs' g', reshuffle self g = OK (set_idxs self idxs', g') ∧ idxs' ≡ₚ idxs self.
Proof.
  intros Hopt. unfold reshuffle. rewrite Hopt.
  destruct (torch_shuffle_ok (idxs self) g) as (idxs' & g' & -> & Hp).
  exists idxs', g'. split; [by unfold set_idxs; rewrite Hopt|done].
Qed.

(** With bucketing, the new order is a permutation of the chunks cut from
    [flat], the buckets shuffled inside, shuffled among them and flattened. *)
Lemma reshuffle_bucketed self g :
  optimize self = true → batchsize self ≠ 0%Z →
  ∃ flat idxs' g',
    reshuffle self g = OK (set_idxs self idxs', g')
    ∧ flat ≡ₚ concat (optimized_idxs self)
    ∧ idxs' ≡ₚ concat (map (λ i : nat, py_slice flat (Z.of_nat i * batchsize self)
                                                      ((Z.of_nat i + 1) * batchsize self))
                           (range (Z.of_nat (length flat) / batchsize self))).
Proof.
  intros Hopt Hb. unfold reshuffle. rewrite Hopt.
  destruct (shuffle_each_ok (optimized_idxs self) g) as (inner & g1 & -> & Hinner). simpl.
  destruct (torch_shuffle_ok inner g1) as (outer & g2 & -> & Houter). simpl.
  unfold floordiv. destruct (Z.eqb_spec (batchsize self) 0) as [|_]; [done|]. simpl.
  match goal with |- context [_torch_shuffle ?c g2] =>
    destruct (torch_shuffle_ok c g2) as (chunks' & g3 & -> & Hchunks) end.
  simpl. exists (concat outer), (concat chunks'), g3.
  split; [by unfold set_idxs; rewrite Hopt|]. split.
  - rewrite (concat_perm _ _ Houter). by apply concat_Forall2_perm.
  - by apply concat_perm.
Qed.

Lemma init_succeeds data batchsize shuffle optimize len_diff g :
  (optimize = true → data ≠ []) →
  (shuffle = true → optimize = true → batchsize ≠ 0%Z) →
  ∃ self g', __init__ data batchsize shuffle optimize len_diff g = OK (self, g')
    ∧ (if optimize then build_buckets data len_diff else OK []) = OK (optimized_idxs self).
Proof.
  intros Hdata Hb. unfold __init__.
  assert (∃ buckets, (if optimize then build_buckets data len_diff else OK []) = OK buckets)
    as [buckets Hbuckets].
  { destruct optimize; [|by eexists].
    destruct (build_buckets_ok data len_diff) as (buckets & -> & _); [by apply Hdata|by eexists]. }
  rewrite Hbuckets. simpl.
  destruct shuffle; [|by eexists _, _].
  destruct optimize.
  - edestruct reshuffle_bucketed as (flat & idxs' & g' & -> & _); [done|by apply Hb|].
    by eexists _, _.
  - edestruct reshuffle_plain as (idxs' & g' & -> & _); [done|].
    by eexists _, _.
Qed.

(** C8. Every bucket stored by the construction with bucketing enabled holds
    indices of the data set whose transcript lengths differ by less than
    [len_diff] (so the largest minus the smallest is below [len_diff]), unless
    the bucket has exactly one member.  The construction returns for a
    non-empty data set (with [shuffle], for a batch size other than 0). *)
Theorem bucket_span_below_len_diff data batchsize shuffle len_diff g :
  data ≠ [] → shuffle = false ∨ batchsize ≠ 0%Z →
  ∃ self g', __init__ data batchsize shuffle true len_diff g = OK (self, g') ∧
    ∀ b, b ∈ optimized_idxs self →
      (∀ i, i ∈ b → i < length data) ∧
      (length b = 1 ∨
       ∀ i j, i ∈ b → j ∈ b → (text_length data i - text_length data j < len_diff)%Z).
Proof.
  intros Hdata Hb.
  destruct (init_succeeds data batchsize shuffle true len_diff g) as (self & g' & Hinit & Hbk).
  { done. }
  { intros -> _. by destruct Hb. }
  exists self, g'. split; [done|].
  destruct (build_buckets_ok data len_diff Hdata) as (buckets & Hbuckets & Hspan).
  rewrite Hbuckets in Hbk. by simplify_eq.
Qed.

End sampler_claims.

(** ** TextMelCollate: what [__call__] returns *)

Lemma lookup_app_replicate {A} (pre : list A) (z : A) m :
  (pre ++ replicate (S m) z) !! length pre = Some z.
Proof. by rewrite lookup_app_r, Nat.sub_diag by lia. Qed.

Lemma insert_app_replicate {A} (pre : list A) (z x : A) m :
  <[length pre:=x]> (pre ++ replicate (S m) z) = (pre ++ [x]) ++ replicate m z.
Proof.
  rewrite insert_app_r_alt, Nat.sub_diag by lia. simpl. by rewrite <-(assoc (++)).
Qed.

Lemma strip_ones_split s :
  ∃ k, s = replicate k 1 ++ TextMelCollate.strip_ones s.
Proof.
  induction s as [|a s [k IH]]; [by exists 0|].
  destruct (decide (a = 1)) as [->|Hne].
  - exists (S k). simpl. by rewrite <-IH.
  - exists 0. simpl. by destruct a as [|[|a]].
Qed.

Section collate.
Import TextMelCollate.
Context {F : Type} {floats : Floats F} {torch : Torch}.

(** The number of mel frames of an example, [mel.size(1)]. *)
Definition mel_time (e : example F) : nat := default 0 (shape (mel e) !! 1).

(** [max([x[1].size(1) for x in batch])] *)
Definition max_target_len (batch : list (example F)) : nat :=
  foldr Nat.max 0 (mel_time <$> batch).

(** A row of [text_padded]: the symbols, then zeros up to the width [W]. *)
Definition text_row (W : nat) (s : list Z) : list Z := s ++ replicate (W - length s) 0%Z.

(** A row of [gate_padded] for [L] mel frames in a batch of width [W]. *)
Definition gate_row (W L : nat) : list F := set_from (replicate W fzero) (Z.of_nat L - 1).

(** A batch [__call__] is meant for: not empty, every mel two-dimensional
    with one channel count, and, when no alignment is absent, every alignment
    of shape (mel frames, symbols). *)
Definition well_formed (batch : list (example F)) : Prop :=
  batch ≠ []
  ∧ (∃ num_mels, ∀ e, e ∈ batch → shape (mel e) = [num_mels; mel_time e])
  ∧ ((∀ e, e ∈ batch → alignment e ≠ None) →
     ∀ e a, e ∈ batch → alignment e = Some a → shape a = [mel_time e; length (sequence e)]).

Definition lacks_alignment (batch : list (example F)) : bool :=
  existsb (λ elem, bool_decide (alignment elem = None)) batch.

Definition lacks_ctc (batch : list (example F)) : bool :=
  existsb (λ elem, bool_decide (ctc_sequence elem = None)) batch.

Lemma lacks_alignment_false batch e :
  lacks_alignment batch = false → e ∈ batch → ∃ a, alignment e = Some a.
Proof.
  unfold lacks_alignment. induction batch as [|x batch IH]; simpl.
  - by intros _ ?%elem_of_nil.
  - intros [Hx Hb]%orb_false_iff [->|He]%elem_of_cons; [|by apply IH].
    apply bool_decide_eq_false in Hx. destruct (alignment x); [by eexists|done].
Qed.

Lemma lacks_alignment_true batch :
  lacks_alignment batch = true ↔ ∃ e, e ∈ batch ∧ alignment e = None.
Proof.
  unfold lacks_alignment. induction batch as [|x batch IH]; simpl.
  - split; [done|]. by intros (e & ?%elem_of_nil & _).
  - rewrite orb_true_iff, IH, bool_decide_eq_true. split.
    + intros [Hx | (e & He & Hn)]; [exists x | exists e]; split; by (done || constructor).
    + intros (e & [->|He]%elem_of_cons & Hn); [by left|right; eauto].
Qed.

Lemma lacks_ctc_false batch e :
  lacks_ctc batch = false → e ∈ batch → ∃ c, ctc_sequence e = Some c.
Proof.
  unfold lacks_ctc. induction batch as [|x batch IH]; simpl.
  - by intros _ ?%elem_of_nil.
  - intros [Hx Hb]%orb_false_iff [->|He]%elem_of_cons; [|by apply IH].
    apply bool_decide_eq_false in Hx. destruct (ctc_sequence x); [by eexists|done].
Qed.

Lemma lacks_ctc_true batch :
  lacks_ctc batch = true ↔ ∃ e, e ∈ batch ∧ ctc_sequence e = None.
Proof.
  unfold lacks_ctc. induction batch as [|x batch IH]; simpl.
  - split; [done|]. by intros (e & ?%elem_of_nil & _).
  - rewrite orb_true_iff, IH, bool_decide_eq_true. split.
    + intros [Hx | (e & He & Hn)]; [exists x | exists e]; split; by (done || constructor).
    + intros (e & [->|He]%elem_of_cons & Hn); [by left|right; eauto].
Qed.

Lemma expand_setitem_same (v : ndarray F) :
  ∃ f, expand_setitem v (shape v) = OK f.
Proof.
  unfold expand_setitem.
  destruct (strip_ones_split (shape v)) as [k Hk].
  set (vs := strip_ones (shape v)) in *.
  assert (length (shape v) - length vs = k) as ->.
  { rewrite Hk at 1. rewrite length_app, length_replicate. lia. }
  assert ((length vs <=? length (shape v)) = true) as ->.
  { apply Nat.leb_le. rewrite Hk at 1. rewrite length_app. lia. }
  assert (drop k (shape v) = vs) as ->.
  { rewrite Hk at 1. by rewrite drop_app_length' by (by rewrite length_replicate). }
  assert (forallb (λ ab : nat * nat, (ab.1 =? ab.2) || (ab.1 =? 1)) (zip vs vs) = true) as ->.
  { clear Hk. induction vs as [|a vs IH]; simpl; [done|]. by rewrite Nat.eqb_refl, IH. }
  by eexists.
Qed.

Lemma set_block_ok (block : list (list F)) width rows cols v :
  shape v = [rows `min` length block; cols `min` width] →
  ∃ block', set_block block width rows cols v = OK block' ∧ length block' = length block.
Proof.
  intros Hv. unfold set_block. rewrite <-Hv.
  destruct (expand_setitem_same v) as [f ->]. simpl.
  eexists. split; [done|]. by rewrite length_imap.
Qed.

Lemma set_prefix_zero_row {A} (z : A) W (v : list A) :
  length v ≤ W →
  set_prefix (replicate W z) (length v) v = OK (v ++ replicate (W - length v) z).
Proof.
  intros Hle. unfold set_prefix. rewrite length_replicate.
  replace (length v `min` W) with (length v) by lia.
  by rewrite Nat.eqb_refl, drop_replicate.
Qed.

End collate.

Lemma bind_OK {A B} (x : A) (f : A → res B) : (OK x ≫= f) = f x.
Proof. done. Qed.

Lemma getitem_next {A} (pre : list A) (z : A) m i :
  i = length pre → getitem (pre ++ replicate (S m) z) i = OK z.
Proof. intros ->. apply getitem_Some, lookup_app_replicate. Qed.

Lemma insert_next {A} (pre : list A) (z x : A) m i :
  i = length pre → <[i:=x]> (pre ++ replicate (S m) z) = (pre ++ [x]) ++ replicate m z.
Proof. intros ->. apply insert_app_replicate. Qed.

Lemma setitem_next {A} (pre : list A) (z x : A) m i :
  i = length pre →
  TextMelCollate.setitem (pre ++ replicate (S m) z) i x = OK ((pre ++ [x]) ++ replicate m z).
Proof.
  intros ->. unfold TextMelCollate.setitem.
  rewrite insert_app_replicate.
  destruct (Nat.ltb_spec (length pre) (length (pre ++ replicate (S m) z))) as [|Hge]; [done|].
  rewrite length_app, length_replicate in Hge. lia.
Qed.

Section collate_loop.
Import TextMelCollate.
Context {F : Type} {floats : Floats F} {torch : Torch}.
Variables (batch : list (example F)) (ga gc : bool) (num_mels Wt Wm Wc : nat).

(** An example that fits the buffers allocated for the batch. *)
Definition fits (e : example F) : Prop :=
  shape (mel e) = [num_mels; mel_time e]
  ∧ mel_time e ≤ Wm
  ∧ length (sequence e) ≤ Wt
  ∧ (ga = true → ∃ a, alignment e = Some a ∧ shape a = [mel_time e; length (sequence e)])
  ∧ (gc = true → ∃ c, ctc_sequence e = Some c ∧ length c ≤ Wc).

Definition ctc_of (e : example F) : list Z := default [] (ctc_sequence e).

(** The buffers once the rows of [es] are written and [m] rows are left. *)
Definition filled (es : list (example F)) (m : nat) (b : buffers F) : Prop :=
  text_padded b = ((λ e, text_row Wt (sequence e)) <$> es) ++ replicate m (replicate Wt 0%Z)
  ∧ (∃ M, length M = length es
        ∧ mel_padded b = M ++ replicate m (replicate num_mels (replicate Wm fzero)))
  ∧ gate_padded b = ((λ e, gate_row Wm (mel_time e)) <$> es) ++ replicate m (replicate Wm fzero)
  ∧ (if ga
     then ∃ A, length A = length es
             ∧ alignments_padded b = Some (A ++ replicate m (replicate Wm (replicate Wt fzero)))
     else alignments_padded b = None)
  ∧ (if gc
     then ctc_text_padded b
            = Some (((λ e, text_row Wc (ctc_of e)) <$> es) ++ replicate m (replicate Wc 0%Z))
          ∧ ctc_text_lengths b = Some (((λ e, length (ctc_of e)) <$> es) ++ replicate m 0)
     else ctc_text_padded b = None ∧ ctc_text_lengths b = None)
  ∧ output_lengths b = (mel_time <$> es) ++ replicate m 0.

Lemma collate_body_filled es m b idx e :
  filled es (S m) b → batch !! idx = Some e → fits e →
  ∃ b', collate_body batch ga gc Wt Wm b (length es) idx = OK b' ∧ filled (es ++ [e]) m b'.
Proof.
  intros (Ht & (M & HM & Hm) & Hg & Ha & Hc & Ho) Hidx (Hshape & HT & Hlen & Hal & Hctc).
  unfold collate_body.
  rewrite (getitem_Some _ _ _ Hidx), bind_OK.
  assert (size (mel e) 1 = OK (mel_time e)) as -> by (unfold size; by rewrite Hshape).
  rewrite bind_OK, Ho, setitem_next, bind_OK by (by rewrite length_fmap).
  rewrite Ht, getitem_next, bind_OK by (by rewrite length_fmap).
  rewrite set_prefix_zero_row, bind_OK by done.
  rewrite Hm, getitem_next, bind_OK by done.
  destruct (set_block_ok (replicate num_mels (replicate Wm fzero)) Wm
              (length (replicate num_mels (replicate Wm fzero))) (mel_time e) (mel e))
    as (mblock' & -> & _).
  { rewrite Hshape, length_replicate. f_equal; [lia|f_equal; lia]. }
  rewrite bind_OK, Hg, getitem_next, bind_OK by (by rewrite length_fmap).
  assert (∃ ap', (if ga then
             match alignments_padded b, alignment e with
             | Some ap, Some a =>
                 ablock ← getitem ap (length es);
                 ablock' ← set_block ablock Wt (mel_time e) (length (sequence e)) a;
                 OK (Some (<[length es:=ablock']> ap))
             | _, _ => Raise TypeError
             end
           else OK (alignments_padded b)) = OK ap'
           ∧ (if ga
              then ∃ A, length A = length (es ++ [e])
                      ∧ ap' = Some (A ++ replicate m (replicate Wm (replicate Wt fzero)))
              else ap' = None)) as (ap' & -> & Hap').
  { destruct ga; [|by eexists].
    destruct Ha as (A & HA & ->). destruct Hal as (a & -> & Hsa); [done|].
    rewrite getitem_next, bind_OK by done.
    destruct (set_block_ok (replicate Wm (replicate Wt fzero)) Wt (mel_time e)
                (length (sequence e)) a) as (ablock' & -> & _).
    { rewrite Hsa, length_replicate. f_equal; [lia|f_equal; lia]. }
    rewrite bind_OK, insert_next by done.
    eexists. split; [done|]. exists (A ++ [ablock']). split; [|done].
    rewrite !length_app. simpl. lia. }
  rewrite bind_OK.
  assert (∃ cp' cl', (if gc then
             match ctc_sequence e, ctc_text_lengths b, ctc_text_padded b with
             | None, _, _ => Raise AttributeError
             | Some ctc_text, Some cl, Some cp =>
                 cl' ← setitem cl (length es) (length ctc_text);
                 crow ← getitem cp (length es);
                 crow' ← set_prefix crow (length ctc_text) ctc_text;
                 OK (Some (<[length es:=crow']> cp), Some cl')
             | Some _, _, _ => Raise TypeError
             end
           else OK (ctc_text_padded b, ctc_text_lengths b)) = OK (cp', cl')
           ∧ (if gc
              then cp' = Some (((λ e, text_row Wc (ctc_of e)) <$> es ++ [e])
                               ++ replicate m (replicate Wc 0%Z))
                   ∧ cl' = Some (((λ e, length (ctc_of e)) <$> es ++ [e]) ++ replicate m 0)
              else cp' = None ∧ cl' = None)) as (cp' & cl' & -> & Hcp').
  { destruct gc; [|destruct Hc as [-> ->]; by eexists _, _].
    destruct Hc as [-> ->]. destruct Hctc as (c & Hc & Hcl); [done|]. rewrite Hc.
    rewrite setitem_next, bind_OK by (by rewrite length_fmap).
    rewrite getitem_next, bind_OK by (by rewrite length_fmap).
    rewrite set_prefix_zero_row, bind_OK by done.
    rewrite insert_next by (by rewrite length_fmap).
    eexists _, _. split; [done|].
    rewrite !fmap_app. simpl. unfold ctc_of. rewrite Hc. simpl. done. }
  rewrite bind_OK. eexists. split; [done|].
  split; [|split; [|split; [|split; [|split]]]];
    cbn [text_padded mel_padded gate_padded alignments_padded ctc_text_padded
         ctc_text_lengths output_lengths fst snd].
  - rewrite insert_next by (by rewrite length_fmap). by rewrite fmap_app.
  - exists (M ++ [mblock']). split; [rewrite !length_app; simpl; lia|].
    by rewrite insert_next.
  - rewrite insert_next by (by rewrite length_fmap). by rewrite fmap_app.
  - done.
  - done.
  - by rewrite fmap_app.
Qed.

Lemma collate_loop_filled ids : ∀ es done b,
  Forall2 (λ e i, batch !! i = Some e) es ids → Forall fits es →
  filled done (length ids) b →
  ∃ b', collate_loop batch ga gc Wt Wm (length done) ids b = OK b'
        ∧ filled (done ++ es) 0 b'.
Proof.
  induction ids as [|idx ids IH]; intros es done b Hes Hfit Hb.
  - apply Forall2_nil_inv_r in Hes as ->. rewrite app_nil_r. by exists b.
  - apply Forall2_cons_inv_r in Hes as (e & es' & He & Hes' & ->).
    apply Forall_cons in Hfit as [Hfe Hfit]. simpl.
    destruct (collate_body_filled done (length ids) b idx e Hb He Hfe) as (b1 & -> & Hb1).
    rewrite bind_OK.
    destruct (IH es' (done ++ [e]) b1 Hes' Hfit Hb1) as (b' & Hloop & Hb').
    rewrite length_app in Hloop. simpl in Hloop.
    replace (length done + 1) with (S (length done)) in Hloop by lia.
    exists b'. split; [done|]. by rewrite <-(assoc (++)) in Hb'.
Qed.

End collate_loop.

Lemma foldr_max_le (l : list nat) y : y ∈ l → y ≤ foldr Nat.max 0 l.
Proof.
  induction l as [|a l IH]; [by intros ?%elem_of_nil|].
  intros [->|Hy]%elem_of_cons; simpl; [lia|]. apply IH in Hy. lia.
Qed.

Lemma foldr_max_eq (l : list nat) x :
  x ∈ l → (∀ y, y ∈ l → y ≤ x) → foldr Nat.max 0 l = x.
Proof.
  intros Hx Hle. apply Nat.le_antisymm; [|by apply foldr_max_le].
  clear Hx. induction l as [|a l IH]; simpl; [lia|].
  apply Nat.max_lub; [apply Hle; by left|]. apply IH. intros y Hy. apply Hle. by right.
Qed.

Lemma foldl_max_foldr a (l : list nat) : foldl Nat.max a l = foldr Nat.max 0 (a :: l).
Proof.
  revert a. induction l as [|b l IH]; intros a; simpl; [lia|].
  rewrite IH. simpl. lia.
Qed.

Lemma py_max_fmap {A} (f : A → nat) (l : list A) :
  l ≠ [] → TextMelCollate.py_max (f <$> l) = OK (foldr Nat.max 0 (f <$> l)).
Proof.
  destruct l as [|x l]; [done|]. intros _. rewrite fmap_cons.
  unfold TextMelCollate.py_max. by rewrite foldl_max_foldr.
Qed.

Lemma comprehension_getitem_Forall2 {A} (l : list A) ids es :
  comprehension (getitem l) ids = OK es → Forall2 (λ e i, l !! i = Some e) es ids.
Proof.
  revert es. induction ids as [|i ids IH]; intros es Hes; simpl in *.
  - simplify_eq. constructor.
  - destruct (getitem l i) as [e|] eqn:He; simpl in *; [|done].
    destruct (comprehension (getitem l) ids) as [es'|]; simpl in *; [|done].
    simplify_eq. constructor; [by apply getitem_OK|by apply IH].
Qed.

Lemma values_of_examples {A} (f : A → nat) (l : list A) ids : ∀ vals es,
  Forall2 (λ v i, (f <$> l) !! i = Some v) vals ids →
  Forall2 (λ e i, l !! i = Some e) es ids →
  vals = f <$> es.
Proof.
  induction ids as [|i ids IH]; intros vals es Hv He.
  - apply Forall2_nil_inv_r in Hv as ->. by apply Forall2_nil_inv_r in He as ->.
  - apply Forall2_cons_inv_r in Hv as (v & vals' & Hv & Hvs & ->).
    apply Forall2_cons_inv_r in He as (e & es' & He & Hes & ->).
    rewrite list_lookup_fmap, He in Hv. simpl in Hv. simplify_eq.
    rewrite fmap_cons. f_equal. by apply IH.
Qed.

(** ** TextMelCollate: what a returned batch looks like *)

Lemma insert_after {A} (pre l : list A) (z x : A) i :
  i = length pre → <[i:=x]> (pre ++ z :: l) = (pre ++ [x]) ++ l.
Proof.
  intros ->. rewrite insert_app_r_alt, Nat.sub_diag by lia. simpl. by rewrite <-(assoc (++)).
Qed.

Lemma bind_OK_inv {A B} (m : res A) (f : A → res B) b :
  m ≫= f = OK b → ∃ a, m = OK a ∧ f a = OK b.
Proof. destruct m as [a|e]; [|done]. intros Hb. by exists a. Qed.

Section collate_inversion.
Import TextMelCollate.
Context {F : Type} {floats : Floats F} {torch : Torch}.
Variables (batch : list (example F)) (ga gc : bool) (Wt Wm : nat).

(** The part of the buffers that does not depend on the cells of the mels
    and alignments, once the rows of [es] are written and [m] rows are left. *)
Definition tracked (es : list (example F)) (m : nat) (b : buffers F) : Prop :=
  text_padded b = ((λ e, text_row Wt (sequence e)) <$> es) ++ replicate m (replicate Wt 0%Z)
  ∧ gate_padded b = ((λ e, gate_row Wm (mel_time e)) <$> es) ++ replicate m (replicate Wm fzero)
  ∧ output_lengths b = (mel_time <$> es) ++ replicate m 0
  ∧ (alignments_padded b = None ↔ ga = false).

Lemma collate_body_tracked es m b idx e b' :
  length (sequence e) ≤ Wt →
  batch !! idx = Some e →
  tracked es (S m) b →
  collate_body batch ga gc Wt Wm b (length es) idx = OK b' →
  tracked (es ++ [e]) m b'.
Proof.
  intros Hlen He (Ht & Hg & Ho & Ha) Hbody. unfold collate_body in Hbody.
  rewrite (getitem_Some _ _ _ He), bind_OK in Hbody.
  apply bind_OK_inv in Hbody as (T & HT & Hbody).
  assert (T = mel_time e) as ->.
  { unfold size in HT. apply getitem_OK in HT. unfold mel_time. by rewrite HT. }
  rewrite Ho, setitem_next, bind_OK in Hbody by (by rewrite length_fmap).
  rewrite Ht, getitem_next, bind_OK in Hbody by (by rewrite length_fmap).
  rewrite set_prefix_zero_row, bind_OK in Hbody by done.
  apply bind_OK_inv in Hbody as (mblock & _ & Hbody).
  apply bind_OK_inv in Hbody as (mblock' & _ & Hbody).
  rewrite Hg, getitem_next, bind_OK in Hbody by (by rewrite length_fmap).
  apply bind_OK_inv in Hbody as (ap' & Hap & Hbody).
  apply bind_OK_inv in Hbody as (ctc' & _ & Hbody).
  injection Hbody as <-.
  split; [|split; [|split]];
    cbn [text_padded gate_padded alignments_padded output_lengths].
  - rewrite insert_after by (by rewrite length_fmap). by rewrite fmap_app.
  - rewrite insert_after by (by rewrite length_fmap). by rewrite fmap_app.
  - by rewrite fmap_app.
  - destruct ga.
    + destruct (alignments_padded b) as [ap|]; [|done].
      destruct (alignment e) as [a|]; [|done].
      apply bind_OK_inv in Hap as (ablock & _ & Hap).
      apply bind_OK_inv in Hap as (ablock' & _ & Hap).
      injection Hap as <-. done.
    + injection Hap as <-. done.
Qed.

Lemma collate_loop_tracked ids : ∀ es done b b',
  (∀ e, e ∈ es → length (sequence e) ≤ Wt) →
  Forall2 (λ e i, batch !! i = Some e) es ids →
  tracked done (length ids) b →
  collate_loop batch ga gc Wt Wm (length done) ids b = OK b' →
  tracked (done ++ es) 0 b'.
Proof.
  induction ids as [|idx ids IH]; intros es done b b' Hlen Hes Hb Hloop.
  - apply Forall2_nil_inv_r in Hes as ->. simpl in Hloop. simplify_eq.
    by rewrite app_nil_r.
  - apply Forall2_cons_inv_r in Hes as (e & es' & He & Hes' & ->).
    simpl in Hloop. apply bind_OK_inv in Hloop as (b1 & Hbody & Hloop).
    assert (tracked (done ++ [e]) (length ids) b1) as Hb1.
    { eapply collate_body_tracked; [|done..]. apply Hlen. by left. }
    replace (S (length done)) with (length (done ++ [e])) in Hloop
      by (rewrite length_app; simpl; lia).
    rewrite (assoc (++) done [e] es').
    eapply IH; [|done..]. intros e' He'. apply Hlen. by right.
Qed.

End collate_inversion.

Section collate_order.
Import TextMelCollate.
Context {F : Type} {floats : Floats F} {torch : Torch}.

(** [input_lengths[0]], the largest symbol length of the batch. *)
Definition max_input_len (batch : list (example F)) : nat :=
  foldr Nat.max 0 ((λ x, length (sequence x)) <$> batch).

(** The examples in the order of [ids_sorted_decreasing]. *)
Lemma sorted_examples (batch : list (example F)) :
  ∃ es,
    Forall2 (λ e i, batch !! i = Some e) es
      (sort_descending ((λ x, length (sequence x)) <$> batch)).2
    ∧ es ≡ₚ batch
    ∧ (sort_descending ((λ x, length (sequence x)) <$> batch)).1
        = (λ x, length (sequence x)) <$> es
    ∧ (∀ i j x y, i ≤ j → es !! i = Some x → es !! j = Some y →
         length (sequence y) ≤ length (sequence x))
    ∧ (batch ≠ [] →
       getitem (sort_descending ((λ x, length (sequence x)) <$> batch)).1 0
         = OK (max_input_len batch)).
Proof.
  set (lens := (λ x : example F, length (sequence x)) <$> batch).
  pose proof (sort_indices_perm lens) as Hperm.
  pose proof (sort_values_at lens) as Hat.
  pose proof (sort_values_desc lens) as Hdesc.
  destruct (sort_descending lens) as [vals ids]. simpl in *.
  assert (Hn : length lens = length batch) by (unfold lens; by rewrite length_fmap).
  rewrite Hn in Hperm.
  destruct (comprehension_perm (getitem batch) _ _ batch (symmetry Hperm)
              (comprehension_getitem_seq batch)) as (es & Hes & Hbes).
  apply comprehension_getitem_Forall2 in Hes.
  assert (Hvals : vals = (λ x, length (sequence x)) <$> es)
    by (by eapply values_of_examples).
  assert (Hsorted : ∀ i j x y, i ≤ j → es !! i = Some x → es !! j = Some y →
            length (sequence y) ≤ length (sequence x)).
  { intros i j x y Hij Hx Hy.
    apply (Hdesc i j); [done|by rewrite Hvals, list_lookup_fmap, Hx
                            |by rewrite Hvals, list_lookup_fmap, Hy]. }
  exists es. do 4 (split; [done|]).
  intros Hne. destruct es as [|e0 es'] eqn:Hes_eq.
  { by apply Permutation_nil_r in Hbes. }
  rewrite <-Hes_eq in *.
  apply getitem_Some. rewrite Hvals, Hes_eq. simpl. f_equal. symmetry.
  apply foldr_max_eq.
  - apply list_elem_of_fmap. exists e0. split; [done|]. rewrite Hbes, Hes_eq. by left.
  - intros y (e & -> & He)%list_elem_of_fmap. rewrite Hbes in He.
    apply list_elem_of_lookup_1 in He as [j Hj].
    apply (Hsorted 0 j); [lia|by rewrite Hes_eq|done].
Qed.

Lemma comprehension_size (batch : list (example F)) tl :
  comprehension (λ x, size (mel x) 1) batch = OK tl → tl = mel_time <$> batch.
Proof.
  revert tl. induction batch as [|e batch IH]; intros tl Htl; simpl in Htl.
  - by simplify_eq.
  - apply bind_OK_inv in Htl as (T & HT & Htl).
    apply bind_OK_inv in Htl as (tl' & Htl' & Htl). simplify_eq.
    rewrite fmap_cons. f_equal; [|by apply IH].
    unfold size in HT. apply getitem_OK in HT. unfold mel_time. by rewrite HT.
Qed.

(** Whatever the shapes of the mels and alignments: when [__call__] returns,
    the batch is not empty and the rows are the examples [es] of the batch
    in an order of non-increasing symbol length. *)
Lemma call_OK_inv (batch : list (example F)) inputs al ctc :
  __call__ batch = OK (inputs, al, ctc) →
  batch ≠ []
  ∧ ∃ es,
      es ≡ₚ batch
      ∧ (∀ i j x y, i ≤ j → es !! i = Some x → es !! j = Some y →
           length (sequence y) ≤ length (sequence x))
      ∧ text inputs = (λ e, text_row (max_input_len batch) (sequence e)) <$> es
      ∧ text_len inputs = (λ e, length (sequence e)) <$> es
      ∧ mel_len inputs = mel_time <$> es
      ∧ gate inputs = (λ e, gate_row (max_target_len batch) (mel_time e)) <$> es
      ∧ (al = None ↔ lacks_alignment batch = true)
      ∧ (ctc = None ↔ lacks_ctc batch = true).
Proof.
  intros Hcall.
  assert (Hne : batch ≠ []).
  { intros ->. unfold __call__ in Hcall. simpl in Hcall.
    pose proof (sort_indices_perm []) as Hperm.
    pose proof (sort_values_at []) as Hat.
    destruct (sort_descending []) as [vals ids]. simpl in *.
    apply Permutation_nil_r in Hperm as ->. by apply Forall2_nil_inv_r in Hat as ->. }
  split; [done|].
  destruct (sorted_examples batch) as (es & Hes & Hperm & Hvals & Hsorted & Hwt).
  specialize (Hwt Hne).
  unfold __call__ in Hcall.
  change (existsb (λ elem, bool_decide (alignment elem = None)) batch)
    with (lacks_alignment batch) in Hcall.
  change (existsb (λ elem, bool_decide (ctc_sequence elem = None)) batch)
    with (lacks_ctc batch) in Hcall.
  destruct (sort_descending ((λ x, length (sequence x)) <$> batch)) as [vals ids].
  simpl in Hes, Hvals, Hwt.
  rewrite Hwt, bind_OK in Hcall.
  apply bind_OK_inv in Hcall as (tl & Htl & Hcall).
  apply comprehension_size in Htl as ->.
  rewrite py_max_fmap, bind_OK in Hcall by done. fold (max_target_len batch) in Hcall.
  apply bind_OK_inv in Hcall as (first & _ & Hcall).
  apply bind_OK_inv in Hcall as (num_mels & _ & Hcall).
  apply bind_OK_inv in Hcall as (ctc0 & _ & Hcall).
  apply bind_OK_inv in Hcall as (b & Hloop & Hcall).
  injection Hcall as <- <- <-.
  apply (collate_loop_tracked batch _ _ (max_input_len batch) (max_target_len batch)
           ids es []) in Hloop as (Ht & Hg & Ho & Ha); [| |done|].
  - rewrite app_nil_l, app_nil_r in *. simpl in Ht, Hg, Ho.
    exists es. cbn [text text_len mel_len gate].
    do 6 (split; [done|]). split.
    + rewrite Ha. by destruct (lacks_alignment batch).
    + by destruct (lacks_ctc batch).
  - intros e He. apply foldr_max_le, list_elem_of_fmap. exists e. by rewrite <-Hperm.
  - assert (length ids = length batch) as ->.
    { apply Forall2_length in Hes. by rewrite <-Hes, Hperm. }
    split; [done|]. split; [done|]. split; [done|].
    by destruct (lacks_alignment batch).
Qed.

End collate_order.

Section collate_call.
Import TextMelCollate.
Context {F : Type} {floats : Floats F} {torch : Torch}.

(** [__call__] returns on every well-formed batch. *)
Lemma call_returns (batch : list (example F)) :
  well_formed batch → ∃ out, __call__ batch = OK out.
Proof.
  intros (Hne & (num_mels & Hmel) & Halign).
  destruct (sorted_examples batch) as (es & Hes & Hbes & _ & _ & Hwt).
  specialize (Hwt Hne).
  unfold __call__.
  change (existsb (λ elem, bool_decide (alignment elem = None)) batch)
    with (lacks_alignment batch).
  change (existsb (λ elem, bool_decide (ctc_sequence elem = None)) batch)
    with (lacks_ctc batch).
  destruct (sort_descending ((λ x, length (sequence x)) <$> batch)) as [vals ids].
  simpl in Hes, Hwt.
  assert (Hids : length ids = length batch).
  { apply Forall2_length in Hes. by rewrite <-Hes, Hbes. }
  rewrite Hwt, bind_OK.
  rewrite (comprehension_ext (λ x, size (mel x) 1) (λ x, OK (mel_time x))).
  2:{ intros e He. cbn beta. unfold size. by rewrite (Hmel e He). }
  rewrite comprehension_OK_pure, bind_OK, py_max_fmap, bind_OK by done.
  fold (max_target_len batch).
  destruct batch as [|first rest] eqn:Hbatch; [done|]. rewrite <-Hbatch in *.
  assert (getitem batch 0 = OK first) as -> by (by rewrite Hbatch).
  rewrite bind_OK.
  assert (size (mel first) 0 = OK num_mels) as ->.
  { unfold size. rewrite (Hmel first); [done|]. rewrite Hbatch. by left. }
  rewrite !bind_OK.
  set (gc := negb (lacks_ctc batch)). set (ga := negb (lacks_alignment batch)).
  set (Wc := foldr Nat.max 0 ((λ e, length (ctc_of e)) <$> batch)).
  assert (Hctc0 : (if gc then
            ctc_lens ← comprehension len_ctc batch;
            max_ctc_text_len ← py_max ctc_lens;
            OK (Some (replicate (length batch) (replicate max_ctc_text_len 0%Z)),
                Some (replicate (length batch) 0))
          else OK (None, None))
          = OK (if gc then (Some (replicate (length batch) (replicate Wc 0%Z)),
                            Some (replicate (length batch) 0))
                else (None, None))).
  { destruct gc eqn:Hgc; [|done].
    rewrite (comprehension_ext len_ctc (λ x, OK (length (ctc_of x)))).
    2:{ intros e He. cbn beta. apply negb_true_iff in Hgc.
        destruct (lacks_ctc_false _ _ Hgc He) as [c Hc].
        unfold len_ctc, ctc_of. by rewrite Hc. }
    by rewrite comprehension_OK_pure, bind_OK, py_max_fmap, bind_OK. }
  rewrite Hctc0, bind_OK. clear Hctc0.
  assert (Hfits : Forall (fits ga gc num_mels (max_input_len batch) (max_target_len batch) Wc) es).
  { apply Forall_forall. intros e He. rewrite Hbes in He.
    split; [by apply Hmel|]. split; [|split; [|split]].
    - apply foldr_max_le, list_elem_of_fmap. eauto.
    - apply foldr_max_le, list_elem_of_fmap. eauto.
    - intros Hga. apply negb_true_iff in Hga.
      destruct (lacks_alignment_false _ _ Hga He) as [a Ha].
      exists a. split; [done|]. apply Halign; [|done..].
      intros e' He'. destruct (lacks_alignment_false _ _ Hga He') as [a' ->]. done.
    - intros Hgc. apply negb_true_iff in Hgc.
      destruct (lacks_ctc_false _ _ Hgc He) as [c Hc].
      exists c. split; [done|].
      apply foldr_max_le, list_elem_of_fmap. exists e. unfold ctc_of. by rewrite Hc. }
  match goal with |- context [collate_loop _ _ _ _ _ 0 ids ?b0] =>
    destruct (collate_loop_filled batch ga gc num_mels (max_input_len batch)
                (max_target_len batch) Wc ids es [] b0) as (b & Hloop & Hb); [done|done| |]
  end.
  { rewrite Hids.
    split; [done|]. split; [by exists []|]. split; [done|]. split; [|split; [|done]].
    - destruct ga; [by exists []|done].
    - by destruct gc. }
  simpl in Hloop. rewrite Hloop, bind_OK. by eexists.
Qed.

End collate_call.

Section collate_claims.
Import TextMelCollate.
Context {F : Type} {floats : Floats F} {torch : Torch}.

Lemma gate_row_split W L :
  1 ≤ L → L ≤ W → gate_row W L = replicate (L - 1) fzero ++ replicate (W - (L - 1)) fone.
Proof.
  intros HL HW. unfold gate_row, set_from. rewrite length_replicate.
  assert (slice_bound W (Z.of_nat L - 1) = L - 1) as ->.
  { unfold slice_bound. destruct (Z.ltb_spec (Z.of_nat L - 1) 0); lia. }
  rewrite take_replicate. do 2 f_equal. lia.
Qed.

Lemma sorted_permutation_of_5_3_8 (l : list nat) :
  l ≡ₚ [5; 3; 8] →
  (∀ i j a b, i ≤ j → l !! i = Some a → l !! j = Some b → b ≤ a) →
  l = [8; 5; 3].
Proof.
  intros Hp Hs.
  assert (Hl := Permutation_length Hp).
  destruct l as [|a [|b [|c [|]]]]; simpl in Hl; try done.
  assert (Hab := Hs 0 1 a b ltac:(lia) eq_refl eq_refl).
  assert (Hbc := Hs 1 2 b c ltac:(lia) eq_refl eq_refl).
  assert (H8 : 8 ∈ [a; b; c]) by (rewrite Hp, !elem_of_cons; auto).
  assert (H5 : 5 ∈ [a; b; c]) by (rewrite Hp, !elem_of_cons; auto).
  assert (H3 : 3 ∈ [a; b; c]) by (rewrite Hp, !elem_of_cons; auto).
  assert (Ha : a ∈ [5; 3; 8]) by (rewrite <-Hp, !elem_of_cons; auto).
  assert (Hc : c ∈ [5; 3; 8]) by (rewrite <-Hp, !elem_of_cons; auto).
  rewrite !elem_of_cons, !elem_of_nil in H8, H5, H3, Ha, Hc.
  f_equal; [|f_equal; [|f_equal]]; lia.
Qed.

(** C10. On the empty list [__call__] raises [IndexError] (at
    [input_lengths[0]], before anything is allocated), so a returned batch
    always comes from a list with at least one example; on such a list the
    two first-element reads, [input_lengths[0]] and [batch[0]], succeed. *)
Theorem call_needs_non_empty_batch :
  __call__ (F:=F) [] = Raise IndexError
  ∧ (∀ (batch : list (example F)) out, __call__ batch = OK out → batch ≠ [])
  ∧ ∀ batch : list (example F), batch ≠ [] →
      (∃ m, getitem (sort_descending ((λ x, length (sequence x)) <$> batch)).1 0 = OK m)
      ∧ (∃ first, getitem batch 0 = OK first).
Proof.
  assert (Hempty : __call__ (F:=F) [] = Raise IndexError).
  { unfold __call__. simpl.
    pose proof (sort_indices_perm []) as Hperm.
    pose proof (sort_values_at []) as Hat.
    destruct (sort_descending []) as [vals ids]. simpl in *.
    apply Permutation_nil_r in Hperm as ->. apply Forall2_nil_inv_r in Hat as ->. done. }
  split; [done|]. split.
  - intros batch out Hout ->. by rewrite Hempty in Hout.
  - intros batch Hne. split.
    + destruct (sorted_examples batch) as (_ & _ & _ & _ & _ & Hwt). eauto.
    + destruct batch as [|first ?]; [done|]. by exists first.
Qed.

(** C6. Whenever [__call__] returns a batch (it does on every well-formed,
    in particular non-empty, batch), the input is not empty and the rows are
    the examples [es] of the batch put in an order of non-increasing symbol
    length: row [i] of [text] is the padded sequence of [es !! i], [text_len]
    is the vector of their lengths, itself non-increasing, and [mel_len] lists
    the mel frames of the same [es].  For symbol lengths [5; 3; 8] this gives
    [text_len = [8; 5; 3]]. *)
Theorem rows_sorted_by_length_descending (batch : list (example F)) :
  (well_formed batch → ∃ out, __call__ batch = OK out)
  ∧ ∀ inputs al ctc, __call__ batch = OK (inputs, al, ctc) →
      batch ≠ []
      ∧ ∃ es,
          es ≡ₚ batch
          ∧ text inputs = (λ e, text_row (max_input_len batch) (sequence e)) <$> es
          ∧ text_len inputs = (λ e, length (sequence e)) <$> es
          ∧ mel_len inputs = mel_time <$> es
          ∧ (∀ i j a b, i ≤ j →
               text_len inputs !! i = Some a → text_len inputs !! j = Some b → b ≤ a)
          ∧ ((λ e, length (sequence e)) <$> batch = [5; 3; 8] →
             text_len inputs = [8; 5; 3]).
Proof.
  split; [apply call_returns|].
  intros inputs al ctc Hcall.
  destruct (call_OK_inv batch inputs al ctc Hcall)
    as (Hne & es & Hperm & Hsorted & Htext & Hlen & Hmel & _).
  split; [done|]. exists es. do 4 (split; [done|]).
  assert (Hdesc : ∀ i j a b, i ≤ j →
            text_len inputs !! i = Some a → text_len inputs !! j = Some b → b ≤ a).
  { intros i j a b Hij. rewrite Hlen, !list_lookup_fmap.
    destruct (es !! i) as [x|] eqn:Hx; [|done]. destruct (es !! j) as [y|] eqn:Hy; [|done].
    simpl. intros ??; simplify_eq. by eapply Hsorted. }
  split; [done|].
  intros H538. apply sorted_permutation_of_5_3_8; [|done].
  by rewrite Hlen, Hperm, H538.
Qed.

(** The gate property for every mel length [L], zero included: in a
    returned batch, row [i] is 0 on the frames [0 .. L-2] and 1 on the frames
    [L-1 .. max_len-1]. *)
Definition gate_zeros_then_ones (batch : list (example F)) : Prop :=
  ∀ inputs al ctc, __call__ batch = OK (inputs, al, ctc) →
  ∀ i L row, mel_len inputs !! i = Some L → gate inputs !! i = Some row →
    (∀ t, t + 2 ≤ L → row !! t = Some fzero)
    ∧ (∀ t, L ≤ t + 1 → t < max_target_len batch → row !! t = Some fone).

(** C5, amended. Whenever [__call__] returns a batch (it does on every
    well-formed batch), [mel_len] holds the mel lengths of the examples of
    the batch, row by row, and every row [i] whose example has [L >= 1] mel
    frames has a gate row of the batch width that is 0 on the frames
    [0 .. L-2] and 1 on the frames [L-1 .. max_len-1]. *)
Theorem gate_trailing_ones (batch : list (example F)) :
  (well_formed batch → ∃ out, __call__ batch = OK out)
  ∧ ∀ inputs al ctc, __call__ batch = OK (inputs, al, ctc) →
      ∃ es,
        es ≡ₚ batch
        ∧ mel_len inputs = mel_time <$> es
        ∧ ∀ i L, mel_len inputs !! i = Some L → 1 ≤ L →
            ∃ row, gate inputs !! i = Some row
              ∧ length row = max_target_len batch
              ∧ (∀ t, t + 2 ≤ L → row !! t = Some fzero)
              ∧ (∀ t, L ≤ t + 1 → t < max_target_len batch → row !! t = Some fone).
Proof.
  split; [apply call_returns|].
  intros inputs al ctc Hcall.
  destruct (call_OK_inv batch inputs al ctc Hcall)
    as (_ & es & Hperm & _ & _ & _ & Hmel & Hgate & _).
  exists es. do 2 (split; [done|]).
  intros i L Hi HL. rewrite Hmel, list_lookup_fmap in Hi.
  destruct (es !! i) as [e|] eqn:He; [|done]. simpl in Hi. simplify_eq.
  assert (mel_time e ≤ max_target_len batch) as HW.
  { apply foldr_max_le, list_elem_of_fmap. exists e. split; [done|].
    rewrite <-Hperm. by eapply list_elem_of_lookup_2. }
  exists (gate_row (max_target_len batch) (mel_time e)).
  split; [by rewrite Hgate, list_lookup_fmap, He|].
  rewrite gate_row_split by done.
  split; [rewrite length_app, !length_replicate; lia|]. split.
  - intros t Ht. rewrite lookup_app_l by (rewrite length_replicate; lia).
    apply lookup_replicate_2. lia.
  - intros t Ht HtW. rewrite lookup_app_r by (rewrite length_replicate; lia).
    apply lookup_replicate_2. rewrite length_replicate. lia.
Qed.

(** A batch in which an optional field is present in some examples and
    absent in others. *)
Definition mixed_presence {A} (field : example F → option A) (batch : list (example F)) : Prop :=
  (∃ e, e ∈ batch ∧ field e = None) ∧ (∃ e, e ∈ batch ∧ field e ≠ None).

(** Rejection of mixed batches: a batch with mixed presence of the alignment
    or of the auxiliary sequence makes [__call__] raise. *)
Definition rejects_mixed_presence (batch : list (example F)) : Prop :=
  mixed_presence alignment batch ∨ mixed_presence ctc_sequence batch →
  ∃ e, __call__ batch = Raise e.

(** C3, amended. [__call__] does not reject a batch for a missing optional
    field: it returns on every well-formed batch, mixed or not, and in a
    returned batch the alignment output is absent as a whole exactly when
    some example lacks its alignment, and the auxiliary output is absent as a
    whole exactly when some example lacks its auxiliary sequence. *)
Theorem missing_optional_field_omits_output (batch : list (example F)) :
  (well_formed batch → ∃ out, __call__ batch = OK out)
  ∧ ∀ inputs al ctc, __call__ batch = OK (inputs, al, ctc) →
      (al = None ↔ ∃ e, e ∈ batch ∧ alignment e = None)
      ∧ (ctc = None ↔ ∃ e, e ∈ batch ∧ ctc_sequence e = None).
Proof.
  split; [apply call_returns|].
  intros inputs al ctc Hcall.
  destruct (call_OK_inv batch inputs al ctc Hcall)
    as (_ & es & _ & _ & _ & _ & _ & _ & Hal & Hctc).
  by rewrite Hal, Hctc, lacks_alignment_true, lacks_ctc_true.
Qed.

End collate_claims.

(** ** TextMelLoader *)

Section loader_claims.
Import TextMelLoader.
Context {F : Type} {floats : Floats F} {services : Services F}.

(** C9. When the wav file is read and its sample rate differs from
    [sampling_rate], [get_audio] raises [ValueError]; so do [get_mel] when
    mels are computed from audio, and [get_data] raises without printing
    (from [get_text] if that fails first). *)
Theorem sample_rate_mismatch_raises (self : t F) filename trim_silence add_silence
    sample_rate audio :
  wavfile_read (path_join (audio_path self) filename) = OK (sample_rate, audio) →
  sample_rate ≠ sampling_rate self →
  get_audio self filename trim_silence add_silence = Raise ValueError
  ∧ (load_mel_from_disk self = false →
       get_mel self filename = Raise ValueError
       ∧ ∀ w text, ∃ e, get_data self w (filename, text) = ([], Raise e)).
Proof.
  intros Hread Hsr.
  assert (Haudio : ∀ tr ad, get_audio self filename tr ad = Raise ValueError).
  { intros tr ad. unfold get_audio. rewrite Hread, bind_OK.
    destruct (Z.eqb_spec sample_rate (sampling_rate self)); done. }
  split; [apply Haudio|].
  intros Hdisk.
  assert (Hmel : get_mel self filename = Raise ValueError).
  { unfold get_mel. by rewrite Hdisk, Haudio. }
  split; [done|].
  intros w text. unfold get_data.
  destruct (_get_sress_phonemes self w) as [stress phonemes].
  destruct (get_text self text stress phonemes) as [sequence|e]; [|by exists e].
  rewrite Hmel. by exists ValueError.
Qed.

(** C7. In alignment mode, when text, mel and the auxiliary sequence are
    obtained and the alignment that was loaded does not have the shape
    (mel frames, symbols), [get_data] raises nothing: it prints one
    diagnostic naming the expected and the loaded shape, and returns the
    example with a placeholder alignment whose shape is exactly
    (mel frames, symbols) and whose every cell is the float32 cast of zero,
    which is zero for a cast that keeps zero. *)
Theorem alignment_shape_mismatch_zero_filled (self : t F) w audio_name text
    symbols melspec frames a ctc :
  get_alignments self = true →
  word_level_prob self = false →
  add_silence self = false →
  get_text self text (_get_sress_phonemes self w).1 (_get_sress_phonemes self w).2 = OK symbols →
  get_mel self audio_name = OK melspec →
  size melspec 1 = OK frames →
  get_alignment self audio_name (_get_sress_phonemes self w).1 (_get_sress_phonemes self w).2
    = OK (Some a) →
  shape a ≠ [frames; length symbols] →
  (if use_mmi self then Some <$> get_ctc_text self symbols else OK None) = OK ctc →
  ∃ placeholder,
    get_data self w (audio_name, text)
    = ([SomeProblemsWith audio_name (frames, length symbols) (shape a)],
       OK {| sequence := symbols; mel := melspec;
             alignment := Some placeholder;
             ctc_sequence := ctc |})
    ∧ shape placeholder = [frames; length symbols]
    ∧ (∀ idx, item placeholder idx = float32 fzero)
    ∧ (float32 fzero = fzero → ∀ idx, item placeholder idx = fzero).
Proof.
  intros Hga Hwl Hsil Htext Hmel Hsize Hal Hshape Hctc.
  exists (float_tensor (zeros frames (length symbols))). split.
  - unfold get_data.
    destruct (_get_sress_phonemes self w) as [stress phonemes]. simpl in *.
    rewrite Htext, Hmel. unfold alignment_block.
    rewrite Hga, Hwl, Hsil, Hal, Hsize. simpl.
    rewrite bool_decide_true by done.
    by rewrite bind_OK, Hctc.
  - split; [reflexivity|]. split; [reflexivity|].
    intros Hzero idx. exact Hzero.
Qed.

(** C2. With a true phonemes flag [get_alignment] returns the absent value
    whatever the store holds.  In alignment mode [get_data] then does not
    return an example: building the message reads [alignment.shape] on the
    absent value, which raises [AttributeError] before anything is printed. *)
Theorem phoneme_alignment_absent_then_raises (self : t F) w audio_name text
    symbols melspec frames :
  (∀ name stress phonemes, truthy phonemes = true →
     get_alignment self name stress phonemes = OK None)
  ∧ (get_alignments self = true →
     word_level_prob self = false →
     add_silence self = false →
     truthy (_get_sress_phonemes self w).2 = true →
     get_text self text (_get_sress_phonemes self w).1 (_get_sress_phonemes self w).2
       = OK symbols →
     get_mel self audio_name = OK melspec →
     size melspec 1 = OK frames →
     get_data self w (audio_name, text) = ([], Raise AttributeError)).
Proof.
  assert (Hnone : ∀ name stress phonemes, truthy phonemes = true →
            get_alignment self name stress phonemes = OK None).
  { intros name stress phonemes Hph. unfold get_alignment. by rewrite Hph. }
  split; [done|].
  intros Hga Hwl Hsil Hph Htext Hmel Hsize.
  unfold get_data.
  destruct (_get_sress_phonemes self w) as [stress phonemes]. simpl in *.
  rewrite Htext, Hmel. unfold alignment_block.
  by rewrite Hga, Hwl, Hsil, (Hnone _ _ _ Hph), Hsize.
Qed.

End loader_claims.

(** * Concrete runs *)

(** ** Inputs *)

(** Two records whose transcripts have 1 and 20 symbols. *)
Definition two_records : list (string * string) :=
  [("a.wav", "a"); ("b.wav", "aaaaaaaaaaaaaaaaaaaa")]%string.

(** Four records with 3, 12, 5 and 30 symbols. *)
Definition four_records : list (string * string) :=
  [("a.wav", "abc"); ("b.wav", "abcdefghijkl"); ("c.wav", "abcde");
   ("d.wav", "abcdefghijklmnopqrstuvwxyzabcd")]%string.

(** A sampler holding the buckets [[0; 2; 1]] and [[3; 4]], batch size 2. *)
Definition bucketed_sampler : CustomSampler.t :=
  {| CustomSampler.optimize := true; CustomSampler.shuffle := true;
     CustomSampler.batchsize := 2;
     CustomSampler.optimized_idxs := [[0; 2; 1]; [3; 4]];
     CustomSampler.idxs := [0; 2; 1; 3; 4] |}.

Definition plain_sampler : CustomSampler.t :=
  {| CustomSampler.optimize := false; CustomSampler.shuffle := true;
     CustomSampler.batchsize := 2;
     CustomSampler.optimized_idxs := [];
     CustomSampler.idxs := [0; 1; 2; 3; 4] |}.

(** An array of the given shape whose cells are all 7. *)
Definition sevens (s : list nat) : ndarray Z := {| shape := s; item := λ _, 7%Z |}.

(** An example with [n] symbols and a two-channel mel of [frames] frames. *)
Definition sample_example (n frames : nat) (al : option (ndarray Z)) (ctc : option (list Z))
    : example Z :=
  {| sequence := replicate n 1%Z; mel := sevens [2; frames];
     alignment := al; ctc_sequence := ctc |}.

(** Symbol lengths 5, 3, 8 with 4, 6 and 2 mel frames. *)
Definition batch_5_3_8 : list (example Z) :=
  [sample_example 5 4 None None; sample_example 3 6 None None; sample_example 8 2 None None].

(** One example with an alignment, one without. *)
Definition mixed_batch : list (example Z) :=
  [sample_example 2 3 (Some (sevens [3; 2])) None; sample_example 1 2 None None].

(** One example whose mel has no frame, next to one with two frames. *)
Definition batch_with_empty_mel : list (example Z) :=
  [sample_example 1 0 None None; sample_example 2 2 None None].

(** A store in which every wav is sampled at 22050 Hz, every mel has 50
    frames, every text has 10 symbols and every alignment has shape (40, 10). *)
Definition store_services : Services Z :=
  {| path_join := λ a b, (a +:+ "/" +:+ b)%string;
     path_splitext := λ p, (p, ""%string);
     wavfile_read := λ _, OK (22050%Z, [0; 16384; -16384]%Z);
     np_load := λ _, OK (sevens [40; 10]);
     effects_split := λ a _ _ _, OK [(0, length a)];
     mel_spectrogram := λ _, OK (sevens [1; 80; 50]);
     text_to_sequence := λ _ _ _ _ _ _, OK (replicate 10 1%Z);
     Draw := bool;
     prob2bool := λ f d, match f with FlagBool b => b | FlagProb _ => d end |}.

(** A loader in alignment mode, by target sample rate and phonemes setting. *)
Definition sample_loader (rate : Z) (phon : bool) : TextMelLoader.t Z :=
  {| TextMelLoader.data := two_records;
     TextMelLoader.audio_path := "wavs"%string;
     TextMelLoader.alignment_path :=
       <["original"%string := "al/original"%string]>
         (<["stressed"%string := "al/stressed"%string]> ∅);
     TextMelLoader.add_silence := false;
     TextMelLoader.hop_length := 4;
     TextMelLoader.ft_window := 8;
     TextMelLoader.trim_silence := false;
     TextMelLoader.trim_top_db := 45%Z;
     TextMelLoader.text_cleaners := [];
     TextMelLoader.max_wav_value := 32768%Z;
     TextMelLoader.sampling_rate := rate;
     TextMelLoader.load_mel_from_disk := false;
     TextMelLoader.n_mel_channels := 80;
     TextMelLoader.get_alignments := true;
     TextMelLoader.word_level_prob := false;
     TextMelLoader.stress := FlagBool false;
     TextMelLoader.phonemes := FlagBool phon;
     TextMelLoader.dict_prime := false;
     TextMelLoader.id_to_symbol := ∅;
     TextMelLoader.use_mmi := false;
     TextMelLoader.ctc_symbol_to_id := None |}.

Lemma well_formed_intro {F} (batch : list (example F)) n :
  batch ≠ [] →
  Forall (λ e, shape (mel e) = [n; mel_time e]) batch →
  Forall (λ e, ∀ a, alignment e = Some a → shape a = [mel_time e; length (sequence e)]) batch →
  well_formed batch.
Proof.
  intros Hne Hmel Hal. split; [done|]. split.
  - exists n. intros e He. rewrite Forall_forall in Hmel. by apply Hmel.
  - intros _ e a He Ha. rewrite Forall_forall in Hal. by apply (Hal e He).
Qed.

(** ** The sampler on concrete data *)

(** C1. The buckets do not always cover the data set: on two records with 1
    and 20 symbols and [len_diff = 10] the second record opens a new window
    on the last iteration, the loop stores the bucket [[0]] and leaves
    [[1]] in [len_idxs] without storing it, so index 1 is in no bucket and
    the stored order is not a permutation of [0; 1]. *)
Theorem last_window_bucket_not_flushed :
  ∃ self,
    CustomSampler.__init__ (torch:=reference_torch) two_records 1 false true 10 0 = OK (self, 0)
    ∧ CustomSampler.optimized_idxs self = [[0]]
    ∧ CustomSampler.idxs self = [0]
    ∧ (1 ∉ concat (CustomSampler.optimized_idxs self))
    ∧ ¬ (concat (CustomSampler.optimized_idxs self) ≡ₚ seq 0 (length two_records)).
Proof.
  eexists. split; [vm_compute; reflexivity|]. simpl.
  split; [done|]. split; [done|]. split.
  - intros ?%list_elem_of_singleton. done.
  - intros Hp%Permutation_length. done.
Qed.

(** C8 on four records with 3, 12, 5 and 30 symbols and [len_diff = 10]. *)
Lemma bucket_span_below_len_diff_witness :
  ∃ self g',
    CustomSampler.__init__ (torch:=reference_torch) four_records 2 false true 10 0 = OK (self, g') ∧
    ∀ b, b ∈ CustomSampler.optimized_idxs self →
      (∀ i, i ∈ b → i < length four_records) ∧
      (length b = 1 ∨
       ∀ i j, i ∈ b → j ∈ b →
         (text_length four_records i - text_length four_records j < 10)%Z).
Proof.
  apply (bucket_span_below_len_diff (torch:=reference_torch)).
  - discriminate.
  - left. reflexivity.
Defined.

(** Five indices in the buckets and batch size 2: one index (here 0) is
    dropped by the regrouping. *)
Example reshuffle_bucketed_run :
  CustomSampler.reshuffle (torch:=reference_torch) bucketed_sampler 0
  = OK (set_idxs bucketed_sampler [1; 2; 4; 3], 4).
Proof. vm_compute. reflexivity. Qed.

(** ** The collator on concrete batches *)

Lemma batch_5_3_8_well_formed : well_formed batch_5_3_8.
Proof.
  apply (well_formed_intro _ 2); [discriminate| |];
    repeat constructor; intros a Ha; discriminate Ha.
Qed.

Lemma mixed_batch_well_formed : well_formed mixed_batch.
Proof.
  apply (well_formed_intro _ 2); [discriminate|repeat constructor|].
  repeat constructor; intros a Ha; simpl in Ha; by simplify_eq.
Qed.

(** C10 on the empty list and on a batch of three examples. *)
Lemma call_needs_non_empty_batch_witness :
  TextMelCollate.__call__ (floats:=integer_cells) (torch:=reference_torch) [] = Raise IndexError
  ∧ (∃ m, getitem (sort_descending (Torch:=reference_torch)
                     ((λ x, length (sequence x)) <$> batch_5_3_8)).1 0 = OK m)
  ∧ (∃ first, getitem batch_5_3_8 0 = OK first).
Proof.
  destruct (call_needs_non_empty_batch (floats:=integer_cells) (torch:=reference_torch))
    as (Hempty & _ & Hfirst).
  split; [exact Hempty|]. apply Hfirst. discriminate.
Defined.

(** C6 on a batch with symbol lengths 5, 3 and 8. *)
Lemma rows_sorted_by_length_descending_witness :
  ∃ inputs al ctc,
    TextMelCollate.__call__ (floats:=integer_cells) (torch:=reference_torch) batch_5_3_8
      = OK (inputs, al, ctc)
    ∧ TextMelCollate.text_len inputs = [8; 5; 3]
    ∧ ∃ es,
        es ≡ₚ batch_5_3_8
        ∧ TextMelCollate.text inputs
            = (λ e, text_row (max_input_len batch_5_3_8) (sequence e)) <$> es
        ∧ TextMelCollate.text_len inputs = (λ e, length (sequence e)) <$> es
        ∧ TextMelCollate.mel_len inputs = mel_time <$> es.
Proof.
  destruct (rows_sorted_by_length_descending (floats:=integer_cells) (torch:=reference_torch)
              batch_5_3_8) as [Hreturns Hrows].
  destruct (Hreturns batch_5_3_8_well_formed) as [[[inputs al] ctc] Hcall].
  destruct (Hrows inputs al ctc Hcall)
    as (_ & es & Hperm & Htext & Hlen & Hmel & _ & H538).
  exists inputs, al, ctc. split; [exact Hcall|]. split; [apply H538; reflexivity|].
  exists es. repeat split; assumption.
Defined.

(** Symbol lengths [5; 3; 8] come out as rows of 8, 5 and 3 symbols, with the
    mel lengths and the gate rows in the same order. *)
Example call_5_3_8_run :
  ∃ inputs al ctc,
    TextMelCollate.__call__ (floats:=integer_cells) (torch:=reference_torch) batch_5_3_8
      = OK (inputs, al, ctc)
    ∧ TextMelCollate.text_len inputs = [8; 5; 3]
    ∧ TextMelCollate.mel_len inputs = [2; 4; 6]
    ∧ TextMelCollate.text inputs
        = [[1; 1; 1; 1; 1; 1; 1; 1]; [1; 1; 1; 1; 1; 0; 0; 0]; [1; 1; 1; 0; 0; 0; 0; 0]]%Z
    ∧ TextMelCollate.gate inputs
        = [[0; 1; 1; 1; 1; 1]; [0; 0; 0; 1; 1; 1]; [0; 0; 0; 0; 0; 1]]%Z.
Proof. eexists _, _, _. split; [vm_compute; reflexivity|]. by simpl. Qed.

(** C5 as worded fails for an example without mel frames: [target_len - 1]
    is -1, the slice [-1:] is the last frame only, and the row is [[0; 1]]
    where the wording asks for ones on every frame. *)
Lemma gate_of_empty_mel_counterexample :
  ¬ gate_zeros_then_ones (floats:=integer_cells) (torch:=reference_torch) batch_with_empty_mel.
Proof.
  intros Hclaim.
  eassert (TextMelCollate.__call__ (floats:=integer_cells) (torch:=reference_torch)
             batch_with_empty_mel = OK (_, _, _)) as Hcall
    by (vm_compute; reflexivity).
  destruct (Hclaim _ _ _ Hcall 1 0 [0; 1]%Z eq_refl eq_refl) as [_ Hones].
  specialize (Hones 0 ltac:(lia) ltac:(vm_compute; lia)).
  discriminate Hones.
Qed.

(** C5, amended, on a batch whose examples have 4, 6 and 2 mel frames. *)
Lemma gate_trailing_ones_witness :
  ∃ inputs al ctc es,
    TextMelCollate.__call__ (floats:=integer_cells) (torch:=reference_torch) batch_5_3_8
      = OK (inputs, al, ctc)
    ∧ es ≡ₚ batch_5_3_8
    ∧ TextMelCollate.mel_len inputs = mel_time <$> es
    ∧ ∀ i L, TextMelCollate.mel_len inputs !! i = Some L → 1 ≤ L →
        ∃ row, TextMelCollate.gate inputs !! i = Some row
          ∧ length row = max_target_len batch_5_3_8
          ∧ (∀ t, t + 2 ≤ L → row !! t = Some 0%Z)
          ∧ (∀ t, L ≤ t + 1 → t < max_target_len batch_5_3_8 → row !! t = Some 1%Z).
Proof.
  destruct (gate_trailing_ones (floats:=integer_cells) (torch:=reference_torch) batch_5_3_8)
    as [Hreturns Hgate].
  destruct (Hreturns batch_5_3_8_well_formed) as [[[inputs al] ctc] Hcall].
  destruct (Hgate inputs al ctc Hcall) as (es & Hperm & Hmel & Hrows).
  exists inputs, al, ctc, es. repeat split; assumption.
Defined.

(** C3 as worded fails: a batch with one alignment present and one absent is
    collated, with the alignment output left out. *)
Lemma mixed_batch_is_collated_counterexample :
  ¬ rejects_mixed_presence (floats:=integer_cells) (torch:=reference_torch) mixed_batch.
Proof.
  intros Hclaim. destruct Hclaim as [e He].
  - left. split.
    + exists (sample_example 1 2 None None). split; [|done].
      apply list_elem_of_In. simpl. auto.
    + exists (sample_example 2 3 (Some (sevens [3; 2])) None). split; [|done].
      apply list_elem_of_In. simpl. auto.
  - vm_compute in He. discriminate He.
Qed.

(** C3, amended, on a batch with one alignment present and one absent. *)
Lemma missing_optional_field_omits_output_witness :
  ∃ inputs al ctc,
    TextMelCollate.__call__ (floats:=integer_cells) (torch:=reference_torch) mixed_batch
      = OK (inputs, al, ctc)
    ∧ al = None ∧ ctc = None.
Proof.
  destruct (missing_optional_field_omits_output (floats:=integer_cells) (torch:=reference_torch)
              mixed_batch) as [Hreturns Habsent].
  destruct (Hreturns mixed_batch_well_formed) as [[[inputs al] ctc] Hcall].
  destruct (Habsent inputs al ctc Hcall) as [Hal Hctc].
  exists inputs, al, ctc. split; [exact Hcall|]. split.
  - apply Hal. exists (sample_example 1 2 None None). split; [|reflexivity].
    apply list_elem_of_In. simpl. auto.
  - apply Hctc. exists (sample_example 1 2 None None). split; [|reflexivity].
    apply list_elem_of_In. simpl. auto.
Defined.

(** ** The loader on a concrete store *)

(** C9 on a wav sampled at 22050 Hz and a loader that expects 16000 Hz. *)
Lemma sample_rate_mismatch_raises_witness :
  TextMelLoader.get_audio (floats:=integer_cells) (services:=store_services)
    (sample_loader 16000 false) "a.wav" false false = Raise ValueError
  ∧ TextMelLoader.get_mel (floats:=integer_cells) (services:=store_services)
      (sample_loader 16000 false) "a.wav" = Raise ValueError
  ∧ ∀ w text, ∃ e,
      TextMelLoader.get_data (floats:=integer_cells) (services:=store_services)
        (sample_loader 16000 false) w ("a.wav"%string, text) = ([], Raise e).
Proof.
  destruct (sample_rate_mismatch_raises (floats:=integer_cells) (services:=store_services)
              (sample_loader 16000 false) "a.wav" false false 22050
              [0; 16384; -16384]%Z eq_refl) as [Haudio Hrest].
  - discriminate.
  - split; [exact Haudio|]. apply Hrest. reflexivity.
Defined.

(** C7 on a mel of 50 frames, 10 symbols and a stored alignment of shape
    (40, 10): the example carries an array of shape (50, 10) whose cells are
    all zero. *)
Lemma alignment_shape_mismatch_zero_filled_witness :
  ∃ melspec placeholder,
    shape melspec = [80; 50]
    ∧ TextMelLoader.get_data (floats:=integer_cells) (services:=store_services)
        (sample_loader 22050 false) (false, false) ("a.wav", "hello")%string
      = ([SomeProblemsWith "a.wav" (50, 10) [40; 10]],
         OK {| sequence := replicate 10 1%Z; mel := melspec;
               alignment := Some placeholder;
               ctc_sequence := None |})
    ∧ shape placeholder = [50; 10]
    ∧ (∀ idx, item placeholder idx = 0%Z).
Proof.
  destruct (alignment_shape_mismatch_zero_filled (floats:=integer_cells)
               (services:=store_services)
               (sample_loader 22050 false) (false, false) "a.wav" "hello"
               (replicate 10 1%Z) (squeeze0 (sevens [1; 80; 50])) 50 (sevens [40; 10]) None)
    as (placeholder & Hget & Hshape & _ & Hzero);
    [reflexivity..|discriminate|reflexivity|].
  eexists _, placeholder. split; [|split; [exact Hget|split; [exact Hshape|]]].
  - reflexivity.
  - apply Hzero. reflexivity.
Defined.

(** C2 on a loader in alignment mode with the phonemes flag set. *)
Lemma phoneme_alignment_absent_then_raises_witness :
  TextMelLoader.get_alignment (floats:=integer_cells) (services:=store_services)
    (sample_loader 22050 true) "a.wav" (FlagBool false) (FlagBool true) = OK None
  ∧ TextMelLoader.get_data (floats:=integer_cells) (services:=store_services)
      (sample_loader 22050 true) (false, false) ("a.wav", "hello")%string
    = ([], Raise AttributeError).
Proof.
  destruct (phoneme_alignment_absent_then_raises (floats:=integer_cells) (services:=store_services)
              (sample_loader 22050 true) (false, false) "a.wav" "hello"
              (replicate 10 1%Z)
              (squeeze0 (sevens [1; 80; 50])) 50) as [Hnone Hraise].
  split.
  - apply Hnone. reflexivity.
  - apply Hraise; reflexivity.
Defined.

(** * Further properties of the code *)

(** ** CustomSampler: the order the constructor stores *)

Lemma StronglySorted_lookup_lt {A} (R : A → A → Prop) (l : list A) p q a b :
  StronglySorted R l → p < q → l !! p = Some a → l !! q = Some b → R a b.
Proof.
  intros Hs. revert p q.
  induction Hs as [|x l Hs IH Hx]; intros p q Hpq Hp Hq; [done|].
  destruct q as [|q]; [lia|]. destruct p as [|p]; simpl in *.
  - simplify_eq. rewrite Forall_forall in Hx. apply Hx. by eapply list_elem_of_lookup_2.
  - eapply IH; [|done..]. lia.
Qed.

Lemma NoDup_prefix {A} (l k : list A) : NoDup (l ++ k) → NoDup l.
Proof. by intros (? & _ & _)%NoDup_app. Qed.

(** The order of Python's stable sort on (length, index) pairs whose indices
    increase: by length, and by index among equal lengths. *)
Definition by_length_then_index (a b : Z * nat) : Prop :=
  (a.1 < b.1)%Z ∨ (a.1 = b.1 ∧ a.2 < b.2).

Section sampler_order.
Import CustomSampler.
Context {torch : Torch}.

Lemma insert_by_key_sorted p l :
  Forall (λ q, p.2 < q.2) l →
  StronglySorted by_length_then_index l →
  StronglySorted by_length_then_index (insert_by_key p l).
Proof.
  intros Hp Hs. induction Hs as [|q l Hs IH Hq]; simpl.
  - repeat constructor.
  - apply Forall_cons in Hp as [Hpq Hp].
    destruct (Z.leb_spec p.1 q.1) as [Hle|Hlt].
    + constructor; [by constructor|].
      constructor; [unfold by_length_then_index; lia|].
      rewrite Forall_forall in Hq, Hp. apply Forall_forall. intros x Hx.
      specialize (Hq x Hx). specialize (Hp x Hx). unfold by_length_then_index in *. lia.
    + constructor; [by apply IH|].
      rewrite insert_by_key_perm. constructor; [unfold by_length_then_index; lia|done].
Qed.

Lemma sorted_by_key_sorted (ls : list Z) : ∀ k,
  StronglySorted by_length_then_index (sorted_by_key (zip ls (seq k (length ls)))).
Proof.
  induction ls as [|l ls IH]; intros k; simpl; [constructor|].
  apply insert_by_key_sorted; [|apply IH].
  apply Forall_forall. intros q Hq. fold (sorted_by_key (zip ls (seq (S k) (length ls)))) in Hq.
  rewrite sorted_by_key_perm in Hq.
  apply list_elem_of_lookup_1 in Hq as [j Hj].
  apply lookup_zip_with_Some in Hj as (x & y & -> & _ & Hy).
  apply lookup_seq in Hy as [-> _]. simpl. lia.
Qed.

(** The buckets, flattened, are a prefix of the sorted indices that misses
    at most the last one. *)
Lemma build_buckets_prefix data len_diff :
  data ≠ [] →
  ∃ buckets,
    build_buckets data len_diff = OK buckets
    ∧ (concat buckets = (sorted_by_key (zip (text_lengths data) (seq 0 (length data)))).*2
       ∨ ∃ last, concat buckets ++ [last]
                 = (sorted_by_key (zip (text_lengths data) (seq 0 (length data)))).*2).
Proof.
  intros Hdata. unfold build_buckets.
  set (pairs := sorted_by_key (zip (text_lengths data) (seq 0 (length data)))).
  assert (Hlen : length pairs = length data).
  { unfold pairs. rewrite sorted_by_key_perm, length_zip, length_seq.
    unfold text_lengths. rewrite length_map. lia. }
  destruct pairs as [|first pairs'] eqn:Hpairs.
  { destruct data; [done|]. discriminate Hlen. }
  eexists. split; [reflexivity|]. cbn beta. rewrite <-Hpairs.
  apply (bucket_loop_cover (length pairs) len_diff pairs 0 _ []); [done|by rewrite Hpairs|done].
Qed.

Lemma sorted_pairs_indices data :
  (sorted_by_key (zip (text_lengths data) (seq 0 (length data)))).*2 ≡ₚ seq 0 (length data).
Proof.
  rewrite sorted_by_key_perm.
  rewrite snd_zip; [done|]. unfold text_lengths. rewrite length_map, length_seq. lia.
Qed.

Lemma sorted_pairs_lengths data p :
  p ∈ sorted_by_key (zip (text_lengths data) (seq 0 (length data))) →
  p.1 = text_length data p.2.
Proof.
  destruct p as [l i]. rewrite sorted_by_key_perm. intros Hp.
  unfold text_length. unfold text_lengths in *.
  rewrite <-(length_map (λ elem, Z.of_nat (String.length elem.2))) in Hp.
  apply zip_seq_lookup in Hp. simpl. by rewrite Hp.
Qed.

End sampler_order.

(** The batch-sized chunks [reshuffle] cuts from the flattened buckets. *)
Definition batches_of (flat : list nat) (batchsize : Z) : list (list nat) :=
  map (λ i : nat, py_slice flat (Z.of_nat i * batchsize) ((Z.of_nat i + 1) * batchsize))
      (CustomSampler.range (Z.of_nat (length flat) / batchsize)).

(** The orders yielded by [n] consecutive full passes over [__iter__], up to
    the first pass whose closing [reshuffle] raises. *)
Fixpoint passes {torch : Torch} (n : nat) (self : CustomSampler.t) (g : Generator)
    : list (list nat) :=
  match n with
  | 0 => []
  | S n' =>
      let '(yielded, next) := CustomSampler.__iter__ self g in
      yielded :: match next with
                 | OK (self', g') => passes n' self' g'
                 | Raise _ => []
                 end
  end.

(** A sampler state over a data set of [N] records whose order and buckets
    hold valid indices, each at most once. *)
Definition sound (N : nat) (self : CustomSampler.t) : Prop :=
  NoDup (CustomSampler.idxs self)
  ∧ (∀ i, i ∈ CustomSampler.idxs self → i < N)
  ∧ NoDup (concat (CustomSampler.optimized_idxs self))
  ∧ (∀ i, i ∈ concat (CustomSampler.optimized_idxs self) → i < N).

Section sampler_more.
Import CustomSampler.
Context {torch : Torch}.

Lemma batches_of_positive flat (b : nat) :
  0 < b →
  batches_of flat (Z.of_nat b)
  = map (λ i, take b (drop (i * b) flat)) (seq 0 (length flat / b)).
Proof.
  intros Hb. unfold batches_of, range.
  replace (Z.to_nat (Z.of_nat (length flat) / Z.of_nat b)) with (length flat / b)
    by (rewrite <-Nat2Z.inj_div; lia).
  apply map_ext_in. intros i Hi%in_seq.
  apply py_slice_chunk; [done|].
  pose proof (Nat.Div0.mul_div_le (length flat) b). nia.
Qed.

Lemma batches_of_none flat batchsize :
  (batchsize < 0 ∨ Z.of_nat (length flat) < batchsize)%Z → batches_of flat batchsize = [].
Proof.
  intros Hb. unfold batches_of, range.
  replace (Z.to_nat (Z.of_nat (length flat) / batchsize)) with 0; [done|].
  destruct Hb as [Hneg|Hbig].
  - pose proof (Z.div_mod (Z.of_nat (length flat)) batchsize ltac:(lia)).
    pose proof (Z.mod_neg_bound (Z.of_nat (length flat)) batchsize Hneg).
    assert (Z.of_nat (length flat) / batchsize ≤ 0)%Z by nia. lia.
  - rewrite Z.div_small by lia. done.
Qed.

End sampler_more.

Section sampler_extras.
Import CustomSampler.
Context {torch : Torch}.

Lemma reshuffle_zero_batchsize self g :
  optimize self = true → batchsize self = 0%Z → reshuffle self g = Raise ZeroDivisionError.
Proof.
  intros Hopt Hb. unfold reshuffle. rewrite Hopt.
  destruct (shuffle_each_ok (optimized_idxs self) g) as (inner & g1 & -> & _). simpl.
  destruct (torch_shuffle_ok inner g1) as (outer & g2 & -> & _). simpl.
  unfold floordiv. by rewrite Hb.
Qed.

(** The steps of [reshuffle] with bucketing: [inner] are the buckets shuffled
    inside, [outer] the same in a new order, and the new order is the
    concatenation of the batch-sized chunks of [concat outer] in a new order. *)
Lemma reshuffle_chunks self g :
  optimize self = true → batchsize self ≠ 0%Z →
  ∃ inner outer chunks' g',
    reshuffle self g = OK (set_idxs self (concat chunks'), g')
    ∧ Forall2 (≡ₚ) inner (optimized_idxs self)
    ∧ outer ≡ₚ inner
    ∧ chunks' ≡ₚ batches_of (concat outer) (batchsize self).
Proof.
  intros Hopt Hb. unfold reshuffle. rewrite Hopt.
  destruct (shuffle_each_ok (optimized_idxs self) g) as (inner & g1 & -> & Hinner). simpl.
  destruct (torch_shuffle_ok inner g1) as (outer & g2 & -> & Houter). simpl.
  unfold floordiv. destruct (Z.eqb_spec (batchsize self) 0) as [|_]; [done|]. simpl.
  match goal with |- context [_torch_shuffle ?c g2] =>
    destruct (torch_shuffle_ok c g2) as (chunks' & g3 & -> & Hchunks) end.
  simpl. exists inner, outer, chunks', g3.
  split; [by unfold set_idxs; rewrite Hopt|]. done.
Qed.

Lemma batches_of_concat flat batchsize :
  batchsize ≠ 0%Z → ∃ m, concat (batches_of flat batchsize) = take m flat.
Proof.
  intros Hb. destruct (Z.ltb_spec batchsize 0) as [Hneg|Hpos].
  - exists 0. rewrite batches_of_none by lia. by rewrite take_0.
  - exists (length flat / Z.to_nat batchsize * Z.to_nat batchsize).
    replace batchsize with (Z.of_nat (Z.to_nat batchsize)) at 1 by lia.
    rewrite batches_of_positive by lia. apply chunks_concat.
Qed.



Lemma reshuffle_sound N self g self' g' :
  sound N self → reshuffle self g = OK (self', g') → sound N self'.
Proof.
  intros (Hnd & Hin & Hbnd & Hbin) Hre.
  destruct (optimize self) eqn:Hopt.
  - destruct (decide (batchsize self = 0%Z)) as [Hz|Hnz].
    { by rewrite reshuffle_zero_batchsize in Hre. }
    destruct (reshuffle_chunks self g Hopt Hnz)
      as (inner & outer & chunks' & g'' & Hre' & Hinner & Houter & Hchunks).
    rewrite Hre' in Hre. injection Hre as <- <-.
    destruct (batches_of_concat (concat outer) (batchsize self) Hnz) as [m Hm].
    assert (Hflat : concat outer ≡ₚ concat (optimized_idxs self)).
    { rewrite (concat_perm _ _ Houter). by apply concat_Forall2_perm. }
    assert (Hsub : concat chunks' ≡ₚ take m (concat outer)).
    { by rewrite (concat_perm _ _ Hchunks), Hm. }
    split; [|split; [|done]]; simpl.
    + rewrite Hsub. apply (NoDup_prefix _ (drop m (concat outer))).
      by rewrite take_drop, Hflat.
    + intros i Hi. rewrite Hsub in Hi. apply Hbin. rewrite <-Hflat.
      rewrite <-(take_drop m (concat outer)). apply elem_of_app. by left.
  - destruct (reshuffle_plain self g Hopt) as (idxs' & g'' & Hre' & Hperm).
    rewrite Hre' in Hre. injection Hre as <- <-.
    split; [|split; [|done]]; simpl.
    + by rewrite Hperm.
    + intros i Hi. rewrite Hperm in Hi. by apply Hin.
Qed.

Lemma build_buckets_sound data len_diff buckets :
  build_buckets data len_diff = OK buckets →
  data ≠ []
  ∧ NoDup (concat buckets)
  ∧ (∀ i, i ∈ concat buckets → i < length data)
  ∧ length data ≤ length (concat buckets) + 1.
Proof.
  intros Hb.
  assert (Hdata : data ≠ []) by (by intros ->).
  split; [done|].
  destruct (build_buckets_prefix data len_diff Hdata) as (buckets' & Hb' & Hpre).
  rewrite Hb in Hb'. injection Hb' as <-.
  pose proof (sorted_pairs_indices data) as Hperm.
  assert (Hnd : NoDup ((sorted_by_key (zip (text_lengths data) (seq 0 (length data)))).*2)).
  { rewrite Hperm. apply NoDup_seq. }
  assert (Hlen := Permutation_length Hperm). rewrite length_seq in Hlen.
  destruct Hpre as [Heq | [last Heq]]; rewrite <-Heq in *.
  - split; [done|]. split; [|lia].
    intros i Hi. rewrite Hperm in Hi. apply elem_of_seq in Hi. lia.
  - split; [by eapply NoDup_prefix|]. split.
    + intros i Hi. assert (i ∈ concat buckets ++ [last]) as Hi' by (apply elem_of_app; by left).
      rewrite Hperm in Hi'. apply elem_of_seq in Hi'. lia.
    + rewrite length_app in Hlen. simpl in Hlen. lia.
Qed.

Lemma init_sound data batchsize shuffle optimize len_diff g self g' :
  __init__ data batchsize shuffle optimize len_diff g = OK (self, g') →
  sound (length data) self.
Proof.
  unfold __init__. intros Hinit.
  apply bind_OK_inv in Hinit as (buckets & Hbuckets & Hinit).
  match type of Hinit with (if shuffle then reshuffle ?s g else _) = _ =>
    assert (sound (length data) s) as Hs end.
  { destruct optimize.
    - apply build_buckets_sound in Hbuckets as (_ & Hnd & Hin & _). by repeat split.
    - injection Hbuckets as <-. repeat split; simpl; try by (apply NoDup_nil || apply NoDup_seq).
      + intros i Hi%elem_of_seq. lia.
      + by intros i ?%elem_of_nil. }
  destruct shuffle.
  - by eapply reshuffle_sound.
  - by injection Hinit as <- <-.
Qed.

Lemma passes_sound N n : ∀ self g yielded,
  sound N self → yielded ∈ passes n self g →
  NoDup yielded ∧ ∀ i, i ∈ yielded → i < N.
Proof.
  induction n as [|n IH]; intros self g yielded Hs Hy; simpl in Hy.
  { by apply elem_of_nil in Hy. }
  apply elem_of_cons in Hy as [->|Hy].
  { destruct Hs as (? & ? & _). done. }
  destruct (shuffle self).
  - destruct (reshuffle self g) as [[self' g']|] eqn:Hre; [|by apply elem_of_nil in Hy].
    eapply IH; [|done]. by eapply reshuffle_sound.
  - by eapply IH.
Qed.

(** X1. Without bucketing the constructor never fails, stores no bucket, and
    its order is a permutation of [0 .. N-1] ([range(N)] itself when
    [shuffle] is off); [__len__] is [N]. *)
Theorem plain_construction_is_permutation data batchsize shuffle len_diff g :
  ∃ self g',
    __init__ data batchsize shuffle false len_diff g = OK (self, g')
    ∧ idxs self ≡ₚ seq 0 (length data)
    ∧ __len__ self = length data
    ∧ optimized_idxs self = []
    ∧ (shuffle = false → idxs self = seq 0 (length data) ∧ g' = g).
Proof.
  unfold __init__. simpl. destruct shuffle.
  - match goal with |- context [reshuffle ?s g] =>
      destruct (reshuffle_plain s g eq_refl) as (idxs' & g' & -> & Hperm) end.
    simpl in Hperm. eexists _, g'. split; [reflexivity|]. simpl.
    split; [done|]. split; [|done].
    unfold __len__. simpl. by rewrite Hperm, length_seq.
  - eexists _, g. split; [done|]. simpl. unfold __len__. simpl.
    by rewrite length_seq.
Qed.

(** X2. With bucketing, on a non-empty data set, the stored buckets hold
    only indices of the data set, no index twice, and all of them except at
    most one; with [shuffle] off the stored order is the buckets flattened. *)
Theorem buckets_hold_each_index_at_most_once data batchsize shuffle len_diff g :
  data ≠ [] → shuffle = false ∨ batchsize ≠ 0%Z →
  ∃ self g',
    __init__ data batchsize shuffle true len_diff g = OK (self, g')
    ∧ NoDup (concat (optimized_idxs self))
    ∧ (∀ i, i ∈ concat (optimized_idxs self) → i < length data)
    ∧ length data ≤ length (concat (optimized_idxs self)) + 1
    ∧ (shuffle = false → idxs self = concat (optimized_idxs self)).
Proof.
  intros Hdata Hb.
  destruct (init_succeeds data batchsize shuffle true len_diff g) as (self & g' & Hinit & Hbk).
  { done. }
  { intros -> _. by destruct Hb. }
  exists self, g'. split; [done|].
  apply build_buckets_sound in Hbk as (_ & Hnd & Hin & Hlen).
  do 3 (split; [done|]).
  intros ->. unfold __init__ in Hinit.
  apply bind_OK_inv in Hinit as (buckets & _ & Hinit). by injection Hinit as <- <-.
Qed.

(** X3. With bucketing, the buckets flattened list the indices by ascending
    transcript length, and by ascending index among equal lengths. *)
Theorem buckets_ascend_by_length data batchsize shuffle len_diff g :
  data ≠ [] → shuffle = false ∨ batchsize ≠ 0%Z →
  ∃ self g',
    __init__ data batchsize shuffle true len_diff g = OK (self, g')
    ∧ ∀ p q i j, p < q →
        concat (optimized_idxs self) !! p = Some i →
        concat (optimized_idxs self) !! q = Some j →
        (text_length data i < text_length data j)%Z
        ∨ (text_length data i = text_length data j ∧ i < j).
Proof.
  intros Hdata Hb.
  destruct (init_succeeds data batchsize shuffle true len_diff g) as (self & g' & Hinit & Hbk).
  { done. }
  { intros -> _. by destruct Hb. }
  exists self, g'. split; [done|].
  destruct (build_buckets_prefix data len_diff Hdata) as (buckets & Hb' & Hpre).
  rewrite Hb' in Hbk. injection Hbk as <-.
  set (pairs := sorted_by_key (zip (text_lengths data) (seq 0 (length data)))) in *.
  assert (Hlook : ∀ p i, concat buckets !! p = Some i → pairs.*2 !! p = Some i).
  { intros p i Hp. destruct Hpre as [<-|[last <-]]; [done|]. by apply lookup_app_l_Some. }
  intros p q i j Hpq Hp%Hlook Hq%Hlook.
  rewrite list_lookup_fmap in Hp, Hq.
  destruct (pairs !! p) as [a|] eqn:Ha; [|done].
  destruct (pairs !! q) as [b|] eqn:Hb''; [|done].
  simpl in Hp, Hq. simplify_eq.
  assert (by_length_then_index a b) as Hab.
  { eapply (StronglySorted_lookup_lt _ pairs p q); [|done..].
    unfold pairs. rewrite <-(length_map (λ elem, Z.of_nat (String.length elem.2)) data).
    apply sorted_by_key_sorted. }
  unfold by_length_then_index in Hab.
  rewrite (sorted_pairs_lengths data a), (sorted_pairs_lengths data b) in Hab
    by (by eapply list_elem_of_lookup_2).
  done.
Qed.

(** X4. With bucketing, the constructor raises [IndexError] exactly on an
    empty data set (at [lengths_idxs_pairs[0]]), whatever the other
    arguments. *)
Theorem bucketing_raises_index_error_iff_empty data batchsize shuffle len_diff g :
  __init__ data batchsize shuffle true len_diff g = Raise IndexError ↔ data = [].
Proof.
  split; [|by intros ->].
  intros Hraise. destruct (decide (data = [])) as [|Hdata]; [done|]. exfalso.
  destruct (decide (shuffle = true ∧ batchsize = 0%Z)) as [[-> ->]|Hok].
  - unfold __init__ in Hraise.
    destruct (build_buckets_ok data len_diff Hdata) as (buckets & Hb & _).
    rewrite Hb, bind_OK in Hraise.
    by rewrite reshuffle_zero_batchsize in Hraise.
  - destruct (init_succeeds data batchsize shuffle true len_diff g) as (self & g' & Hinit & _).
    + done.
    + intros -> _ ->. by apply Hok.
    + by rewrite Hinit in Hraise.
Qed.

(** X5. With bucketing and a batch size of 0, [reshuffle] raises
    [ZeroDivisionError]: so does the constructor with [shuffle] on a
    non-empty data set, and a pass over [__iter__] yields the stored order
    and then raises. *)
Theorem zero_batchsize_raises self g :
  optimize self = true → batchsize self = 0%Z →
  reshuffle self g = Raise ZeroDivisionError
  ∧ (shuffle self = true → __iter__ self g = (idxs self, Raise ZeroDivisionError))
  ∧ ∀ data len_diff, data ≠ [] →
      __init__ data 0 true true len_diff g = Raise ZeroDivisionError.
Proof.
  intros Hopt Hb. split; [by apply reshuffle_zero_batchsize|]. split.
  - intros Hsh. unfold __iter__. by rewrite Hsh, reshuffle_zero_batchsize.
  - intros data len_diff Hdata. unfold __init__.
    destruct (build_buckets_ok data len_diff Hdata) as (buckets & -> & _).
    rewrite bind_OK. by apply reshuffle_zero_batchsize.
Qed.


(** X7. With bucketing, a batch size that is negative or larger than the
    number of indices in the buckets leaves the sampler with an empty order:
    nothing is yielded on the next pass. *)
Theorem reshuffle_without_whole_batch_is_empty self g :
  optimize self = true →
  (batchsize self < 0 ∨ Z.of_nat (length (concat (optimized_idxs self))) < batchsize self)%Z →
  ∃ g', reshuffle self g = OK (set_idxs self [], g').
Proof.
  intros Hopt Hb.
  destruct (reshuffle_chunks self g Hopt ltac:(lia))
    as (inner & outer & chunks' & g' & Hre & Hinner & Houter & Hchunks).
  exists g'. rewrite Hre. do 3 f_equal.
  assert (length (concat outer) = length (concat (optimized_idxs self))) as Hlen.
  { apply Permutation_length. rewrite (concat_perm _ _ Houter). by apply concat_Forall2_perm. }
  rewrite batches_of_none in Hchunks by (rewrite Hlen; lia).
  by apply Permutation_nil_r in Hchunks as ->.
Qed.

(** X8. Whatever the flags, once the constructor has returned, every pass
    over [__iter__] (each followed by its [reshuffle] when [shuffle] is on)
    yields indices of the data set only, and no index twice in one pass. *)
Theorem every_pass_yields_valid_indices_once data batchsize shuffle optimize len_diff
    g self g1 n yielded :
  __init__ data batchsize shuffle optimize len_diff g = OK (self, g1) →
  yielded ∈ passes n self g1 →
  NoDup yielded ∧ ∀ i, i ∈ yielded → i < length data.
Proof.
  intros Hinit Hy. eapply passes_sound; [|done]. by eapply init_sound.
Qed.

End sampler_extras.

(** ** CustomSampler: what one reshuffle keeps *)

Section sampler_reshuffle.
Import CustomSampler.
Context {torch : Torch}.

(** C4 as worded, for a sampler with bucketing: the call returns a new order,
    and the new order together with [L mod batchsize] dropped indices, [L]
    being the number of indices in the buckets, is the multiset of the
    buckets. *)
Definition drops_remainder_only (self : t) (g : Generator) : Prop :=
  ∃ idxs' dropped g',
    reshuffle self g = OK (set_idxs self idxs', g')
    ∧ Z.of_nat (length dropped)
      = (Z.of_nat (length (concat (optimized_idxs self))) mod batchsize self)%Z
    ∧ idxs' ++ dropped ≡ₚ concat (optimized_idxs self).

(** C4, amended.  One [reshuffle] call, for every sampler state.  Without
    bucketing the new order is a permutation of the old one.  With bucketing,
    the list that is regrouped into batches is [concat outer], where [outer]
    is the stored buckets, each permuted ([inner]), in a permuted order; it
    holds the indices of the buckets, [L] of them.  For a positive batch
    size the new order is a permutation of its first [L - L mod batchsize]
    entries: exactly its [L mod batchsize] trailing entries are dropped.  For
    batch size 0 the call raises [ZeroDivisionError], and for a negative
    batch size every index is dropped.  The buckets and the flags are
    unchanged. *)
Theorem reshuffle_preserves_multiset self g :
  (optimize self = false →
     ∃ idxs' g', reshuffle self g = OK (set_idxs self idxs', g') ∧ idxs' ≡ₚ idxs self)
  ∧ (optimize self = true → (0 < batchsize self)%Z →
     ∃ inner outer idxs' g',
       let flat := concat outer in
       let L := length flat in
       let dropped := Z.to_nat (Z.of_nat L mod batchsize self) in
       reshuffle self g = OK (set_idxs self idxs', g')
       ∧ Forall2 (≡ₚ) inner (optimized_idxs self)
       ∧ outer ≡ₚ inner
       ∧ flat ≡ₚ concat (optimized_idxs self)
       ∧ idxs' ≡ₚ take (L - dropped) flat
       ∧ idxs' ++ drop (L - dropped) flat ≡ₚ concat (optimized_idxs self)
       ∧ length (drop (L - dropped) flat) = dropped
       ∧ length idxs' = L - dropped)
  ∧ (optimize self = true → batchsize self = 0%Z →
     reshuffle self g = Raise ZeroDivisionError)
  ∧ (optimize self = true → (batchsize self < 0)%Z →
     ∃ g', reshuffle self g = OK (set_idxs self [], g')).
Proof.
  split; [apply reshuffle_plain|]. split; [|split].
  - intros Hopt Hpos.
    destruct (reshuffle_chunks self g Hopt ltac:(lia))
      as (inner & outer & chunks' & g' & Hre & Hinner & Houter & Hchunks).
    exists inner, outer, (concat chunks'), g'. cbn zeta.
    set (flat := concat outer) in *. set (L := length flat).
    set (b := Z.to_nat (batchsize self)).
    assert (Hflat : flat ≡ₚ concat (optimized_idxs self)).
    { unfold flat. rewrite (concat_perm _ _ Houter). by apply concat_Forall2_perm. }
    replace (batchsize self) with (Z.of_nat b) in * by (unfold b; lia).
    assert (Hb : 0 < b) by lia.
    rewrite batches_of_positive in Hchunks by done.
    apply concat_perm in Hchunks. rewrite chunks_concat in Hchunks. fold L in Hchunks.
    assert (Hdrop : Z.to_nat (Z.of_nat L mod Z.of_nat b) = L mod b).
    { rewrite <-Nat2Z.inj_mod. apply Nat2Z.id. }
    rewrite Hdrop.
    assert (Hkb : L / b * b = L - L mod b).
    { pose proof (Nat.div_mod_eq L b). lia. }
    rewrite Hkb in Hchunks.
    pose proof (Nat.mod_upper_bound L b ltac:(lia)) as Hmod.
    pose proof (Nat.Div0.mod_le L b) as Hle.
    do 5 (split; [done|]). split; [|split].
    + by rewrite Hchunks, take_drop.
    + rewrite length_drop. fold L. lia.
    + rewrite Hchunks, length_take. fold L. lia.
  - apply reshuffle_zero_batchsize.
  - intros Hopt Hneg.
    destruct (reshuffle_chunks self g Hopt ltac:(lia))
      as (inner & outer & chunks' & g' & Hre & _ & _ & Hchunks).
    exists g'. rewrite Hre. do 3 f_equal.
    rewrite batches_of_none in Hchunks by (by left).
    by apply Permutation_nil_r in Hchunks as ->.
Qed.

End sampler_reshuffle.

(** ** The sampler properties on concrete data sets *)

(** The sampler of [bucketed_sampler] with another batch size. *)
Definition bucketed_sampler_of (batchsize : Z) : CustomSampler.t :=
  {| CustomSampler.optimize := true; CustomSampler.shuffle := true;
     CustomSampler.batchsize := batchsize;
     CustomSampler.optimized_idxs := [[0; 2; 1]; [3; 4]];
     CustomSampler.idxs := [0; 2; 1; 3; 4] |}.

(** C4, amended: a sampler without buckets; one with the buckets
    [[0; 2; 1]] and [[3; 4]] and batch size 2; the same with batch sizes 0
    and -2. *)
Lemma reshuffle_preserves_multiset_witness :
  (∃ idxs' g',
     CustomSampler.reshuffle (torch:=reference_torch) plain_sampler 0
       = OK (set_idxs plain_sampler idxs', g')
     ∧ idxs' ≡ₚ CustomSampler.idxs plain_sampler)
  ∧ (∃ inner outer idxs' g',
       let flat := concat outer in
       let L := length flat in
       let dropped := Z.to_nat (Z.of_nat L mod CustomSampler.batchsize bucketed_sampler) in
       CustomSampler.reshuffle (torch:=reference_torch) bucketed_sampler 0
         = OK (set_idxs bucketed_sampler idxs', g')
       ∧ Forall2 (≡ₚ) inner (CustomSampler.optimized_idxs bucketed_sampler)
       ∧ outer ≡ₚ inner
       ∧ flat ≡ₚ concat (CustomSampler.optimized_idxs bucketed_sampler)
       ∧ idxs' ≡ₚ take (L - dropped) flat
       ∧ idxs' ++ drop (L - dropped) flat
           ≡ₚ concat (CustomSampler.optimized_idxs bucketed_sampler)
       ∧ length (drop (L - dropped) flat) = dropped
       ∧ length idxs' = L - dropped)
  ∧ CustomSampler.reshuffle (torch:=reference_torch) (bucketed_sampler_of 0) 0
      = Raise ZeroDivisionError
  ∧ (∃ g', CustomSampler.reshuffle (torch:=reference_torch) (bucketed_sampler_of (-2)) 0
             = OK (set_idxs (bucketed_sampler_of (-2)) [], g')).
Proof.
  split; [|split; [|split]].
  - apply (proj1 (reshuffle_preserves_multiset (torch:=reference_torch) plain_sampler 0)).
    reflexivity.
  - apply (proj1 (proj2 (reshuffle_preserves_multiset (torch:=reference_torch)
                           bucketed_sampler 0))).
    + reflexivity.
    + reflexivity.
  - apply (proj1 (proj2 (proj2 (reshuffle_preserves_multiset (torch:=reference_torch)
                                  (bucketed_sampler_of 0) 0)))).
    + reflexivity.
    + reflexivity.
  - apply (proj2 (proj2 (proj2 (reshuffle_preserves_multiset (torch:=reference_torch)
                                  (bucketed_sampler_of (-2)) 0)))).
    + reflexivity.
    + reflexivity.
Defined.

(** C4 as worded fails for batch sizes that are not positive.  With the
    buckets [[0; 2; 1]] and [[3; 4]] and batch size -2 the call returns the
    empty order: all five indices are dropped, where 5 mod -2 is -1.  With
    batch size 0 the call does not return. *)
Lemma reshuffle_drops_everything_counterexample :
  ¬ drops_remainder_only (torch:=reference_torch) (bucketed_sampler_of (-2)) 0
  ∧ ¬ drops_remainder_only (torch:=reference_torch) (bucketed_sampler_of 0) 0.
Proof.
  split.
  - intros (idxs' & dropped & g' & Hre & Hlen & Hperm).
    eassert (CustomSampler.reshuffle (torch:=reference_torch) (bucketed_sampler_of (-2)) 0
             = OK (set_idxs (bucketed_sampler_of (-2)) [], _)) as Hrun
      by (vm_compute; reflexivity).
    rewrite Hrun in Hre. injection Hre as <- _.
    apply Permutation_length in Hperm. simpl in Hperm.
    rewrite Hperm in Hlen. vm_compute in Hlen. discriminate Hlen.
  - intros (idxs' & dropped & g' & Hre & _).
    assert (CustomSampler.reshuffle (torch:=reference_torch) (bucketed_sampler_of 0) 0
            = Raise ZeroDivisionError) as Hrun
      by (vm_compute; reflexivity).
    rewrite Hrun in Hre. discriminate Hre.
Qed.

Lemma buckets_hold_each_index_at_most_once_witness :
  ∃ self g',
    CustomSampler.__init__ (torch:=reference_torch) four_records 2 true true 10 0 = OK (self, g')
    ∧ NoDup (concat (CustomSampler.optimized_idxs self))
    ∧ (∀ i, i ∈ concat (CustomSampler.optimized_idxs self) → i < length four_records)
    ∧ length four_records ≤ length (concat (CustomSampler.optimized_idxs self)) + 1
    ∧ (true = false → CustomSampler.idxs self = concat (CustomSampler.optimized_idxs self)).
Proof.
  apply (buckets_hold_each_index_at_most_once (torch:=reference_torch) four_records 2 true 10 0).
  - discriminate.
  - right. discriminate.
Defined.

Lemma buckets_ascend_by_length_witness :
  ∃ self g',
    CustomSampler.__init__ (torch:=reference_torch) four_records 2 false true 10 0 = OK (self, g')
    ∧ ∀ p q i j, p < q →
        concat (CustomSampler.optimized_idxs self) !! p = Some i →
        concat (CustomSampler.optimized_idxs self) !! q = Some j →
        (text_length four_records i < text_length four_records j)%Z
        ∨ (text_length four_records i = text_length four_records j ∧ i < j).
Proof.
  apply (buckets_ascend_by_length (torch:=reference_torch) four_records 2 false 10 0).
  - discriminate.
  - left. reflexivity.
Defined.

Lemma zero_batchsize_raises_witness :
  CustomSampler.reshuffle (torch:=reference_torch) (bucketed_sampler_of 0) 0
    = Raise ZeroDivisionError
  ∧ (CustomSampler.shuffle (bucketed_sampler_of 0) = true →
     CustomSampler.__iter__ (torch:=reference_torch) (bucketed_sampler_of 0) 0
       = (CustomSampler.idxs (bucketed_sampler_of 0), Raise ZeroDivisionError))
  ∧ ∀ data len_diff, data ≠ [] →
      CustomSampler.__init__ (torch:=reference_torch) data 0 true true len_diff 0
        = Raise ZeroDivisionError.
Proof.
  apply (zero_batchsize_raises (torch:=reference_torch) (bucketed_sampler_of 0) 0);
    reflexivity.
Defined.


Lemma reshuffle_without_whole_batch_is_empty_witness :
  ∃ g', CustomSampler.reshuffle (torch:=reference_torch) (bucketed_sampler_of 7) 0
          = OK (set_idxs (bucketed_sampler_of 7) [], g').
Proof.
  apply (reshuffle_without_whole_batch_is_empty (torch:=reference_torch)
           (bucketed_sampler_of 7) 0).
  - reflexivity.
  - right. simpl. lia.
Defined.

Lemma every_pass_yields_valid_indices_once_witness :
  NoDup [1; 2] ∧ ∀ i, i ∈ [1; 2] → i < length four_records.
Proof.
  apply (every_pass_yields_valid_indices_once (torch:=reference_torch)
           four_records 2 true true 10 0
           {| CustomSampler.optimize := true; CustomSampler.shuffle := true;
              CustomSampler.batchsize := 2;
              CustomSampler.optimized_idxs := [[0; 2; 1]];
              CustomSampler.idxs := [1; 2] |} 3 2 [1; 2]).
  - vm_compute. reflexivity.
  - vm_compute. apply list_elem_of_here.
Defined.

(** ** TextMelLoader: what an assembled example looks like *)

Section loader_extras.
Import TextMelLoader.
Context {F : Type} {floats : Floats F} {services : Services F}.

Lemma size_mel_time (m : ndarray F) T :
  size m 1 = OK T → default 0 (shape m !! 1) = T.
Proof. unfold size. intros HT%getitem_OK. by rewrite HT. Qed.

Lemma alignment_block_inv self audio_name stress phonemes sequence melspec out al :
  alignment_block self audio_name stress phonemes sequence melspec = (out, OK al) →
  (if get_alignments self
   then ∃ a, al = Some a ∧ shape a = [default 0 (shape melspec !! 1); length sequence]
   else al = None ∧ out = [])
  ∧ length out ≤ 1.
Proof.
  unfold alignment_block. destruct (get_alignments self).
  2:{ intros [= <- <-]. split; [done|simpl; lia]. }
  destruct (negb _); [done|].
  destruct (get_alignment self audio_name stress phonemes) as [[a|]|]; [| |done].
  - destruct (size melspec 1) as [T|] eqn:HT; [|done].
    apply size_mel_time in HT as ->.
    case_bool_decide as Hshape.
    + intros [= <- <-]. split; [by eexists|simpl; lia].
    + intros [= <- <-]. split; [|simpl; lia].
      exists (float_tensor a). split; [done|]. by symmetry.
  - intros [= _ Hr]. by destruct (size melspec 1).
Qed.

(** X9. An example [get_data] returns carries an alignment exactly when the
    loader is in alignment mode, and then its shape is (mel frames, symbols);
    it carries a CTC sequence exactly when [use_mmi] is set; outside
    alignment mode nothing is printed, and never more than one line. *)
Theorem get_data_fields_follow_flags (self : t F) w sample out e :
  get_data self w sample = (out, OK e) →
  (if get_alignments self
   then ∃ a, alignment e = Some a ∧ shape a = [mel_time e; length (sequence e)]
   else alignment e = None ∧ out = [])
  ∧ (ctc_sequence e = None ↔ use_mmi self = false)
  ∧ length out ≤ 1.
Proof.
  unfold get_data. destruct (_get_sress_phonemes self w) as [st ph].
  destruct sample as [audio_name text].
  destruct (get_text self text st ph) as [symbols|]; [|done].
  destruct (get_mel self audio_name) as [melspec|]; [|done].
  destruct (alignment_block self audio_name st ph symbols melspec) as [out' al] eqn:Hblock.
  intros [= -> Hres].
  destruct al as [al|]; [|done]. rewrite bind_OK in Hres.
  apply alignment_block_inv in Hblock as [Hal Hout].
  apply bind_OK_inv in Hres as (ctc & Hctc & Hres). injection Hres as <-.
  unfold mel_time. cbn [alignment sequence mel ctc_sequence].
  split; [done|]. split; [|done].
  destruct (use_mmi self).
  - destruct (get_ctc_text self symbols); [|done]. injection Hctc as <-. done.
  - injection Hctc as <-. done.
Qed.

(** X10. In alignment mode with word-level probabilities or added silence,
    [get_data] never returns an example and prints nothing: once the text and
    the mel are loaded, the assertion fails. *)
Theorem alignment_mode_rejects_word_level_and_silence (self : t F) w sample :
  get_alignments self = true →
  word_level_prob self = true ∨ add_silence self = true →
  ∃ err,
    get_data self w sample = ([], Raise err)
    ∧ ((∃ symbols, get_text self sample.2 (_get_sress_phonemes self w).1
                     (_get_sress_phonemes self w).2 = OK symbols) →
       (∃ melspec, get_mel self sample.1 = OK melspec) →
       err = AssertionError).
Proof.
  intros Hga Hflags. unfold get_data.
  destruct (_get_sress_phonemes self w) as [st ph].
  destruct sample as [audio_name text]. simpl.
  destruct (get_text self text st ph) as [symbols|err].
  2:{ exists err. split; [done|]. by intros [? ?]. }
  destruct (get_mel self audio_name) as [melspec|err].
  2:{ exists err. split; [done|]. by intros _ [? ?]. }
  unfold alignment_block. rewrite Hga.
  assert (negb (negb (word_level_prob self) && negb (add_silence self)) = true) as ->.
  { destruct Hflags as [-> | ->]; [done|]. by destruct (word_level_prob self). }
  by exists AssertionError.
Qed.

(** X11. Reading mels from disk, [get_mel] returns an array exactly when it
    is the stored one and its first dimension is [n_mel_channels]; with
    another first dimension the assertion fails. *)
Theorem mel_from_disk_has_channels (self : t F) filename :
  load_mel_from_disk self = true →
  (∀ melspec,
     get_mel self filename = OK melspec
     ↔ np_load (path_join (audio_path self) filename) = OK melspec
       ∧ shape melspec !! 0 = Some (n_mel_channels self))
  ∧ (∀ melspec d,
       np_load (path_join (audio_path self) filename) = OK melspec →
       shape melspec !! 0 = Some d → d ≠ n_mel_channels self →
       get_mel self filename = Raise AssertionError).
Proof.
  intros Hdisk. unfold get_mel. rewrite Hdisk. simpl. split.
  - intros melspec. split.
    + intros Hget. apply bind_OK_inv in Hget as (m & Hload & Hget).
      apply bind_OK_inv in Hget as (n & Hn & Hget).
      destruct (Nat.eqb_spec n (n_mel_channels self)) as [->|]; [|done].
      simpl in Hget. injection Hget as <-. split; [done|]. by apply getitem_OK.
    + intros [-> Hn]. rewrite bind_OK. unfold size.
      rewrite (getitem_Some _ _ _ Hn), bind_OK. by rewrite Nat.eqb_refl.
  - intros melspec d -> Hd Hne. rewrite bind_OK. unfold size.
    rewrite (getitem_Some _ _ _ Hd), bind_OK.
    by destruct (Nat.eqb_spec d (n_mel_channels self)).
Qed.

(** X12. Without trimming, the audio [get_audio] returns has shape
    (1, samples), plus [5 * hop_length] samples with [add_silence]: the
    samples are the scaled samples of the file in order, and the added ones
    are zero. *)
Theorem get_audio_keeps_samples_and_appends_silence (self : t F) filename add rate audio :
  wavfile_read (path_join (audio_path self) filename) = OK (rate, audio) →
  rate = sampling_rate self →
  ∃ a,
    get_audio self filename false add = OK a
    ∧ shape a = [1; length audio + (if add then 5 * hop_length self else 0)]
    ∧ (∀ i x, audio !! i = Some x →
         item a [0; i] = float32 (float32 (true_divide x (max_wav_value self))))
    ∧ (∀ i, length audio ≤ i → i < length audio + 5 * hop_length self → add = true →
         item a [0; i] = float32 fzero).
Proof.
  intros Hread ->. unfold get_audio. rewrite Hread, bind_OK. cbn zeta beta iota.
  rewrite Z.eqb_refl. simpl negb. cbn iota. rewrite bind_OK.
  eexists. split; [reflexivity|]. cbn [shape item unsqueeze0 of_list tail].
  split; [|split].
  - rewrite length_map. destruct add.
    + by rewrite length_app, length_map, length_replicate.
    + by rewrite length_map, Nat.add_0_r.
  - intros i x Hx.
    assert ((map (λ x, float32 (true_divide x (max_wav_value self))) audio) !! i
            = Some (float32 (true_divide x (max_wav_value self)))) as Hi.
    { change (map ?f ?l) with (f <$> l). by rewrite list_lookup_fmap, Hx. }
    change (map float32 ?l) with (float32 <$> l). rewrite list_lookup_fmap.
    destruct add.
    + by rewrite (lookup_app_l_Some _ _ _ _ Hi).
    + by rewrite Hi.
  - intros i Hlo Hhi ->.
    change (map float32 ?l) with (float32 <$> l). rewrite list_lookup_fmap.
    rewrite lookup_app_r by (by rewrite length_map).
    rewrite length_map, lookup_replicate_2 by lia. done.
Qed.

(** X13. With [trim_silence], a recording in which [librosa.effects.split]
    finds no interval cannot be loaded: [np.concatenate] of no array raises
    [ValueError], in [get_audio] and so in [get_mel]. *)
Theorem trimming_silent_recording_raises (self : t F) filename add rate audio :
  wavfile_read (path_join (audio_path self) filename) = OK (rate, audio) →
  rate = sampling_rate self →
  effects_split (map (λ x, float32 (true_divide x (max_wav_value self))) audio)
    (trim_top_db self) (ft_window self) (hop_length self) = OK [] →
  get_audio self filename true add = Raise ValueError
  ∧ (load_mel_from_disk self = false → trim_silence self = true →
     get_mel self filename = Raise ValueError).
Proof.
  intros Hread -> Hsplit.
  assert (∀ add', get_audio self filename true add' = Raise ValueError) as Haudio.
  { intros add'. unfold get_audio. rewrite Hread, bind_OK. cbn zeta beta iota.
    rewrite Z.eqb_refl. simpl negb. cbn iota. by rewrite Hsplit. }
  split; [done|]. intros Hdisk Htrim. unfold get_mel. by rewrite Hdisk, Htrim, Haudio.
Qed.

End loader_extras.

(** ** The CTC symbol table *)

(** [enumerate(l)] *)
Definition enumerate {A} (l : list A) : list (nat * A) := zip (seq 0 (length l)) l.

(** [{s: i for i, s in enumerate(symbols)}]: a later index replaces an
    earlier one under the same symbol. *)
Definition dict_of_enumerate (symbols : list string) : gmap string Z :=
  foldl (λ d (p : nat * string), <[p.2 := Z.of_nat p.1]> d) ∅ (enumerate symbols).

Section ctc_symbols.
(** [symb.Languages] is an enumeration of [tps]; its members are the keys of
    [ctc_mapping], and [Languages] is its lookup by name. *)
Context {Language : Type} `{Countable Language}.
Variables (en ru ru_trans : Language).
Variables (LETTERS_EN LETTERS_RU LETTERS_RU_TRANS : list string).
Variable Languages : gmap string Language.

Definition ctc_mapping : gmap Language (list string) :=
  <[ru_trans := LETTERS_RU_TRANS]> (<[ru := LETTERS_RU]> (<[en := LETTERS_EN]> ∅)).

Definition get_ctc_symbols (language : Language) : res (list string) :=
  match ctc_mapping !! language with
  | Some letters => OK (letters ++ ["_"%string])
  | None => Raise KeyError
  end.

Definition get_ctc_symbols_length (language : string) : res nat :=
  match Languages !! language with
  | Some language => symbols ← get_ctc_symbols language; OK (length symbols)
  | None => Raise KeyError
  end.

(** The last lines of [TextMelLoader.__init__]: the value of
    [self.ctc_symbol_to_id]. *)
Definition init_ctc_symbol_to_id (use_mmi : bool) (language : Language)
    : res (option (gmap string Z)) :=
  if use_mmi then
    symbols ← get_ctc_symbols language;
    OK (Some (dict_of_enumerate symbols))
  else OK None.

End ctc_symbols.

Lemma foldl_enumerate_lookup (l : list string) : ∀ k (d : gmap string Z) s i,
  foldl (λ d (p : nat * string), <[p.2 := Z.of_nat p.1]> d) d (zip (seq k (length l)) l) !! s
    = Some i →
  d !! s = Some i ∨ ∃ j, i = Z.of_nat (k + j) ∧ l !! j = Some s.
Proof.
  induction l as [|x l IH]; intros k d s i; simpl; [by left|].
  intros [Hd | (j & -> & Hj)]%IH.
  - destruct (decide (x = s)) as [->|Hne].
    + rewrite lookup_insert_eq in Hd. injection Hd as <-. right. exists 0.
      split; [f_equal; lia|done].
    + rewrite lookup_insert_ne in Hd by done. by left.
  - right. exists (S j). split; [f_equal; lia|done].
Qed.

Lemma foldl_enumerate_last (l : list string) : ∀ k (d : gmap string Z) s,
  foldl (λ d (p : nat * string), <[p.2 := Z.of_nat p.1]> d) d
    (zip (seq k (length (l ++ [s]))) (l ++ [s])) !! s
    = Some (Z.of_nat (k + length l)).
Proof.
  induction l as [|x l IH]; intros k d s; simpl.
  - rewrite lookup_insert_eq. do 2 f_equal. lia.
  - rewrite IH. do 2 f_equal. lia.
Qed.

Lemma dict_of_enumerate_lookup symbols s i :
  dict_of_enumerate symbols !! s = Some i →
  ∃ j, i = Z.of_nat j ∧ symbols !! j = Some s.
Proof.
  intros [Hd | (j & -> & Hj)]%foldl_enumerate_lookup; [by rewrite lookup_empty in Hd|].
  by exists j.
Qed.

Lemma omap_length_le {A B} (f : A → option B) (l : list A) :
  length (omap f l) ≤ length l.
Proof. induction l as [|x l IH]; csimpl; [done|]. destruct (f x); csimpl; lia. Qed.

Section ctc_extras.
Import TextMelLoader.
Context {F : Type} {floats : Floats F} {services : Services F}.
Context {Language : Type} `{Countable Language}.
Variables (en ru ru_trans : Language).
Variables (LETTERS_EN LETTERS_RU LETTERS_RU_TRANS : list string).
Variable Languages : gmap string Language.

(** X14. When [ctc_symbol_to_id] was built by [__init__] for the language
    named [name], every id [get_ctc_text] returns is a class index below
    [get_ctc_symbols_length name], there are no more ids than input symbols,
    and the table gives the blank ["_"] the last index. *)
Theorem ctc_ids_below_symbol_count (self : t F) name language symbols out :
  Languages !! name = Some language →
  use_mmi self = true →
  init_ctc_symbol_to_id en ru ru_trans LETTERS_EN LETTERS_RU LETTERS_RU_TRANS
    (use_mmi self) language = OK (ctc_symbol_to_id self) →
  get_ctc_text self symbols = OK out →
  ∃ n tbl,
    get_ctc_symbols_length en ru ru_trans LETTERS_EN LETTERS_RU LETTERS_RU_TRANS
      Languages name = OK n
    ∧ Forall (λ i, 0 ≤ i < Z.of_nat n)%Z out
    ∧ length out ≤ length symbols
    ∧ ctc_symbol_to_id self = Some tbl
    ∧ tbl !! "_"%string = Some (Z.of_nat n - 1)%Z.
Proof.
  intros Hname Hmmi Hinit Hout.
  unfold init_ctc_symbol_to_id in Hinit. rewrite Hmmi in Hinit.
  apply bind_OK_inv in Hinit as (syms & Hsyms & Hinit). injection Hinit as Htbl.
  unfold get_ctc_symbols_length. rewrite Hname, Hsyms, bind_OK.
  exists (length syms), (dict_of_enumerate syms).
  split; [done|].
  unfold get_ctc_text in Hout. apply bind_OK_inv in Hout as (text & Htext & Hout).
  rewrite <-Htbl in Hout. injection Hout as <-.
  split; [|split; [|split; [done|]]].
  - apply Forall_forall. intros i Hi.
    apply list_elem_of_omap in Hi as (s & _ & Hs).
    apply dict_of_enumerate_lookup in Hs as (j & -> & Hj).
    apply lookup_lt_Some in Hj. lia.
  - etrans; [apply omap_length_le|].
    clear -Htext. revert text Htext.
    induction symbols as [|s symbols IH]; intros text Htext; simpl in Htext.
    + by injection Htext as <-.
    + apply bind_OK_inv in Htext as (c & _ & Htext).
      apply bind_OK_inv in Htext as (text' & Htext' & Htext). injection Htext as <-.
      simpl. specialize (IH _ Htext'). lia.
  - unfold get_ctc_symbols in Hsyms.
    destruct (ctc_mapping en ru ru_trans LETTERS_EN LETTERS_RU LETTERS_RU_TRANS !! language)
      as [letters|]; [|done].
    injection Hsyms as <-. unfold dict_of_enumerate, enumerate.
    rewrite foldl_enumerate_last, length_app. simpl. f_equal. lia.
Qed.

End ctc_extras.

(** ** TextMelCollate: the cells of the padded tensors *)

(** A two-dimensional array laid out in [n] rows of [W] float32 cells: its
    own cells, cast to float32, inside its shape, and zero outside. *)
Definition pad2 {F} {floats : Floats F} (n W : nat) (v : ndarray F) : list (list F) :=
  map (λ r, map (λ c, if (r <? default 0 (shape v !! 0)) && (c <? default 0 (shape v !! 1))
                      then float32 (item v [r; c]) else fzero) (seq 0 W)) (seq 0 n).

Lemma lookup_replicate_ge {A} n (x : A) i : n ≤ i → replicate n x !! i = None.
Proof. apply lookup_replicate_None. Qed.

Lemma imap_replicate {A B} (g : nat → A → B) n x :
  imap g (replicate n x) = map (λ r, g r x) (seq 0 n).
Proof.
  apply list_eq. intros i. change (map ?f ?l) with (f <$> l).
  rewrite list_lookup_imap, list_lookup_fmap.
  destruct (decide (i < n)) as [Hi|Hi].
  - by rewrite lookup_replicate_2, lookup_seq_lt by done.
  - by rewrite lookup_replicate_ge, lookup_seq_ge by lia.
Qed.

Lemma fmap_seq_ext {B} (g h : nat → B) j n :
  (∀ i, j ≤ i < j + n → g i = h i) → g <$> seq j n = h <$> seq j n.
Proof.
  intros Hgh. apply list_eq. intros i. rewrite !list_lookup_fmap.
  destruct (decide (i < n)) as [Hi|Hi].
  - rewrite lookup_seq_lt by done. simpl. f_equal. apply Hgh. lia.
  - by rewrite lookup_seq_ge by lia.
Qed.

Lemma pad_row {B} (g : nat → B) cols W z :
  cols ≤ W →
  (g <$> seq 0 cols) ++ replicate (W - cols) z
    = (λ c, if c <? cols then g c else z) <$> seq 0 W.
Proof.
  intros Hle. replace W with (cols + (W - cols)) at 2 by lia.
  rewrite seq_app, fmap_app. f_equal.
  - apply fmap_seq_ext. intros i Hi.
    by destruct (Nat.ltb_spec i cols); [|lia].
  - apply list_eq. intros i. rewrite list_lookup_fmap.
    destruct (decide (i < W - cols)) as [Hi|Hi].
    + rewrite lookup_replicate_2, lookup_seq_lt by done. simpl.
      destruct (_ <? _) eqn:Hlt; [apply Nat.ltb_lt in Hlt; lia|done].
    + by rewrite lookup_replicate_ge, lookup_seq_ge by lia.
Qed.

Section collate_content.
Import TextMelCollate.
Context {F : Type} {floats : Floats F} {torch : Torch}.

Lemma all_below_one (idx : list nat) k :
  Forall2 lt idx (replicate k 1) → idx = replicate k 0.
Proof.
  revert idx. induction k as [|k IH]; intros idx Hidx; simpl in *.
  - by apply Forall2_nil_inv_r in Hidx.
  - apply Forall2_cons_inv_r in Hidx as (i & idx' & Hi & Hidx' & ->).
    f_equal; [lia|by apply IH].
Qed.

Lemma zip_with_in_bounds (vs idx : list nat) :
  Forall2 lt idx vs → zip_with (λ a i : nat, if a =? 1 then 0 else i) vs idx = idx.
Proof.
  induction 1 as [|i a idx vs Hi _ IH]; simpl; [done|].
  rewrite IH. f_equal. destruct (Nat.eqb_spec a 1); lia.
Qed.

(** A value of the shape of the slot is copied cell by cell. *)
Lemma expand_setitem_in_bounds (v : ndarray F) f idx :
  expand_setitem v (shape v) = OK f → Forall2 lt idx (shape v) → f idx = item v idx.
Proof.
  unfold expand_setitem.
  destruct (strip_ones_split (shape v)) as [k Hk].
  set (vs := strip_ones (shape v)) in *.
  assert (length (shape v) - length vs = k) as ->.
  { rewrite Hk at 1. rewrite length_app, length_replicate. lia. }
  destruct (_ && _); [|done]. intros [= <-] Hidx.
  rewrite Hk in Hidx.
  apply Forall2_app_inv_r in Hidx as (i1 & i2 & Hi1 & Hi2 & ->).
  apply all_below_one in Hi1 as ->.
  rewrite drop_app_length' by (by rewrite length_replicate).
  by rewrite zip_with_in_bounds.
Qed.

Lemma set_block_content (n W rows cols : nat) (v : ndarray F) :
  shape v = [rows; cols] → rows ≤ n → cols ≤ W →
  set_block (replicate n (replicate W fzero)) W rows cols v = OK (pad2 n W v).
Proof.
  intros Hshape Hrows Hcols. unfold set_block.
  rewrite length_replicate.
  replace (rows `min` n) with rows by lia. replace (cols `min` W) with cols by lia.
  rewrite <-Hshape.
  destruct (expand_setitem_same v) as [f Hf]. rewrite Hf, bind_OK.
  pose proof (expand_setitem_in_bounds v f) as Hcell. specialize (λ idx, Hcell idx Hf).
  rewrite Hshape in Hcell.
  f_equal. rewrite imap_replicate. unfold pad2. rewrite Hshape. simpl default.
  change (map ?g ?l) with (g <$> l).
  apply fmap_seq_ext. intros r Hr.
  destruct (Nat.ltb_spec r rows) as [Hlt|Hge]; simpl.
  - rewrite drop_replicate, pad_row by done.
    apply fmap_seq_ext. intros c Hc.
    destruct (Nat.ltb_spec c cols) as [Hclt|Hcge]; [|done].
    f_equal. apply Hcell. repeat constructor; done.
  - apply list_eq. intros c. rewrite list_lookup_fmap.
    destruct (decide (c < W)) as [Hc|Hc].
    + by rewrite lookup_replicate_2, lookup_seq_lt by done.
    + by rewrite lookup_replicate_ge, lookup_seq_ge by lia.
Qed.

Variables (batch : list (example F)) (ga gc : bool) (num_mels Wt Wm Wc : nat).

(** The padded alignment of an example, [[]] when it has none. *)
Definition padded_alignment (e : example F) : list (list F) :=
  from_option (pad2 Wm Wt) [] (alignment e).

(** The cells of the mel and alignment buffers once the rows of [es] are
    written and [m] rows are left. *)
Definition detailed (es : list (example F)) (m : nat) (b : buffers F) : Prop :=
  mel_padded b = ((λ e, pad2 num_mels Wm (mel e)) <$> es)
                   ++ replicate m (replicate num_mels (replicate Wm fzero))
  ∧ (ga = true →
     alignments_padded b = Some ((padded_alignment <$> es)
                                   ++ replicate m (replicate Wm (replicate Wt fzero)))).

Lemma collate_body_detailed es m b idx e b' :
  fits ga gc num_mels Wt Wm Wc e →
  batch !! idx = Some e →
  detailed es (S m) b →
  collate_body batch ga gc Wt Wm b (length es) idx = OK b' →
  detailed (es ++ [e]) m b'.
Proof.
  intros (Hshape & HT & Hlen & Hal & _) He (Hm & Ha) Hbody. unfold collate_body in Hbody.
  rewrite (getitem_Some _ _ _ He), bind_OK in Hbody.
  assert (size (mel e) 1 = OK (mel_time e)) as Hsize by (unfold size; by rewrite Hshape).
  rewrite Hsize, bind_OK in Hbody.
  apply bind_OK_inv in Hbody as (ol & _ & Hbody).
  apply bind_OK_inv in Hbody as (trow & _ & Hbody).
  apply bind_OK_inv in Hbody as (trow' & _ & Hbody).
  rewrite Hm, getitem_next, bind_OK in Hbody by (by rewrite length_fmap).
  rewrite length_replicate in Hbody.
  rewrite (set_block_content num_mels Wm num_mels (mel_time e) (mel e)), bind_OK in Hbody
    by done.
  apply bind_OK_inv in Hbody as (grow & _ & Hbody).
  apply bind_OK_inv in Hbody as (ap' & Hap & Hbody).
  apply bind_OK_inv in Hbody as (ctc' & _ & Hbody).
  injection Hbody as <-.
  split; cbn [mel_padded alignments_padded].
  - rewrite insert_after by (by rewrite length_fmap). by rewrite fmap_app.
  - intros Hga. rewrite Hga in Hap. rewrite (Ha Hga) in Hap.
    destruct (Hal Hga) as (a & Hsome & Hsa). rewrite Hsome in Hap.
    rewrite getitem_next, bind_OK in Hap by (by rewrite length_fmap).
    rewrite (set_block_content Wm Wt (mel_time e) (length (sequence e)) a), bind_OK in Hap
      by done.
    injection Hap as <-.
    rewrite insert_after by (by rewrite length_fmap).
    rewrite fmap_app. do 3 f_equal. rewrite list_fmap_singleton.
    unfold padded_alignment. by rewrite Hsome.
Qed.

Lemma collate_loop_detailed ids : ∀ es done b b',
  Forall (fits ga gc num_mels Wt Wm Wc) es →
  Forall2 (λ e i, batch !! i = Some e) es ids →
  detailed done (length ids) b →
  collate_loop batch ga gc Wt Wm (length done) ids b = OK b' →
  detailed (done ++ es) 0 b'.
Proof.
  induction ids as [|idx ids IH]; intros es done b b' Hfit Hes Hb Hloop.
  - apply Forall2_nil_inv_r in Hes as ->. simpl in Hloop. simplify_eq.
    by rewrite app_nil_r.
  - apply Forall2_cons_inv_r in Hes as (e & es' & He & Hes' & ->).
    apply Forall_cons in Hfit as [Hfe Hfit].
    simpl in Hloop. apply bind_OK_inv in Hloop as (b1 & Hbody & Hloop).
    assert (detailed (done ++ [e]) (length ids) b1) as Hb1.
    { by eapply collate_body_detailed. }
    replace (S (length done)) with (length (done ++ [e])) in Hloop
      by (rewrite length_app; simpl; lia).
    rewrite (assoc (++) done [e] es').
    by eapply IH.
Qed.

End collate_content.

Section collate_extras.
Import TextMelCollate.
Context {F : Type} {floats : Floats F} {torch : Torch}.

(** [x[1].size(0)], the number of mel channels of an example. *)
Definition mel_rows (e : example F) : nat := default 0 (shape (mel e) !! 0).

(** [max(len(x[3]) for x in batch)] *)
Definition max_ctc_len (batch : list (example F)) : nat :=
  foldr Nat.max 0 ((λ e, length (ctc_of e)) <$> batch).

(** Every tensor [__call__] returns on a well-formed batch, row by row: the
    rows of all of them follow one order [es] of the examples. *)
Lemma call_well_formed (batch : list (example F)) :
  well_formed batch →
  ∃ es inputs al ctc,
    __call__ batch = OK (inputs, al, ctc)
    ∧ es ≡ₚ batch
    ∧ text inputs = (λ e, text_row (max_input_len batch) (sequence e)) <$> es
    ∧ text_len inputs = (λ e, length (sequence e)) <$> es
    ∧ mel_len inputs = mel_time <$> es
    ∧ gate inputs = (λ e, gate_row (max_target_len batch) (mel_time e)) <$> es
    ∧ mels inputs = (λ e, pad2 (mel_rows e) (max_target_len batch) (mel e)) <$> es
    ∧ al = (if lacks_alignment batch then None
            else Some (padded_alignment (max_input_len batch) (max_target_len batch) <$> es))
    ∧ ctc = (if lacks_ctc batch then None
             else Some {| ctc_text :=
                            Some ((λ e, text_row (max_ctc_len batch) (ctc_of e)) <$> es);
                          ctc_length := Some ((λ e, length (ctc_of e)) <$> es) |}).
Proof.
  intros (Hne & (num_mels & Hmel) & Halign).
  destruct (sorted_examples batch) as (es & Hes & Hbes & Hvals & _ & Hwt).
  specialize (Hwt Hne).
  unfold __call__.
  change (existsb (λ elem, bool_decide (alignment elem = None)) batch)
    with (lacks_alignment batch).
  change (existsb (λ elem, bool_decide (ctc_sequence elem = None)) batch)
    with (lacks_ctc batch).
  destruct (sort_descending ((λ x, length (sequence x)) <$> batch)) as [vals ids].
  simpl in Hes, Hwt, Hvals.
  assert (Hids : length ids = length batch).
  { apply Forall2_length in Hes. by rewrite <-Hes, Hbes. }
  rewrite Hwt, bind_OK.
  rewrite (comprehension_ext (λ x, size (mel x) 1) (λ x, OK (mel_time x))).
  2:{ intros e He. cbn beta. unfold size. by rewrite (Hmel e He). }
  rewrite comprehension_OK_pure, bind_OK, py_max_fmap, bind_OK by done.
  fold (max_target_len batch).
  destruct batch as [|first rest] eqn:Hbatch; [done|]. rewrite <-Hbatch in *.
  assert (getitem batch 0 = OK first) as -> by (by rewrite Hbatch).
  rewrite bind_OK.
  assert (size (mel first) 0 = OK num_mels) as ->.
  { unfold size. rewrite (Hmel first); [done|]. rewrite Hbatch. by left. }
  rewrite !bind_OK.
  set (gc := negb (lacks_ctc batch)). set (ga := negb (lacks_alignment batch)).
  fold (max_ctc_len batch).
  set (Wc := max_ctc_len batch).
  assert (Hctc0 : (if gc then
            ctc_lens ← comprehension len_ctc batch;
            max_ctc_text_len ← py_max ctc_lens;
            OK (Some (replicate (length batch) (replicate max_ctc_text_len 0%Z)),
                Some (replicate (length batch) 0))
          else OK (None, None))
          = OK (if gc then (Some (replicate (length batch) (replicate Wc 0%Z)),
                            Some (replicate (length batch) 0))
                else (None, None))).
  { destruct gc eqn:Hgc; [|done].
    rewrite (comprehension_ext len_ctc (λ x, OK (length (ctc_of x)))).
    2:{ intros e He. cbn beta. apply negb_true_iff in Hgc.
        destruct (lacks_ctc_false _ _ Hgc He) as [c Hc].
        unfold len_ctc, ctc_of. by rewrite Hc. }
    by rewrite comprehension_OK_pure, bind_OK, py_max_fmap, bind_OK. }
  rewrite Hctc0, bind_OK. clear Hctc0.
  assert (Hfits : Forall (fits ga gc num_mels (max_input_len batch) (max_target_len batch) Wc) es).
  { apply Forall_forall. intros e He. rewrite Hbes in He.
    split; [by apply Hmel|]. split; [|split; [|split]].
    - apply foldr_max_le, list_elem_of_fmap. eauto.
    - apply foldr_max_le, list_elem_of_fmap. eauto.
    - intros Hga. apply negb_true_iff in Hga.
      destruct (lacks_alignment_false _ _ Hga He) as [a Ha].
      exists a. split; [done|]. apply Halign; [|done..].
      intros e' He'. destruct (lacks_alignment_false _ _ Hga He') as [a' ->]. done.
    - intros Hgc. apply negb_true_iff in Hgc.
      destruct (lacks_ctc_false _ _ Hgc He) as [c Hc].
      exists c. split; [done|].
      apply foldr_max_le, list_elem_of_fmap. exists e. unfold ctc_of. by rewrite Hc. }
  match goal with |- context [collate_loop _ _ _ _ _ 0 ids ?b0] =>
    destruct (collate_loop_filled batch ga gc num_mels (max_input_len batch)
                (max_target_len batch) Wc ids es [] b0) as (b & Hloop & Hb); [done|done| |];
    [|pose proof (collate_loop_detailed batch ga gc num_mels (max_input_len batch)
                   (max_target_len batch) Wc ids es [] b0 b Hfits Hes) as Hdet]
  end.
  { rewrite Hids.
    split; [done|]. split; [by exists []|]. split; [done|]. split; [|split; [|done]].
    - destruct ga; [by exists []|done].
    - by destruct gc. }
  simpl in Hloop. rewrite Hloop, bind_OK.
  destruct Hdet as [Hm Ha]; [|done|].
  { rewrite Hids. split; [done|]. intros Hga. cbn [alignments_padded]. by rewrite Hga. }
  destruct Hb as (Ht & _ & Hg & Hfa & Hc & Ho).
  rewrite app_nil_l, app_nil_r in *. simpl in Ht, Hg, Ho.
  eexists es, _, _, _. split; [reflexivity|]. cbn [text text_len mel_len gate mels].
  do 5 (split; [done|]). split; [|split].
  - rewrite Hm. apply Forall_fmap_ext, Forall_forall. intros e He.
    unfold mel_rows. rewrite (Hmel e) by (by rewrite <-Hbes). done.
  - subst ga. destruct (lacks_alignment batch); simpl in *; [done|by apply Ha].
  - subst gc. destruct (lacks_ctc batch); simpl in *; [done|].
    destruct Hc as [-> ->]. by rewrite !app_nil_r.
Qed.

End collate_extras.

Lemma unpad_rows {A} (z : A) W (ss : list (list A)) :
  zip_with take (length <$> ss) ((λ s, s ++ replicate (W - length s) z) <$> ss) = ss.
Proof.
  induction ss as [|s ss IH]; [done|].
  rewrite !fmap_cons. cbn [zip_with]. by rewrite take_app_length, IH.
Qed.

Lemma comprehension_raises {A B} (f : A → res B) (l : list A) err x :
  x ∈ l → f x = Raise err → (∀ y err', y ∈ l → f y = Raise err' → err' = err) →
  comprehension f l = Raise err.
Proof.
  induction l as [|y l IH]; intros Hx Hfx Hall; [by apply elem_of_nil in Hx|].
  simpl. destruct (f y) as [b|err'] eqn:Hfy.
  - rewrite bind_OK. apply elem_of_cons in Hx as [->|Hx]; [congruence|].
    rewrite IH; [done..|]. intros y' err' Hy'. apply Hall. by right.
  - simpl. f_equal. eapply Hall; [|done]. by left.
Qed.

Section collate_theorems.
Import TextMelCollate.
Context {F : Type} {floats : Floats F} {torch : Torch}.

(** X17. Unpadding a returned batch gives back the symbol sequences: cutting
    each row of [text] at its entry of [text_len] yields the sequences of the
    batch (in the order of the rows), every row has the width of the longest
    sequence, and the cells after the cut are zero. *)
Theorem unpadding_text_returns_the_sequences (batch : list (example F)) inputs al ctc :
  __call__ batch = OK (inputs, al, ctc) →
  zip_with take (text_len inputs) (text inputs) ≡ₚ sequence <$> batch
  ∧ Forall (λ row, length row = max_input_len batch) (text inputs)
  ∧ Forall2 (λ n row, drop n row = replicate (max_input_len batch - n) 0%Z)
      (text_len inputs) (text inputs).
Proof.
  intros (_ & es & Hperm & _ & -> & -> & _)%call_OK_inv.
  assert (Hle : ∀ e, e ∈ es → length (sequence e) ≤ max_input_len batch).
  { intros e He. apply foldr_max_le, list_elem_of_fmap. exists e. by rewrite <-Hperm. }
  split; [|split].
  - rewrite <-Hperm.
    rewrite <-(unpad_rows 0%Z (max_input_len batch) (sequence <$> es)) at 1.
    by rewrite <-!list_fmap_compose.
  - apply Forall_fmap, Forall_forall. intros e He. specialize (Hle e He).
    unfold text_row. simpl. rewrite length_app, length_replicate. lia.
  - apply Forall2_fmap, Forall_Forall2_diag, Forall_forall. intros e He.
    unfold text_row. by rewrite drop_app_length.
Qed.

(** X18. On a well-formed batch, [mels] holds the mel of each example in the
    order of the rows of [text_len] and [mel_len]: cell (r, c) of a row is
    the cell of the mel cast to float32 (the buffer is a [FloatTensor]) for
    [c] below its number of frames, and zero after. *)
Theorem mel_frames_copied_and_zero_padded (batch : list (example F)) :
  well_formed batch →
  ∃ es inputs al ctc,
    __call__ batch = OK (inputs, al, ctc)
    ∧ es ≡ₚ batch
    ∧ text_len inputs = (λ e, length (sequence e)) <$> es
    ∧ mel_len inputs = mel_time <$> es
    ∧ mels inputs = (λ e, pad2 (mel_rows e) (max_target_len batch) (mel e)) <$> es.
Proof.
  intros (es & inputs & al & ctc & Hcall & Hperm & _ & Htl & Hml & _ & Hmels & _)%call_well_formed.
  by exists es, inputs, al, ctc.
Qed.

(** X19. On a well-formed batch in which every example has an alignment, the
    alignments are returned in the order of the rows of [text_len] and
    [mel_len], each in (longest mel) rows of (longest sequence) cells: its
    own cells cast to float32 (the buffer is a [FloatTensor]) inside its
    shape, zero outside. *)
Theorem alignments_copied_and_zero_padded (batch : list (example F)) :
  well_formed batch → lacks_alignment batch = false →
  ∃ es als inputs al ctc,
    __call__ batch = OK (inputs, Some al, ctc)
    ∧ es ≡ₚ batch
    ∧ text_len inputs = (λ e, length (sequence e)) <$> es
    ∧ mel_len inputs = mel_time <$> es
    ∧ Forall2 (λ e a, alignment e = Some a) es als
    ∧ al = pad2 (max_target_len batch) (max_input_len batch) <$> als.
Proof.
  intros (es & inputs & al & ctc & Hcall & Hperm & _ & Htl & Hml & _ & _ & Hal & _)%call_well_formed
    Hlacks.
  rewrite Hlacks in Hal. subst al.
  assert (∃ als, Forall2 (λ e a, alignment e = Some a) es als) as [als Hals].
  { assert (Forall (λ e, ∃ a, alignment e = Some a) es) as Hall.
    { apply Forall_forall. intros e He. rewrite Hperm in He.
      by eapply lacks_alignment_false. }
    clear -Hall. induction Hall as [|e es [a Ha] _ [als IH]]; [by exists []|].
    exists (a :: als). by constructor. }
  eexists es, als, inputs, _, ctc. split; [exact Hcall|]. do 4 (split; [done|]).
  clear -Hals. induction Hals as [|e a es als Ha _ IH]; [done|].
  rewrite !fmap_cons, IH. f_equal. unfold padded_alignment. by rewrite Ha.
Qed.

(** X20. On a well-formed batch in which every example has a CTC sequence,
    the CTC rows follow the order of the rows of [text_len]: the lengths are
    those of the CTC sequences, every row has the width of the longest one,
    and cutting each row at its length gives the sequence back. *)
Theorem unpadding_ctc_returns_the_sequences (batch : list (example F)) :
  well_formed batch → lacks_ctc batch = false →
  ∃ es cs inputs al rows lens,
    __call__ batch = OK (inputs, al, Some {| ctc_text := Some rows; ctc_length := Some lens |})
    ∧ es ≡ₚ batch
    ∧ text_len inputs = (λ e, length (sequence e)) <$> es
    ∧ Forall2 (λ e c, ctc_sequence e = Some c) es cs
    ∧ lens = length <$> cs
    ∧ Forall (λ row, length row = max_ctc_len batch) rows
    ∧ zip_with take lens rows = cs.
Proof.
  intros (es & inputs & al & ctc & Hcall & Hperm & _ & Htl & _ & _ & _ & _ & Hctc)%call_well_formed
    Hlacks.
  rewrite Hlacks in Hctc. subst ctc.
  assert (Forall (λ e, ∃ c, ctc_sequence e = Some c) es) as Hall.
  { apply Forall_forall. intros e He. rewrite Hperm in He. by eapply lacks_ctc_false. }
  assert (Forall2 (λ e c, ctc_sequence e = Some c) es (ctc_of <$> es)) as Hcs.
  { apply Forall2_fmap_r, Forall_Forall2_diag.
    eapply Forall_impl; [exact Hall|]. intros e [c Hc]. unfold compose, ctc_of. by rewrite Hc. }
  eexists es, (ctc_of <$> es), inputs, al, _, _. split; [exact Hcall|].
  do 3 (split; [done|]). split; [|split].
  - by rewrite <-list_fmap_compose.
  - apply Forall_fmap, Forall_forall. intros e He. simpl. unfold text_row.
    rewrite length_app, length_replicate.
    assert (length (ctc_of e) ≤ max_ctc_len batch); [|lia].
    apply foldr_max_le, list_elem_of_fmap. exists e. by rewrite <-Hperm.
  - rewrite <-(unpad_rows 0%Z (max_ctc_len batch) (ctc_of <$> es)) at 1.
    by rewrite <-!list_fmap_compose.
Qed.

(** X21. A batch that is not empty and holds a mel with fewer than two
    dimensions is refused with [IndexError] (at [x[1].size(1)]). *)
Theorem mel_without_frames_dimension_raises (batch : list (example F)) e :
  e ∈ batch → length (shape (mel e)) < 2 → __call__ batch = Raise IndexError.
Proof.
  intros He Hdim.
  assert (Hne : batch ≠ []) by (intros ->; by apply elem_of_nil in He).
  destruct (sorted_examples batch) as (es & _ & _ & _ & _ & Hwt).
  specialize (Hwt Hne). unfold __call__.
  destruct (sort_descending ((λ x, length (sequence x)) <$> batch)) as [vals ids].
  simpl in Hwt. rewrite Hwt, bind_OK.
  rewrite (comprehension_raises (λ x, size (mel x) 1) batch IndexError e); [done|done| |].
  - unfold size, getitem. by rewrite lookup_ge_None_2 by lia.
  - intros y err' _. unfold size, getitem. destruct (_ !! _); [done|]. by intros [= <-].
Qed.

End collate_theorems.

(** ** The sampler, the loader and the collate function together *)

Section pipeline.
Context {F : Type} {floats : Floats F} {torch : Torch} {services : Services F}.

(** What [get_data] went through for an example it returned. *)
Lemma get_data_inv (self : TextMelLoader.t F) w sample out e :
  TextMelLoader.get_data self w sample = (out, OK e) →
  TextMelLoader.get_mel self sample.1 = OK (mel e)
  ∧ (if TextMelLoader.get_alignments self
     then ∃ a, alignment e = Some a ∧ shape a = [mel_time e; length (sequence e)]
     else alignment e = None)
  ∧ (ctc_sequence e = None ↔ TextMelLoader.use_mmi self = false).
Proof.
  unfold TextMelLoader.get_data.
  destruct (TextMelLoader._get_sress_phonemes self w) as [st ph].
  destruct sample as [audio_name text].
  destruct (TextMelLoader.get_text self text st ph) as [symbols|]; [|done].
  destruct (TextMelLoader.get_mel self audio_name) as [melspec|] eqn:Hmel; [|done].
  destruct (TextMelLoader.alignment_block self audio_name st ph symbols melspec)
    as [out' al] eqn:Hblock.
  intros [= -> Hres].
  destruct al as [al|]; [|done]. rewrite bind_OK in Hres.
  apply alignment_block_inv in Hblock as [Hal _].
  apply bind_OK_inv in Hres as (ctc & Hctc & Hres). injection Hres as <-.
  unfold mel_time. cbn [alignment sequence mel ctc_sequence fst].
  split; [done|]. split.
  - destruct (TextMelLoader.get_alignments self); [done|]. by destruct Hal.
  - destruct (TextMelLoader.use_mmi self).
    + destruct (TextMelLoader.get_ctc_text self symbols); [|done]. by injection Hctc as <-.
    + by injection Hctc as <-.
Qed.

Lemma lacks_alignment_none (batch : list (example F)) e :
  e ∈ batch → alignment e = None → lacks_alignment batch = true.
Proof.
  intros He Hnone. unfold lacks_alignment. apply existsb_exists.
  exists e. split; [by apply list_elem_of_In|]. by apply bool_decide_eq_true.
Qed.

Lemma lacks_ctc_none (batch : list (example F)) e :
  e ∈ batch → ctc_sequence e = None → lacks_ctc batch = true.
Proof.
  intros He Hnone. unfold lacks_ctc. apply existsb_exists.
  exists e. split; [by apply list_elem_of_In|]. by apply bool_decide_eq_true.
Qed.

(** X15. A sampler built on the records of a loader only yields indices the
    loader has a record for: [__getitem__] on a yielded index is [get_data]
    on that record, while an index from [len(data)] on raises [IndexError]. *)
Theorem sampler_indices_have_records (self : TextMelLoader.t F)
    batchsize shuffle optimize len_diff g sampler g1 n yielded w :
  CustomSampler.__init__ (TextMelLoader.data self) batchsize shuffle optimize len_diff g
    = OK (sampler, g1) →
  yielded ∈ passes n sampler g1 →
  (∀ i, i ∈ yielded →
     ∃ sample, TextMelLoader.data self !! i = Some sample
               ∧ TextMelLoader.__getitem__ self w i = TextMelLoader.get_data self w sample)
  ∧ (∀ i, length (TextMelLoader.data self) ≤ i →
       TextMelLoader.__getitem__ self w i = ([], Raise IndexError)).
Proof.
  intros Hinit Hy. split.
  - intros i Hi.
    destruct (passes_sound (length (TextMelLoader.data self)) n sampler g1 yielded)
      as [_ Hlt]; [by eapply init_sound|done|].
    destruct (lookup_lt_is_Some_2 (TextMelLoader.data self) i (Hlt i Hi)) as [sample Hs].
    exists sample. split; [done|]. unfold TextMelLoader.__getitem__. by rewrite Hs.
  - intros i Hi. unfold TextMelLoader.__getitem__. by rewrite lookup_ge_None_2.
Qed.

(** X16. Examples of one loader that reads mels from disk are collated
    without error whenever their mels are two-dimensional: the batch comes
    with alignments exactly in alignment mode and with CTC rows exactly with
    [use_mmi]. *)
Theorem loaded_batch_is_collated (self : TextMelLoader.t F) (batch : list (example F)) :
  batch ≠ [] →
  TextMelLoader.load_mel_from_disk self = true →
  (∀ e, e ∈ batch →
     length (shape (mel e)) = 2
     ∧ ∃ w sample out, TextMelLoader.get_data self w sample = (out, OK e)) →
  ∃ inputs al ctc,
    TextMelCollate.__call__ batch = OK (inputs, al, ctc)
    ∧ (al = None ↔ TextMelLoader.get_alignments self = false)
    ∧ (ctc = None ↔ TextMelLoader.use_mmi self = false).
Proof.
  intros Hne Hdisk Hall.
  assert (Hwf : well_formed batch).
  { split; [done|]. split.
    - exists (TextMelLoader.n_mel_channels self). intros e He.
      destruct (Hall e He) as (Hdim & w & sample & out & Hget).
      apply get_data_inv in Hget as (Hmel & _).
      unfold TextMelLoader.get_mel in Hmel. rewrite Hdisk in Hmel. simpl in Hmel.
      apply bind_OK_inv in Hmel as (m & _ & Hmel).
      apply bind_OK_inv in Hmel as (d & Hd & Hmel).
      destruct (Nat.eqb_spec d (TextMelLoader.n_mel_channels self)) as [->|]; [|done].
      simpl in Hmel. injection Hmel as ->. apply getitem_OK in Hd.
      unfold mel_time. destruct (shape (mel e)) as [|a [|b [|c s]]]; simpl in *; try lia.
      by simplify_eq.
    - intros _ e a He Ha.
      destruct (Hall e He) as (_ & w & sample & out & Hget).
      apply get_data_inv in Hget as (_ & Hal & _).
      destruct (TextMelLoader.get_alignments self); [|congruence].
      destruct Hal as (a' & Ha' & Hs). congruence. }
  destruct (call_returns batch Hwf) as [[[inputs al] ctc] Hcall].
  exists inputs, al, ctc. split; [done|].
  apply call_OK_inv in Hcall as (_ & es & _ & _ & _ & _ & _ & _ & Hal & Hctc).
  destruct batch as [|e0 rest] eqn:Hbatch; [done|]. rewrite <-Hbatch in *.
  assert (He0 : e0 ∈ batch) by (rewrite Hbatch; by left).
  rewrite Hal, Hctc. split.
  - destruct (TextMelLoader.get_alignments self) eqn:Hga.
    + split; [|done]. intros Hlacks. exfalso.
      assert (lacks_alignment batch = false) as Hfalse; [|congruence].
      apply not_true_is_false. intros (e & He & Hnone)%existsb_exists.
      apply list_elem_of_In in He. apply bool_decide_eq_true in Hnone.
      destruct (Hall e He) as (_ & w & sample & out & Hget).
      apply get_data_inv in Hget as (_ & Hal' & _). rewrite Hga in Hal'.
      destruct Hal' as (a & Ha & _). congruence.
    + split; [done|]. intros _. apply (lacks_alignment_none batch e0 He0).
      destruct (Hall e0 He0) as (_ & w & sample & out & Hget).
      apply get_data_inv in Hget as (_ & Hal' & _). by rewrite Hga in Hal'.
  - destruct (TextMelLoader.use_mmi self) eqn:Hmmi.
    + split; [|done]. intros Hlacks. exfalso.
      assert (lacks_ctc batch = false) as Hfalse; [|congruence].
      apply not_true_is_false. intros (e & He & Hnone)%existsb_exists.
      apply list_elem_of_In in He. apply bool_decide_eq_true in Hnone.
      destruct (Hall e He) as (_ & w & sample & out & Hget).
      apply get_data_inv in Hget as (_ & _ & Hc). rewrite Hmmi in Hc.
      apply Hc in Hnone. done.
    + split; [done|]. intros _. apply (lacks_ctc_none batch e0 He0).
      destruct (Hall e0 He0) as (_ & w & sample & out & Hget).
      apply get_data_inv in Hget as (_ & _ & Hc). rewrite Hmmi in Hc. by apply Hc.
Qed.

End pipeline.

(** ** The loader and collate properties on concrete stores and batches *)

(** A loader over the store of [store_services], whose stored arrays have
    shape (40, 10), by mode. *)
Definition loader_with (get_al word_level from_disk mmi : bool)
    (tbl : option (gmap string Z)) : TextMelLoader.t Z :=
  {| TextMelLoader.data := two_records;
     TextMelLoader.audio_path := "wavs"%string;
     TextMelLoader.alignment_path :=
       <["original"%string := "al/original"%string]>
         (<["stressed"%string := "al/stressed"%string]> ∅);
     TextMelLoader.add_silence := false;
     TextMelLoader.hop_length := 4;
     TextMelLoader.ft_window := 8;
     TextMelLoader.trim_silence := true;
     TextMelLoader.trim_top_db := 45%Z;
     TextMelLoader.text_cleaners := [];
     TextMelLoader.max_wav_value := 32768%Z;
     TextMelLoader.sampling_rate := 22050%Z;
     TextMelLoader.load_mel_from_disk := from_disk;
     TextMelLoader.n_mel_channels := 40;
     TextMelLoader.get_alignments := get_al;
     TextMelLoader.word_level_prob := word_level;
     TextMelLoader.stress := FlagBool false;
     TextMelLoader.phonemes := FlagBool false;
     TextMelLoader.dict_prime := false;
     TextMelLoader.id_to_symbol := <[1%Z := "a"%string]> (<[2%Z := "z"%string]> ∅);
     TextMelLoader.use_mmi := mmi;
     TextMelLoader.ctc_symbol_to_id := tbl |}.

(** The store of [store_services] in which no recording has a non-silent
    interval. *)
Definition silent_services : Services Z :=
  {| path_join := λ a b, (a +:+ "/" +:+ b)%string;
     path_splitext := λ p, (p, ""%string);
     wavfile_read := λ _, OK (22050%Z, [0; 0; 0]%Z);
     np_load := λ _, OK (sevens [40; 10]);
     effects_split := λ _ _ _ _, OK [];
     mel_spectrogram := λ _, OK (sevens [1; 80; 50]);
     text_to_sequence := λ _ _ _ _ _ _, OK (replicate 10 1%Z);
     Draw := bool;
     prob2bool := λ f d, match f with FlagBool b => b | FlagProb _ => d end |}.

(** The example the loader reads from disk for any record of the store. *)
Definition loaded_example : example Z :=
  {| sequence := replicate 10 1%Z; mel := sevens [40; 10];
     alignment := None; ctc_sequence := None |}.

(** Two examples with an alignment and a CTC sequence each. *)
Definition full_batch : list (example Z) :=
  [sample_example 2 3 (Some (sevens [3; 2])) (Some [4; 5]%Z);
   sample_example 4 1 (Some (sevens [1; 4])) (Some [6]%Z)].

(** One example whose mel is one-dimensional. *)
Definition batch_with_flat_mel : list (example Z) :=
  [{| sequence := [1; 2]%Z; mel := sevens [3]; alignment := None; ctc_sequence := None |}].

Lemma full_batch_well_formed : well_formed full_batch.
Proof.
  apply (well_formed_intro _ 2); [discriminate|repeat constructor|].
  repeat constructor; intros a Ha; simpl in Ha; by simplify_eq.
Qed.

Lemma get_data_fields_follow_flags_witness :
  ∃ out e,
    TextMelLoader.get_data (floats:=integer_cells) (services:=store_services)
      (loader_with true false true false None) (false, false) ("a.wav", "hello")%string
      = (out, OK e)
    ∧ (∃ a, alignment e = Some a ∧ shape a = [mel_time e; length (sequence e)])
    ∧ (ctc_sequence e = None ↔ false = false)
    ∧ length out ≤ 1.
Proof.
  eexists _, _. split; [reflexivity|].
  apply (get_data_fields_follow_flags (floats:=integer_cells) (services:=store_services)
           (loader_with true false true false None) (false, false)
           ("a.wav", "hello")%string).
  reflexivity.
Defined.

Lemma alignment_mode_rejects_word_level_and_silence_witness :
  ∃ err,
    TextMelLoader.get_data (floats:=integer_cells) (services:=store_services)
      (loader_with true true true false None) (false, false) ("a.wav", "hello")%string
      = ([], Raise err)
    ∧ ((∃ symbols,
          TextMelLoader.get_text (services:=store_services)
            (loader_with true true true false None) "hello"
            (TextMelLoader._get_sress_phonemes (services:=store_services)
               (loader_with true true true false None) (false, false)).1
            (TextMelLoader._get_sress_phonemes (services:=store_services)
               (loader_with true true true false None) (false, false)).2 = OK symbols) →
       (∃ melspec,
          TextMelLoader.get_mel (floats:=integer_cells) (services:=store_services)
            (loader_with true true true false None) "a.wav" = OK melspec) →
       err = AssertionError).
Proof.
  apply (alignment_mode_rejects_word_level_and_silence (floats:=integer_cells)
           (services:=store_services) (loader_with true true true false None)
           (false, false) ("a.wav", "hello")%string).
  - reflexivity.
  - left. reflexivity.
Defined.

Lemma mel_from_disk_has_channels_witness :
  (∀ melspec,
     TextMelLoader.get_mel (floats:=integer_cells) (services:=store_services)
       (loader_with false false true false None) "a.npy" = OK melspec
     ↔ np_load (Services:=store_services)
         (path_join (Services:=store_services) "wavs" "a.npy") = OK melspec
       ∧ shape melspec !! 0 = Some 40)
  ∧ (∀ melspec d,
       np_load (Services:=store_services)
         (path_join (Services:=store_services) "wavs" "a.npy") = OK melspec →
       shape melspec !! 0 = Some d → d ≠ 40 →
       TextMelLoader.get_mel (floats:=integer_cells) (services:=store_services)
         (loader_with false false true false None) "a.npy" = Raise AssertionError).
Proof.
  apply (mel_from_disk_has_channels (floats:=integer_cells) (services:=store_services)
           (loader_with false false true false None) "a.npy").
  reflexivity.
Defined.

Lemma get_audio_keeps_samples_and_appends_silence_witness :
  ∃ a,
    TextMelLoader.get_audio (floats:=integer_cells) (services:=store_services)
      (sample_loader 22050 false) "a.wav" false true = OK a
    ∧ shape a = [1; 3 + 5 * 4]
    ∧ (∀ i x, [0; 16384; -16384]%Z !! i = Some x →
         item a [0; i]
           = float32 (Floats:=integer_cells)
               (float32 (Floats:=integer_cells)
                  (true_divide (Floats:=integer_cells) x 32768%Z)))
    ∧ (∀ i, 3 ≤ i → i < 3 + 5 * 4 → true = true →
         item a [0; i] = float32 (Floats:=integer_cells) (fzero (Floats:=integer_cells))).
Proof.
  apply (get_audio_keeps_samples_and_appends_silence (floats:=integer_cells)
           (services:=store_services) (sample_loader 22050 false) "a.wav" true 22050
           [0; 16384; -16384]%Z); reflexivity.
Defined.

Lemma trimming_silent_recording_raises_witness :
  TextMelLoader.get_audio (floats:=integer_cells) (services:=silent_services)
    (loader_with false false false false None) "a.wav" true false = Raise ValueError
  ∧ (false = false → true = true →
     TextMelLoader.get_mel (floats:=integer_cells) (services:=silent_services)
       (loader_with false false false false None) "a.wav" = Raise ValueError).
Proof.
  apply (trimming_silent_recording_raises (floats:=integer_cells) (services:=silent_services)
           (loader_with false false false false None) "a.wav" false 22050 [0; 0; 0]%Z);
    reflexivity.
Defined.

Lemma ctc_ids_below_symbol_count_witness :
  ∃ n tbl,
    get_ctc_symbols_length "en"%string "ru"%string "ru_trans"%string
      ["a"; "b"]%string ["c"]%string ["d"]%string
      (<["en"%string := "en"%string]> ∅) "en" = OK n
    ∧ Forall (λ i, 0 ≤ i < Z.of_nat n)%Z [0; 0]%Z
    ∧ length [0; 0]%Z ≤ length [1; 2; 1]%Z
    ∧ TextMelLoader.ctc_symbol_to_id
        (loader_with false false true true
           (Some (dict_of_enumerate ["a"; "b"; "_"]%string))) = Some tbl
    ∧ tbl !! "_"%string = Some (Z.of_nat n - 1)%Z.
Proof.
  apply (ctc_ids_below_symbol_count "en"%string "ru"%string "ru_trans"%string
           ["a"; "b"]%string ["c"]%string ["d"]%string
           (<["en"%string := "en"%string]> ∅)
           (loader_with false false true true
              (Some (dict_of_enumerate ["a"; "b"; "_"]%string)))
           "en"%string "en"%string [1; 2; 1]%Z [0; 0]%Z).
  - reflexivity.
  - reflexivity.
  - vm_compute. reflexivity.
  - vm_compute. reflexivity.
Defined.

Lemma sampler_indices_have_records_witness :
  (∀ i, i ∈ [0; 1] →
     ∃ sample,
       TextMelLoader.data (sample_loader 22050 false) !! i = Some sample
       ∧ TextMelLoader.__getitem__ (floats:=integer_cells) (services:=store_services)
           (sample_loader 22050 false) (false, false) i
         = TextMelLoader.get_data (floats:=integer_cells) (services:=store_services)
             (sample_loader 22050 false) (false, false) sample)
  ∧ (∀ i, length (TextMelLoader.data (sample_loader 22050 false)) ≤ i →
       TextMelLoader.__getitem__ (floats:=integer_cells) (services:=store_services)
         (sample_loader 22050 false) (false, false) i = ([], Raise IndexError)).
Proof.
  apply (sampler_indices_have_records (floats:=integer_cells) (torch:=reference_torch)
           (services:=store_services) (sample_loader 22050 false) 2 false false 10 0
           {| CustomSampler.optimize := false; CustomSampler.shuffle := false;
              CustomSampler.batchsize := 2;
              CustomSampler.optimized_idxs := [];
              CustomSampler.idxs := [0; 1] |} 0 1 [0; 1] (false, false)).
  - reflexivity.
  - vm_compute. apply list_elem_of_here.
Defined.

Lemma loaded_batch_is_collated_witness :
  ∃ inputs al ctc,
    TextMelCollate.__call__ (floats:=integer_cells) (torch:=reference_torch)
      [loaded_example; loaded_example] = OK (inputs, al, ctc)
    ∧ (al = None ↔ false = false)
    ∧ (ctc = None ↔ false = false).
Proof.
  apply (loaded_batch_is_collated (floats:=integer_cells) (torch:=reference_torch)
           (services:=store_services) (loader_with false false true false None)
           [loaded_example; loaded_example]).
  - discriminate.
  - reflexivity.
  - intros e He. assert (e = loaded_example) as ->.
    { rewrite !elem_of_cons, elem_of_nil in He. intuition auto. }
    split; [reflexivity|].
    exists (false, false), ("a.npy", "hello")%string, []. reflexivity.
Defined.

Lemma unpadding_text_returns_the_sequences_witness :
  ∃ inputs al ctc,
    TextMelCollate.__call__ (floats:=integer_cells) (torch:=reference_torch) batch_5_3_8
      = OK (inputs, al, ctc)
    ∧ zip_with take (TextMelCollate.text_len inputs) (TextMelCollate.text inputs)
        ≡ₚ sequence <$> batch_5_3_8
    ∧ Forall (λ row, length row = max_input_len batch_5_3_8) (TextMelCollate.text inputs)
    ∧ Forall2 (λ n row, drop n row = replicate (max_input_len batch_5_3_8 - n) 0%Z)
        (TextMelCollate.text_len inputs) (TextMelCollate.text inputs).
Proof.
  destruct (call_returns (floats:=integer_cells) (torch:=reference_torch) batch_5_3_8
              batch_5_3_8_well_formed) as [[[inputs al] ctc] Hcall].
  exists inputs, al, ctc. split; [exact Hcall|].
  apply (unpadding_text_returns_the_sequences (floats:=integer_cells) (torch:=reference_torch)
           batch_5_3_8 inputs al ctc Hcall).
Defined.

Lemma mel_frames_copied_and_zero_padded_witness :
  ∃ es inputs al ctc,
    TextMelCollate.__call__ (floats:=integer_cells) (torch:=reference_torch) batch_5_3_8
      = OK (inputs, al, ctc)
    ∧ es ≡ₚ batch_5_3_8
    ∧ TextMelCollate.text_len inputs = (λ e, length (sequence e)) <$> es
    ∧ TextMelCollate.mel_len inputs = mel_time <$> es
    ∧ TextMelCollate.mels inputs
        = (λ e, pad2 (floats:=integer_cells) (mel_rows e) (max_target_len batch_5_3_8) (mel e))
            <$> es.
Proof.
  apply (mel_frames_copied_and_zero_padded (floats:=integer_cells) (torch:=reference_torch)
           batch_5_3_8 batch_5_3_8_well_formed).
Defined.

Lemma alignments_copied_and_zero_padded_witness :
  ∃ es als inputs al ctc,
    TextMelCollate.__call__ (floats:=integer_cells) (torch:=reference_torch) full_batch
      = OK (inputs, Some al, ctc)
    ∧ es ≡ₚ full_batch
    ∧ TextMelCollate.text_len inputs = (λ e, length (sequence e)) <$> es
    ∧ TextMelCollate.mel_len inputs = mel_time <$> es
    ∧ Forall2 (λ e a, alignment e = Some a) es als
    ∧ al = pad2 (floats:=integer_cells) (max_target_len full_batch) (max_input_len full_batch)
             <$> als.
Proof.
  apply (alignments_copied_and_zero_padded (floats:=integer_cells) (torch:=reference_torch)
           full_batch full_batch_well_formed).
  reflexivity.
Defined.

Lemma unpadding_ctc_returns_the_sequences_witness :
  ∃ es cs inputs al rows lens,
    TextMelCollate.__call__ (floats:=integer_cells) (torch:=reference_torch) full_batch
      = OK (inputs, al, Some {| TextMelCollate.ctc_text := Some rows;
                                TextMelCollate.ctc_length := Some lens |})
    ∧ es ≡ₚ full_batch
    ∧ TextMelCollate.text_len inputs = (λ e, length (sequence e)) <$> es
    ∧ Forall2 (λ e c, ctc_sequence e = Some c) es cs
    ∧ lens = length <$> cs
    ∧ Forall (λ row, length row = max_ctc_len full_batch) rows
    ∧ zip_with take lens rows = cs.
Proof.
  apply (unpadding_ctc_returns_the_sequences (floats:=integer_cells) (torch:=reference_torch)
           full_batch full_batch_well_formed).
  reflexivity.
Defined.

Lemma mel_without_frames_dimension_raises_witness :
  TextMelCollate.__call__ (floats:=integer_cells) (torch:=reference_torch)
    batch_with_flat_mel = Raise IndexError.
Proof.
  apply (mel_without_frames_dimension_raises (floats:=integer_cells) (torch:=reference_torch)
           batch_with_flat_mel
           {| sequence := [1; 2]%Z; mel := sevens [3]; alignment := None;
              ctc_sequence := None |}).
  - apply list_elem_of_here.
  - simpl. lia.
Defined.

(** ** TextMelLoader: random draws and the CTC text *)

Section loader_more.
Import TextMelLoader.
Context {F : Type} {floats : Floats F} {services : Services F}.

(** X22. In word-level mode [get_data] consumes no random draw: the stress
    and phonemes settings reach the text handler and the alignment lookup as
    they are stored, so the result is the same for every draw. *)
Theorem word_level_mode_draws_nothing (self : t F) w w' sample :
  word_level_prob self = true →
  _get_sress_phonemes self w = (stress self, phonemes self)
  ∧ get_data self w sample = get_data self w' sample.
Proof.
  intros Hwl.
  assert (∀ d, _get_sress_phonemes self d = (stress self, phonemes self)) as Hflags.
  { intros d. unfold _get_sress_phonemes. by rewrite Hwl. }
  split; [done|]. unfold get_data. by rewrite !Hflags.
Qed.

(** X23. [get_ctc_text] raises [KeyError] when the sequence holds an id the
    handler has no symbol for; otherwise it returns, in order, the CTC ids of
    the symbols that are in the CTC table, and drops the others silently. *)
Theorem ctc_text_keeps_known_symbols_in_order (self : t F) tbl (symbols : list Z) :
  ctc_symbol_to_id self = Some tbl →
  ((∃ s, s ∈ symbols ∧ id_to_symbol self !! s = None) →
   get_ctc_text self symbols = Raise KeyError)
  ∧ ((∀ s, s ∈ symbols → is_Some (id_to_symbol self !! s)) →
     get_ctc_text self symbols
       = OK (omap (λ s, id_to_symbol self !! s ≫= λ c, tbl !! c) symbols)).
Proof.
  intros Htbl. unfold get_ctc_text. rewrite Htbl. split.
  - intros (s & Hs & Hnone).
    rewrite (comprehension_raises _ symbols KeyError s); [done|done|by rewrite Hnone|].
    intros y err' _. destruct (id_to_symbol self !! y); [done|]. by intros [= <-].
  - intros Hall.
    assert (comprehension (λ s, match id_to_symbol self !! s with
                                | Some c => OK c
                                | None => Raise KeyError
                                end) symbols
            = OK (omap (λ s, id_to_symbol self !! s) symbols)
            ∧ omap (λ c, tbl !! c) (omap (λ s, id_to_symbol self !! s) symbols)
              = omap (λ s, id_to_symbol self !! s ≫= λ c, tbl !! c) symbols) as [-> <-];
      [|done].
    induction symbols as [|s symbols IH]; [done|].
    destruct (Hall s) as [c Hc]; [by left|].
    destruct IH as [IH1 IH2]; [intros s' Hs'; apply Hall; by right|].
    split.
    + cbn [comprehension]. rewrite Hc, bind_OK, IH1, bind_OK. csimpl. by rewrite Hc.
    + csimpl. rewrite Hc. csimpl. destruct (tbl !! c); csimpl; by rewrite IH2.
Qed.

End loader_more.

Lemma word_level_mode_draws_nothing_witness :
  TextMelLoader._get_sress_phonemes (services:=store_services)
    (loader_with false true true false None) (true, true)
    = (FlagBool false, FlagBool false)
  ∧ TextMelLoader.get_data (floats:=integer_cells) (services:=store_services)
      (loader_with false true true false None) (true, true) ("a.npy", "hello")%string
    = TextMelLoader.get_data (floats:=integer_cells) (services:=store_services)
        (loader_with false true true false None) (false, false) ("a.npy", "hello")%string.
Proof.
  apply (word_level_mode_draws_nothing (floats:=integer_cells) (services:=store_services)
           (loader_with false true true false None) (true, true) (false, false)
           ("a.npy", "hello")%string).
  reflexivity.
Defined.

Lemma ctc_text_keeps_known_symbols_in_order_witness :
  ((∃ s, s ∈ [1; 2; 1]%Z
         ∧ TextMelLoader.id_to_symbol
             (loader_with false false true true
                (Some (dict_of_enumerate ["a"; "b"; "_"]%string))) !! s = None) →
   TextMelLoader.get_ctc_text
     (loader_with false false true true (Some (dict_of_enumerate ["a"; "b"; "_"]%string)))
     [1; 2; 1]%Z = Raise KeyError)
  ∧ ((∀ s, s ∈ [1; 2; 1]%Z →
        is_Some (TextMelLoader.id_to_symbol
                   (loader_with false false true true
                      (Some (dict_of_enumerate ["a"; "b"; "_"]%string))) !! s)) →
     TextMelLoader.get_ctc_text
       (loader_with false false true true (Some (dict_of_enumerate ["a"; "b"; "_"]%string)))
       [1; 2; 1]%Z
     = OK (omap (λ s, TextMelLoader.id_to_symbol
                        (loader_with false false true true
                           (Some (dict_of_enumerate ["a"; "b"; "_"]%string))) !! s
                      ≫= λ c, dict_of_enumerate ["a"; "b"; "_"]%string !! c)
             [1; 2; 1]%Z)).
Proof.
  apply (ctc_text_keeps_known_symbols_in_order
           (loader_with false false true true (Some (dict_of_enumerate ["a"; "b"; "_"]%string)))
           (dict_of_enumerate ["a"; "b"; "_"]%string) [1; 2; 1]%Z).
  reflexivity.
Defined.

(** ** The float32 cast on a concrete batch *)

(** Cells in which the float32 cast loses the last bit: it rounds down to an
    even number, and keeps zero. *)
Definition coarse_cells : Floats Z :=
  {| fzero := 0%Z; fone := 1%Z; true_divide := Z.div; float32 := λ x, (x / 2 * 2)%Z;
     nonzero := λ x, negb (x =? 0)%Z |}.

(** A mel of two channels and two frames whose cells are 7 is stored in the
    batch with cells 6, next to the zero padding of the third frame. *)
Example collate_casts_mel_cells_run :
  ∃ inputs al ctc,
    TextMelCollate.__call__ (floats:=coarse_cells) (torch:=reference_torch)
      [sample_example 1 2 None None; sample_example 1 3 None None] = OK (inputs, al, ctc)
    ∧ TextMelCollate.mels inputs
        = [[[6; 6; 0]; [6; 6; 0]]; [[6; 6; 6]; [6; 6; 6]]]%Z.
Proof. eexists _, _, _. split; [vm_compute; reflexivity|]. reflexivity. Qed.
